(** * micrograd/engine.py: the scalar autograd engine, embedded and verified

    The Python class [Value] is embedded over an explicit heap of objects.
    A reference is the allocation index of the object; attribute reads and
    writes become heap lookups and updates; the [_backward] closures become a
    tagged variant carrying their captured variables.

    Numbers.  Node payloads and gradients are IEEE binary64 values, Rocq's
    primitive [float].  The int literals of the source ([0], [1], [-1], [2])
    only ever meet a float operand, where CPython first converts them to the
    float of the same value; they are written as that float.  The two
    arithmetic functions the repository takes from the Python runtime,
    [math.exp] and the float power [**], are parameters of the development;
    runs in which CPython raises from them (OverflowError, ZeroDivisionError)
    are outside the embedding.

    Sets.  [_prev] is a Python set of objects hashed by identity.  Its
    iteration order is fixed by CPython's hashing, not by the source, so the
    order is a parameter as well: [set_order].  The theorems hold for every
    order.

    Recursion.  [buildTopo] recurses on the operands; the embedding gives it
    a depth budget and the theorems say which budgets suffice. *)

From Stdlib Require Import ZArith Floats String.
From stdpp Require Import base list gmap sets.

(* ===================================================================== *)
(** ** Python objects that reach the engine *)
(* ===================================================================== *)

(** Object identity of a [Value]: its allocation index in the heap. *)
Abbreviation ref := nat.

(** A Python number: a float, an int or a bool ([bool] is a subclass of
    [int]). *)
Inductive number :=
| NFloat (f : float)
| NInt (z : Z)
| NBool (b : bool).

(** A Python object passed where [__pow__] expects its exponent. *)
Inductive pyobj :=
| PyNum (n : number)
| PyNone
| PyStr (s : string)
| PyValue (r : ref).

(** The second operand of a binary operator: a [Value] or a raw number. *)
Inductive operand :=
| OValue (r : ref)
| ONum (c : float).

(** [float(z)] for an int [z]: rounding to nearest, ties to even. *)
Definition float_of_Z (z : Z) : float :=
  SF2Prim (binary_normalize prec emax z 0 false).

(** A number as CPython's float arithmetic sees it. *)
Definition float_of_number (other : number) : float :=
  match other with
  | NFloat f => f
  | NInt z => float_of_Z z
  | NBool b => if b then 1%float else 0%float
  end.

(** [other - 1] on a number: int arithmetic on ints and bools. *)
Definition number_pred (other : number) : number :=
  match other with
  | NFloat f => NFloat (f - 1)%float
  | NInt z => NInt (z - 1)
  | NBool b => NInt ((if b then 1 else 0) - 1)
  end.

(** [b * g] for a bool [b] and a float [g]: the bool is converted first. *)
Definition bool_mul (b : bool) (g : float) : float :=
  ((if b then 1 else 0) * g)%float.

(** Python's [==] on floats, and "the same number" (equal, or both NaN). *)
Definition py_eq (a b : float) : Prop := (a =? b)%float = true.

Definition same_number (a b : float) : Prop :=
  py_eq a b ∨ (is_nan a = true ∧ is_nan b = true).

(* ===================================================================== *)
(** ** class Value *)
(* ===================================================================== *)

(** The [_op] attribute: a literal tag, or the f-string [f"**{other}"]. *)
Inductive op_tag :=
| Tag (s : string)
| TagPow (other : number).

(** The [_backward] attribute: [lambda: None], or one of the nested
    [_backward] functions with the variables it closes over. *)
Inductive closure :=
| lambda_None
| tanh_backward (self out : ref) (t : float)
| relu_backward (self out : ref)
| sigmoid_backward (self out : ref) (s : float)
| exp_backward (self out : ref)
| add_backward (self other out : ref)
| pow_backward (self : ref) (other : number) (out : ref)
| mul_backward (self other out : ref).

Record Value := mkValue {
  data : float;
  grad : float;
  _backward : closure;
  _prev : list ref;  (* the set's elements, in its iteration order *)
  _op : op_tag;
  label : string
}.

Global Instance Value_inhabited : Inhabited Value :=
  populate (mkValue 0 0 lambda_None [] (Tag "") "").

Definition with_grad (g : float) (v : Value) : Value :=
  mkValue (data v) g (_backward v) (_prev v) (_op v) (label v).

Definition with_backward (c : closure) (v : Value) : Value :=
  mkValue (data v) (grad v) c (_prev v) (_op v) (label v).

(** The object store: [h !! r] is the object with identity [r]. *)
Abbreviation heap := (list Value).

Inductive exn :=
| AssertionError (msg : string).

(** A computation on the store returns normally or raises; both carry the
    store as the computation left it. *)
Inductive result (A : Type) :=
| Ok (a : A) (h : heap)
| Raise (e : exn) (h : heap).
Arguments Ok {A} a h.
Arguments Raise {A} e h.

Definition M (A : Type) : Type := heap → result A.

Global Instance M_ret : MRet M := λ A a h, Ok a h.

Global Instance M_bind : MBind M := λ A B k m h,
  match m h with
  | Ok a h' => k a h'
  | Raise e h' => Raise e h'
  end.

Definition get_data (r : ref) : M float := λ h, Ok (data (h !!! r)) h.

(** [assert isinstance(other, (float, int)), msg]: past the assertion
    [other] is a number. *)
Definition assert_float_or_int (other : pyobj) (msg : string) : M number :=
  λ h, match other with
       | PyNum n => Ok n h
       | PyNone | PyStr _ | PyValue _ => Raise (AssertionError msg) h
       end.

(** [out._backward = _backward] *)
Definition set_backward (out : ref) (c : closure) : M () := λ h,
  Ok () (alter (with_backward c) out h).

(** [r.grad += x] *)
Definition grad_iadd (r : ref) (x : float) (h : heap) : heap :=
  alter (λ v, with_grad (grad v + x)%float v) r h.

(** [for x in l: st = body(x, st)], given up at the first [None]. *)
Fixpoint for_each {S A : Type} (body : A → S → option S) (l : list A) (st : S)
  : option S :=
  match l with
  | [] => Some st
  | x :: l' =>
      match body x st with
      | Some st' => for_each body l' st'
      | None => None
      end
  end.

(** What the engine takes from the Python runtime. *)
Class PyRuntime := {
  (** iteration order of [set(_children)], as a list without duplicates *)
  set_order : list ref → list ref;
  (** [math.exp] *)
  math_exp : float → float;
  (** [x ** y] on floats *)
  float_pow : float → float → float
}.

Section Engine.
Context `{PyRuntime}.

(** [Value(data, _children, _op)]: [__init__] allocates the object. *)
Definition Value_init (d : float) (_children : list ref) (op : op_tag) : M ref :=
  λ h, Ok (length h)
          (h ++ [mkValue d 0 lambda_None (set_order _children) op ""]).

(** [other if isinstance(other, Value) else Value(other)] *)
Definition as_Value (other : operand) : M ref :=
  match other with
  | OValue r => mret r
  | ONum c => Value_init c [] (Tag "")
  end.

Definition tanh (self : ref) : M ref :=
  x ← get_data self;
  let t := ((math_exp (2 * x) - 1) / (math_exp (2 * x) + 1))%float in
  out ← Value_init t [self] (Tag "tanh");
  _ ← set_backward out (tanh_backward self out t);
  mret out.

Definition relu (self : ref) : M ref :=
  x ← get_data self;
  out ← Value_init (if (x <? 0)%float then 0%float else x) [self] (Tag "ReLU");
  _ ← set_backward out (relu_backward self out);
  mret out.

Definition sigmoid (self : ref) : M ref :=
  d ← get_data self;
  let x := (-1 * d)%float in
  let s := (1 / (1 + math_exp x))%float in
  out ← Value_init s [self] (Tag "sigmoid");
  _ ← set_backward out (sigmoid_backward self out s);
  mret out.

Definition exp (self : ref) : M ref :=
  x ← get_data self;
  out ← Value_init (math_exp x) [self] (Tag "exp");
  _ ← set_backward out (exp_backward self out);
  mret out.

Definition __add__ (self : ref) (other : operand) : M ref :=
  other ← as_Value other;
  a ← get_data self;
  b ← get_data other;
  out ← Value_init (a + b)%float [self; other] (Tag "+");
  _ ← set_backward out (add_backward self other out);
  mret out.

Definition __pow__ (self : ref) (other : pyobj) : M ref :=
  other ← assert_float_or_int other
            "only supporting int/float powers for now";
  a ← get_data self;
  out ← Value_init (float_pow a (float_of_number other)) [self] (TagPow other);
  _ ← set_backward out (pow_backward self other out);
  mret out.

Definition __mul__ (self : ref) (other : operand) : M ref :=
  other ← as_Value other;
  a ← get_data self;
  b ← get_data other;
  out ← Value_init (a * b)%float [self; other] (Tag "*");
  _ ← set_backward out (mul_backward self other out);
  mret out.

(** [other * self], reached when the left operand is a raw number. *)
Definition __rmul__ (self : ref) (other : float) : M ref :=
  __mul__ self (ONum other).

(** [other + self] *)
Definition __radd__ (self : ref) (other : float) : M ref :=
  __add__ self (ONum other).

(** [self * other**-1]; [other**-1] is [Value.__pow__] on a [Value] and the
    float power on a raw number. *)
Definition __truediv__ (self : ref) (other : operand) : M ref :=
  match other with
  | OValue r => inv ← __pow__ r (PyNum (NInt (-1))); __mul__ self (OValue inv)
  | ONum c => __mul__ self (ONum (float_pow c (-1)))
  end.

(** [other * self**-1]: the raw [other] defers to [__rmul__]. *)
Definition __rtruediv__ (self : ref) (other : float) : M ref :=
  inv ← __pow__ self (PyNum (NInt (-1)));
  __rmul__ inv other.

(** [self * -1] *)
Definition __neg__ (self : ref) : M ref :=
  __mul__ self (ONum (-1)).

(** [self + (-other)]; unary minus is [__neg__] on a [Value]. *)
Definition __sub__ (self : ref) (other : operand) : M ref :=
  match other with
  | OValue r => n ← __neg__ r; __add__ self (OValue n)
  | ONum c => __add__ self (ONum (- c))
  end.

(** [other - self] for a raw [other]: the body is [self + (-other)]. *)
Definition __rsub__ (self : ref) (other : float) : M ref :=
  __add__ self (ONum (- other)).

(** Calling a stored [_backward]. *)
Definition call (c : closure) (h : heap) : heap :=
  match c with
  | lambda_None => h
  | tanh_backward self out t =>
      grad_iadd self ((1 - float_pow t 2) * grad (h !!! out)) h
  | relu_backward self out =>
      grad_iadd self
        (bool_mul (0 <? data (h !!! out))%float (grad (h !!! out))) h
  | sigmoid_backward self out s =>
      grad_iadd self ((s * (1 - s)) * grad (h !!! out)) h
  | exp_backward self out =>
      grad_iadd self (data (h !!! out) * grad (h !!! out)) h
  | add_backward self other out =>
      let h := grad_iadd self (1 * grad (h !!! out)) h in
      grad_iadd other (1 * grad (h !!! out)) h
  | pow_backward self other out =>
      grad_iadd self
        (float_of_number other
         * float_pow (data (h !!! self)) (float_of_number (number_pred other))
         * grad (h !!! out)) h
  | mul_backward self other out =>
      let h := grad_iadd self (data (h !!! other) * grad (h !!! out)) h in
      grad_iadd other (data (h !!! self) * grad (h !!! out)) h
  end.

(** [node._backward()] *)
Definition call_backward (h : heap) (node : ref) : heap :=
  call (_backward (h !!! node)) h.

(** The nested [buildTopo(v)], with [visited] and [topo] threaded as state.
    [fuel] bounds the depth of the recursion, as the interpreter's recursion
    limit does; [None] is running out of it. *)
Fixpoint buildTopo (fuel : nat) (h : heap) (v : ref)
    (st : gset ref * list ref) : option (gset ref * list ref) :=
  match fuel with
  | 0 => None
  | S fuel' =>
      if decide (v ∈ st.1) then Some st
      else
        st' ← for_each (buildTopo fuel' h) (_prev (h !!! v)) ({[v]} ∪ st.1, st.2);
        Some (st'.1, st'.2 ++ [v])
  end.

(** The order in which [backward] calls the closures: [reversed(topo)]. *)
Definition backward_order (fuel : nat) (h : heap) (self : ref)
  : option (list ref) :=
  st ← buildTopo fuel h self (∅, []);
  Some (reverse st.2).

Definition backward (fuel : nat) (self : ref) (h : heap) : option heap :=
  let h := alter (with_grad 1) self h in
  order ← backward_order fuel h self;
  Some (foldl call_backward h order).

End Engine.

(* ===================================================================== *)
(** ** Vocabulary of the specification *)
(* ===================================================================== *)

(** [u] consumes [c]: [c] is an operand of [u]. *)
Definition consumes (h : heap) (u c : ref) : Prop := c ∈ _prev (h !!! u).

(** Reachable from a node via operands. *)
Definition reach (h : heap) : relation ref := rtc (consumes h).

(** The nodes whose [grad] a closure adds to. *)
Definition targets (c : closure) : list ref :=
  match c with
  | lambda_None => []
  | tanh_backward self _ _ | relu_backward self _ | sigmoid_backward self _ _
  | exp_backward self _ | pow_backward self _ _ => [self]
  | add_backward self other _ | mul_backward self other _ => [self; other]
  end.

(** The node a closure reads the output gradient from. *)
Definition closure_out (c : closure) : option ref :=
  match c with
  | lambda_None => None
  | tanh_backward _ out _ | relu_backward _ out | sigmoid_backward _ out _
  | exp_backward _ out | pow_backward _ _ out
  | add_backward _ _ out | mul_backward _ _ out => Some out
  end.

(** A node as the constructors leave it: operands were allocated before the
    node, its closure closes over the node itself and its operands, and the
    set of operands has no more elements than the closure has operands. *)
Definition node_okb (i : ref) (v : Value) : bool :=
  forallb (λ c, bool_decide (c < i)) (_prev v)
  && forallb (λ c, bool_decide (c ∈ _prev v)) (targets (_backward v))
  && bool_decide (closure_out (_backward v) ∈ [None; Some i])
  && bool_decide (length (_prev v) ≤ length (targets (_backward v))).

Definition heap_okb (h : heap) : bool :=
  forallb (λ iv, node_okb iv.1 iv.2) (imap pair h).

(** The graph invariant (it makes the operand relation acyclic). *)
Definition heap_ok (h : heap) : Prop :=
  ∀ i v, h !! i = Some v → node_okb i v = true.

(** The cost of the traversal: the number of calls of [buildTopo] that the
    call [buildTopo(v)] makes, itself included. *)
Fixpoint loop_calls {S A : Type} (body : A → S → option S)
    (calls : A → S → nat) (l : list A) (st : S) : nat :=
  match l with
  | [] => 0
  | x :: l' =>
      calls x st
      + match body x st with
        | Some st' => loop_calls body calls l' st'
        | None => 0
        end
  end.

Fixpoint buildTopo_calls (fuel : nat) (h : heap) (v : ref)
    (st : gset ref * list ref) : nat :=
  match fuel with
  | 0 => 0
  | S fuel' =>
      if decide (v ∈ st.1) then 1
      else S (loop_calls (buildTopo fuel' h) (buildTopo_calls fuel' h)
                (_prev (h !!! v)) ({[v]} ∪ st.1, st.2))
  end.

(** The operands of the nodes of [l], counted per node. *)
Definition operand_count (h : heap) (l : list ref) : nat :=
  sum_list_with (λ w, length (_prev (h !!! w))) l.

(** [h'] differs from [h] in gradients only. *)
Definition grads_only (h h' : heap) : Prop :=
  length h' = length h ∧ ∀ r, with_grad 0 (h' !!! r) = with_grad 0 (h !!! r).

(** A sequence of [r.grad += x] statements. *)
Definition apply_increments (incs : list (ref * float)) (h : heap) : heap :=
  foldl (λ h i, grad_iadd i.1 i.2 h) h incs.

(** In [l], every node comes after all of its operands. *)
Definition operands_first (h : heap) (l : list ref) : Prop :=
  ∀ l1 w l2, l = l1 ++ w :: l2 → ∀ c, consumes h w c → c ∈ l1.

(** The state of [buildTopo] between two calls, with [b] below every node
    that is visited and not yet appended. *)
Record dfs_inv (h : heap) (b : nat) (st : gset ref * list ref) : Prop := {
  inv_nodup : NoDup (snd st);
  inv_visited : ∀ w, w ∈ snd st → w ∈ fst st;
  inv_open : ∀ w, w ∈ fst st → w ∉ snd st → b ≤ w;
  inv_sorted : operands_first h (snd st)
}.

(** What a traversal adds to the state: the nodes [new], all fresh and all
    satisfying [P]. *)
Record dfs_extends (h : heap) (P : ref → Prop)
    (st st' : gset ref * list ref) (new : list ref) : Prop := {
  ext_topo : snd st' = snd st ++ new;
  ext_visited : ∀ w, w ∈ fst st' ↔ (w ∈ fst st ∨ w ∈ new);
  ext_fresh : ∀ w, w ∈ new → (w ∉ fst st) ∧ P w;
  ext_nodup : NoDup new;
  ext_sorted : operands_first h (snd st')
}.

(** A call of a constructor of [Value]: wrapping a number, or an operation
    on existing nodes. *)
Inductive constructor_call :=
| call_Value (d : float)
| call_tanh (self : ref)
| call_relu (self : ref)
| call_sigmoid (self : ref)
| call_exp (self : ref)
| call_add (self : ref) (other : operand)
| call_pow (self : ref) (other : pyobj)
| call_mul (self : ref) (other : operand)
| call_rmul (self : ref) (other : float)
| call_radd (self : ref) (other : float)
| call_truediv (self : ref) (other : operand)
| call_rtruediv (self : ref) (other : float)
| call_neg (self : ref)
| call_sub (self : ref) (other : operand)
| call_rsub (self : ref) (other : float).

Definition run_call `{PyRuntime} (c : constructor_call) : M ref :=
  match c with
  | call_Value d => Value_init d [] (Tag "")
  | call_tanh self => tanh self
  | call_relu self => relu self
  | call_sigmoid self => sigmoid self
  | call_exp self => exp self
  | call_add self other => __add__ self other
  | call_pow self other => __pow__ self other
  | call_mul self other => __mul__ self other
  | call_rmul self other => __rmul__ self other
  | call_radd self other => __radd__ self other
  | call_truediv self other => __truediv__ self other
  | call_rtruediv self other => __rtruediv__ self other
  | call_neg self => __neg__ self
  | call_sub self other => __sub__ self other
  | call_rsub self other => __rsub__ self other
  end.

Definition operand_in (h : heap) (other : operand) : Prop :=
  match other with
  | OValue r => r < length h
  | ONum _ => True
  end.

(** The nodes a call is applied to exist. *)
Definition call_in (h : heap) (c : constructor_call) : Prop :=
  match c with
  | call_Value _ => True
  | call_tanh self | call_relu self | call_sigmoid self | call_exp self
  | call_pow self _ | call_rmul self _ | call_radd self _
  | call_rtruediv self _ | call_neg self | call_rsub self _ => self < length h
  | call_add self other | call_mul self other | call_truediv self other
  | call_sub self other => self < length h ∧ operand_in h other
  end.

(** The heaps a program reaches: it wraps numbers, applies the operations
    to nodes it has, and runs backward passes. *)
Inductive built `{PyRuntime} : heap → Prop :=
| built_empty : built []
| built_call h c r h' :
    built h → call_in h c → run_call c h = Ok r h' → built h'
| built_raise h c e h' :
    built h → call_in h c → run_call c h = Raise e h' → built h'
| built_backward h fuel root h' :
    built h → root < length h → backward fuel root h = Some h' → built h'.

(** What a call leaves behind on a well-formed heap. *)
Definition grows_ok (h : heap) (res : result ref) : Prop :=
  match res with
  | Ok r h' => heap_ok h' ∧ length h ≤ length h' ∧ r < length h'
  | Raise _ h' => heap_ok h' ∧ length h ≤ length h'
  end.

(* ===================================================================== *)
(** ** A runtime and programs to evaluate the development on *)
(* ===================================================================== *)

(** Sets iterate in insertion order; [exp] is its second-order expansion and
    [**] covers the exponents [2], [1], [0] and [-1]. *)
Definition sample_runtime : PyRuntime := {|
  set_order := remove_dups;
  math_exp := λ x, (1 + x + x * x / 2)%float;
  float_pow := λ x y,
    if (y =? 2)%float then (x * x)%float
    else if (y =? 1)%float then x
    else if (y =? 0)%float then 1%float
    else if (y =? -1)%float then (1 / x)%float
    else nan
|}.

(** [Value(d)] *)
Definition new_Value `{PyRuntime} (d : float) : M ref :=
  Value_init d [] (Tag "").

(** [x = Value(3.0); r = 5.0 - x; r.data] *)
Definition five_minus_x `{PyRuntime} : M float :=
  x ← new_Value 3;
  r ← __rsub__ x 5;
  get_data r.

(** [x = Value(3.0); y = x*x + x] *)
Definition x_squared_plus_x `{PyRuntime} : M (ref * ref) :=
  x ← new_Value 3;
  m ← __mul__ x (OValue x);
  y ← __add__ m (OValue x);
  mret (x, y).

(** [x = Value(d); y = x + 1.0] *)
Definition x_plus_one `{PyRuntime} (d : float) : M (ref * ref) :=
  x ← new_Value d;
  y ← __add__ x (ONum 1);
  mret (x, y).

(** [add(a, negate(b))], the composition the specification names. *)
Definition add_of_negate `{PyRuntime} (a b : ref) : M ref :=
  n ← __mul__ b (ONum (-1));
  __add__ a (OValue n).

(** The heap with the single node [Value(d)]. *)
Definition single_node (d : float) : heap :=
  [mkValue d 0 lambda_None [] (Tag "") ""].

(** The heap after [a = Value(5.0); b = Value(3.0)]. *)
Definition two_leaves : heap :=
  [mkValue 5 0 lambda_None [] (Tag "") "";
   mkValue 3 0 lambda_None [] (Tag "") ""].

(** The heap after [x = Value(3.0); y = x*x + x]. *)
Definition shared_operand_heap : heap :=
  [mkValue 3 0 lambda_None [] (Tag "") "";
   mkValue 9 0 (mul_backward 0 0 1) [0] (Tag "*") "";
   mkValue 12 0 (add_backward 1 0 2) [1; 0] (Tag "+") ""].

(* ===================================================================== *)
(** ** micrograd/nn.py: [Neuron], [Layer] and [MLP] *)
(* ===================================================================== *)

(** The three classes hold references to [Value] objects and never update
    their own attributes after [__init__], so an object is the record of its
    attributes.  [random.uniform] is the one thing the file takes from the
    runtime; the state of the generator is threaded through the
    constructors.  A size is an int: [range] of a negative one is empty. *)
Module nn.

(** [random.uniform(a, b)], from the state of the generator to the number
    and the next state. *)
Class PyRandom := {
  rng : Type;
  random_uniform : float → float → rng → float * rng
}.

(** The argument of a [__call__]: a list of numbers and [Value]s, or one
    [Value], which is what a layer of one neuron returns. *)
Inductive input :=
| InList (xs : list operand)
| InValue (r : ref).

(** The exceptions of a forward pass: those of the engine, and the
    [TypeError] of iterating over an object that is not iterable. *)
Inductive error :=
| EngineError (e : exn)
| TypeError.

Inductive outcome (A : Type) :=
| Return (a : A) (h : heap)
| Fail (e : error) (h : heap).
Arguments Return {A} a h.
Arguments Fail {A} e h.

Definition N (A : Type) : Type := heap → outcome A.

Global Instance N_ret : MRet N := λ A a h, Return a h.

Global Instance N_bind : MBind N := λ A B k m h,
  match m h with
  | Return a h' => k a h'
  | Fail e h' => Fail e h'
  end.

(** A call into the engine. *)
Definition engine {A} (m : M A) : N A := λ h,
  match m h with
  | Ok a h' => Return a h'
  | Raise e h' => Fail (EngineError e) h'
  end.

Record Neuron := mkNeuron { w : list ref; b : ref }.
Record Layer := mkLayer { neurons : list Neuron }.
Record MLP := mkMLP { layers : list Layer }.

(** [range(n)] *)
Definition range (n : Z) : list nat := seq 0 (Z.to_nat n).

Section Classes.
Context `{PyRuntime} `{PyRandom}.

(** The list comprehension [[f(i) for i in l]] of an [f] that allocates and
    draws random numbers. *)
Fixpoint comprehension {A B} (f : A → rng → M (B * rng)) (l : list A)
    (g : rng) : M (list B * rng) :=
  match l with
  | [] => mret ([], g)
  | i :: l' =>
      '(y, g) ← f i g;
      '(ys, g) ← comprehension f l' g;
      mret (y :: ys, g)
  end.

(** [Value(random.uniform(-1,1))] *)
Definition random_Value (g : rng) : M (ref * rng) :=
  let '(d, g) := random_uniform (-1) 1 g in
  v ← Value_init d [] (Tag "");
  mret (v, g).

Definition Neuron_init (nin : Z) (g : rng) : M (Neuron * rng) :=
  '(w, g) ← comprehension (λ _, random_Value) (range nin) g;
  '(b, g) ← random_Value g;
  mret (mkNeuron w b, g).

(** [zip(self.w, x)], evaluated when the generator expression is created. *)
Definition zip_inputs (w : list ref) (x : input) : N (list (ref * operand)) :=
  λ h, match x with
       | InList xs => Return (zip w xs) h
       | InValue _ => Fail TypeError h
       end.

(** [sum((wi*xi for wi, xi in items), start)]: the generator computes a
    product when [sum] asks for it, and [sum] adds it to its result. *)
Fixpoint sum_products (items : list (ref * operand)) (start : ref) : M ref :=
  match items with
  | [] => mret start
  | (wi, xi) :: items' =>
      p ← __mul__ wi xi;
      acc ← __add__ start (OValue p);
      sum_products items' acc
  end.

Definition Neuron_call (self : Neuron) (x : input) : N ref :=
  items ← zip_inputs (w self) x;
  act ← engine (sum_products items (b self));
  engine (tanh act).

Definition Neuron_parameters (self : Neuron) : list ref :=
  w self ++ [b self].

Definition Layer_init (nin nout : Z) (g : rng) : M (Layer * rng) :=
  '(ns, g) ← comprehension (λ _, Neuron_init nin) (range nout) g;
  mret (mkLayer ns, g).

(** [[n(x) for n in self.neurons]] *)
Fixpoint call_each (ns : list Neuron) (x : input) : N (list ref) :=
  match ns with
  | [] => mret []
  | n :: ns' =>
      out ← Neuron_call n x;
      outs ← call_each ns' x;
      mret (out :: outs)
  end.

(** [outs[0] if len(outs) == 1 else outs] *)
Definition Layer_call (self : Layer) (x : input) : N input :=
  outs ← call_each (neurons self) x;
  mret (if decide (length outs = 1) then InValue (outs !!! 0)
        else InList (OValue <$> outs)).

Definition Layer_parameters (self : Layer) : list ref :=
  concat (Neuron_parameters <$> neurons self).

(** [Layer(sz[i], sz[i+1]) for i in range(len(nouts))] *)
Definition MLP_init (nin : Z) (nouts : list Z) (g : rng) : M (MLP * rng) :=
  let sz := nin :: nouts in
  '(ls, g) ← comprehension (λ i, Layer_init (sz !!! i) (sz !!! S i))
              (seq 0 (length nouts)) g;
  mret (mkMLP ls, g).

(** [for layer in self.layers: x = layer(x)] *)
Fixpoint call_layers (ls : list Layer) (x : input) : N input :=
  match ls with
  | [] => mret x
  | layer :: ls' => x ← Layer_call layer x; call_layers ls' x
  end.

Definition MLP_call (self : MLP) (x : input) : N input :=
  call_layers (layers self) x.

Definition MLP_parameters (self : MLP) : list ref :=
  concat (Layer_parameters <$> layers self).

End Classes.
End nn.

(* ===================================================================== *)
(** ** Vocabulary of the further properties *)
(* ===================================================================== *)

(** What a constructor call does to the heap: it appends nodes with zero
    gradient and returns the last of them, or it raises and leaves the heap
    as it was. *)
Definition appends (h : heap) (res : result ref) : Prop :=
  match res with
  | Ok out h' =>
      ∃ new, h' = h ++ new ∧ 1 ≤ length new ≤ 3 ∧ S out = length h'
             ∧ ∀ v, v ∈ new → grad v = 0%float
  | Raise _ h' => h' = h
  end.

(** The call returns after allocating [S n] nodes. *)
Definition allocates (n : nat) (h : heap) (res : result ref) : Prop :=
  ∃ new, res = Ok (length h + n) (h ++ new) ∧ length new = S n
         ∧ ∀ v, v ∈ new → grad v = 0%float.

(** A path of operand edges down which the traversal must recurse: each
    node of the path is an operand of the one before, and no other operand
    of that one reaches the rest of the path. *)
Fixpoint spine (h : heap) (path : list ref) : Prop :=
  match path with
  | v :: (c :: _) as rest =>
      c ∈ _prev (h !!! v)
      ∧ (∀ c', c' ∈ _prev (h !!! v) → c' ≠ c → ∀ x, x ∈ rest → ¬ reach h c' x)
      ∧ spine h rest
  | _ => True
  end.

(** [Value(d)] as [__init__] leaves it. *)
Definition leaf `{PyRuntime} (d : float) : Value :=
  mkValue d 0 lambda_None (set_order []) (Tag "") "".

(** The first [n] numbers that [random.uniform(-1, 1)] returns from the
    state [g], and the state after them. *)
Fixpoint draws `{nn.PyRandom} (n : nat) (g : nn.rng) : list float * nn.rng :=
  match n with
  | 0 => ([], g)
  | S n' =>
      let '(d, g) := nn.random_uniform (-1) 1 g in
      let '(ds, g) := draws n' g in
      (d :: ds, g)
  end.

(** The number of parameters of [MLP(nin, nouts)]: a layer of [nout]
    neurons over [nin] inputs has [nout * (nin + 1)]; a negative size counts
    as zero. *)
Fixpoint count_parameters (nin : Z) (nouts : list Z) : nat :=
  match nouts with
  | [] => 0
  | nout :: nouts' =>
      Z.to_nat nout * S (Z.to_nat nin) + count_parameters nout nouts'
  end.

(** A constructor that draws [k] numbers and wraps each in a new leaf;
    [params] lists the nodes of the object it returns. *)
Definition constructs `{PyRuntime} `{nn.PyRandom} {B}
    (c : nn.rng → M (B * nn.rng)) (k : nat)
    (params : B → list ref) (shape : B → Prop) : Prop :=
  ∀ g h, ∃ y,
    c g h = Ok (y, (draws k g).2) (h ++ (leaf <$> (draws k g).1))
    ∧ params y = seq (length h) k ∧ shape y.

(** The number an operand stands for. *)
Definition operand_value (h : heap) (x : operand) : float :=
  match x with
  | OValue r => data (h !!! r)
  | ONum c => c
  end.

(** [start + w1*x1 + w2*x2 + ...] over the items of [sum], from the left. *)
Definition weighted_sum (h : heap) (items : list (ref * operand))
    (start : float) : float :=
  foldl (λ acc item,
           (acc + data (h !!! item.1) * operand_value h item.2)%float)
    start items.

(** The same sum on numbers, over the pairs that [zip] forms. *)
Definition dot (start : float) (ws xs : list float) : float :=
  foldl (λ acc p, (acc + p.1 * p.2)%float) start (zip ws xs).

(** The value [tanh] computes for [x]. *)
Definition tanh_value `{PyRuntime} (x : float) : float :=
  ((math_exp (2 * x) - 1) / (math_exp (2 * x) + 1))%float.

(** What a neuron, a layer and a sequence of layers compute from the
    numbers [xs], with the parameters read from [h]. *)
Definition neuron_output `{PyRuntime} (h : heap) (n : nn.Neuron)
    (xs : list float) : float :=
  tanh_value (dot (data (h !!! nn.b n)) ((λ r, data (h !!! r)) <$> nn.w n) xs).

Definition layer_output `{PyRuntime} (h : heap) (l : nn.Layer)
    (xs : list float) : list float :=
  (λ n, neuron_output h n xs) <$> nn.neurons l.

Definition mlp_output `{PyRuntime} (h : heap) (ls : list nn.Layer)
    (xs : list float) : list float :=
  foldl (λ xs l, layer_output h l xs) xs ls.

(** The numbers an argument or a result of a [__call__] holds. *)
Definition input_values (h : heap) (x : nn.input) : list float :=
  match x with
  | nn.InList xs => operand_value h <$> xs
  | nn.InValue r => [data (h !!! r)]
  end.

(** The nodes that an item, an argument, a neuron and a layer refer to
    exist in [h]. *)
Definition item_in (h : heap) (item : ref * operand) : Prop :=
  item.1 < length h ∧ operand_in h item.2.

Definition input_in (h : heap) (x : nn.input) : Prop :=
  match x with
  | nn.InList xs => Forall (operand_in h) xs
  | nn.InValue r => r < length h
  end.

Definition neuron_in (h : heap) (n : nn.Neuron) : Prop :=
  Forall (λ r, r < length h) (nn.w n) ∧ nn.b n < length h.

Definition layer_in (h : heap) (l : nn.Layer) : Prop :=
  Forall (neuron_in h) (nn.neurons l).

(** Whether an argument is a single [Value]. *)
Definition is_value (x : nn.input) : bool :=
  match x with
  | nn.InValue _ => true
  | nn.InList _ => false
  end.

(** Whether the layers [ls] accept, one after the other, an argument that is
    a single [Value] ([single = true]) or a list: a single [Value] cannot be
    iterated over, so only a layer without neurons takes it, and a layer of
    exactly one neuron returns one. *)
Fixpoint passes (single : bool) (ls : list nn.Layer) : bool :=
  match ls with
  | [] => true
  | l :: ls' =>
      (negb single || (length (nn.neurons l) =? 0))
      && passes (length (nn.neurons l) =? 1) ls'
  end.

(** The running sum of a neuron after [i] products, on a heap that had [L]
    nodes when the sum started from the node [start]. *)
Definition acc_at (L : nat) (start : ref) (i : nat) : ref :=
  match i with
  | 0 => start
  | S i' => L + 3 * i' + 2
  end.

(** The running sums, the last one first, down to the start. *)
Fixpoint sums_down (L : nat) (start : ref) (k : nat) : list ref :=
  match k with
  | 0 => [start]
  | S k' => acc_at L start k :: sums_down L start k'
  end.

(** The nodes that [sum] allocates over numbers, on a heap of [L] nodes: for
    each pair, the wrapped number, the product and the new running sum,
    whose value is [s] so far.  [wd] gives the values of the weights. *)
Fixpoint sum_nodes `{PyRuntime} (wd : ref → float) (L : nat) (start : ref)
    (s : float) (items : list (ref * float)) : list Value :=
  match items with
  | [] => []
  | (wi, c) :: items' =>
      [mkValue c 0 lambda_None (set_order []) (Tag "") "";
       mkValue (wd wi * c) 0 (mul_backward wi L (S L))
         (set_order [wi; L]) (Tag "*") "";
       mkValue (s + wd wi * c) 0 (add_backward start (S L) (S (S L)))
         (set_order [start; S L]) (Tag "+") ""]
      ++ sum_nodes wd (3 + L) (S (S L)) (s + wd wi * c) items'
  end.

(** Pairs of a weight and a number, as the items of [sum]. *)
Definition numeric (items : list (ref * float)) : list (ref * operand) :=
  (λ item, (item.1, ONum item.2)) <$> items.

(** The heap after [n(cs)] for a list of numbers [cs], node by node: the
    nodes of the sum, then the [tanh] node, which is the result. *)
Definition neuron_sum `{PyRuntime} (h : heap) (n : nn.Neuron) (cs : list float)
  : list Value :=
  sum_nodes (λ r, data (h !!! r)) (length h) (nn.b n) (data (h !!! nn.b n))
    (zip (nn.w n) cs).

Definition neuron_act (h : heap) (n : nn.Neuron) (cs : list float) : ref :=
  acc_at (length h) (nn.b n) (length (zip (nn.w n) cs)).

Definition neuron_out (h : heap) (n : nn.Neuron) (cs : list float) : ref :=
  length h + 3 * length (zip (nn.w n) cs).

Definition neuron_tanh `{PyRuntime} (h : heap) (n : nn.Neuron) (cs : list float)
  : Value :=
  let t := tanh_value (data ((h ++ neuron_sum h n cs) !!! neuron_act h n cs)) in
  mkValue t 0 (tanh_backward (neuron_act h n cs) (neuron_out h n cs) t)
    (set_order [neuron_act h n cs]) (Tag "tanh") "".

Definition neuron_heap `{PyRuntime} (h : heap) (n : nn.Neuron) (cs : list float)
  : heap :=
  h ++ (neuron_sum h n cs ++ [neuron_tanh h n cs]).

(** The calls into the runtime that can raise, and arguments for which
    they return.  [math.exp(x)] raises [OverflowError] when [e**x] is
    beyond the largest float, which it is for no [x] up to [709.0]. *)
Definition exp_in_range (x : float) : Prop := (x <=? 709)%float = true.

(** [x ** -1] and [x ** -2] raise [ZeroDivisionError] at [x = 0] and
    [OverflowError] when the power is beyond the largest float; for an [x]
    of magnitude between [2**-511] and [2**511] they return. *)
Definition reciprocal_in_range (x : float) : Prop :=
  (0x1p-511 <=? abs x)%float = true ∧ (abs x <=? 0x1p511)%float = true.

(** [x ** n] and the [x ** (n - 1)] of its closure return a float for a base
    of magnitude between [2**-10] and [2**10] and an exponent of magnitude
    at most [100]; the power of a negative base is a float only for an
    exponent that is a whole number, so a float exponent takes a positive
    base. *)
Definition pow_in_range (x : float) (n : number) : Prop :=
  (0x1p-10 <=? abs x)%float = true ∧ (abs x <=? 0x1p10)%float = true
  ∧ match n with
    | NFloat f => (0 <? x)%float = true ∧ (abs f <=? 100)%float = true
    | NInt z => (-100 ≤ z ≤ 100)%Z
    | NBool _ => True
    end.

(** The number [act] that a neuron passes to [tanh], and the neurons for
    which [tanh] returns: it calls [math.exp(2*act)]. *)
Definition neuron_act_value (h : heap) (n : nn.Neuron) (xs : list float)
  : float :=
  dot (data (h !!! nn.b n)) ((λ r, data (h !!! r)) <$> nn.w n) xs.

Definition neuron_in_range (h : heap) (n : nn.Neuron) (xs : list float)
  : Prop :=
  exp_in_range (2 * neuron_act_value h n xs).

Definition layer_in_range (h : heap) (l : nn.Layer) (xs : list float) : Prop :=
  Forall (λ n, neuron_in_range h n xs) (nn.neurons l).

(** Every [tanh] that the forward pass over the layers [ls] reaches is in
    range.  [single] says that the argument is a single [Value]: a layer
    with neurons raises [TypeError] on it before it computes anything. *)
Fixpoint mlp_in_range `{PyRuntime} (h : heap) (single : bool)
    (ls : list nn.Layer) (xs : list float) : Prop :=
  match ls with
  | [] => True
  | l :: ls' =>
      if single && negb (length (nn.neurons l) =? 0) then True
      else layer_in_range h l xs
           ∧ mlp_in_range h (length (nn.neurons l) =? 1) ls'
               (layer_output h l xs)
  end.

(* ===================================================================== *)
(** ** Objects to evaluate the further properties on *)
(* ===================================================================== *)

(** A generator that returns [0.5] and [-0.25] in turn. *)
Definition sample_random : nn.PyRandom := {|
  nn.rng := nat;
  nn.random_uniform := λ _ _ k,
    (if Nat.even k then 0.5%float else (-0.25)%float, S k)
|}.

(** The heap after [Neuron(2)] with that generator: two weights and the
    bias. *)
Definition neuron_leaves : heap :=
  [mkValue 0.5 0 lambda_None [] (Tag "") "";
   mkValue (-0.25) 0 lambda_None [] (Tag "") "";
   mkValue 0.5 0 lambda_None [] (Tag "") ""].

Definition sample_neuron : nn.Neuron := nn.mkNeuron [0; 1] 2.

(** A network of one layer of one neuron, and one with a second layer of
    one neuron over the same parameters. *)
Definition sample_mlp : nn.MLP := nn.mkMLP [nn.mkLayer [sample_neuron]].

Definition narrow_mlp : nn.MLP :=
  nn.mkMLP [nn.mkLayer [sample_neuron]; nn.mkLayer [sample_neuron]].

(** The heap after [x = Value(1.0); y = x.relu().relu()]. *)
Definition relu_chain : heap :=
  [mkValue 1 0 lambda_None [] (Tag "") "";
   mkValue 1 0 (relu_backward 0 1) [0] (Tag "ReLU") "";
   mkValue 1 0 (relu_backward 1 2) [1] (Tag "ReLU") ""].

(* ===================================================================== *)
(** ** IEEE binary64 facts the claims rest on *)
(* ===================================================================== *)

(** Rounding the product with [2^52 * 2^-52] gives the factor back. *)
Lemma round_exact (s : bool) (m : positive) (e : Z) :
  bounded prec emax m e = true →
  binary_round_aux prec emax s (Zpos (4503599627370496 * m)) (e + -52) loc_Exact
  = S754_finite s m e.
Proof.
  intros Hb. unfold bounded, canonical_mantissa in Hb.
  apply andb_prop in Hb as [Hc He]. apply Z.eqb_eq in Hc.
  unfold binary_round_aux.
  assert (Hs : shr_fexp prec emax (Z.pos (4503599627370496 * m)) (e + -52) loc_Exact
               = ({| shr_m := Zpos m; shr_r := false; shr_s := false |}, e)).
  { unfold shr_fexp. 
    assert (Hd : Zdigits2 (Z.pos (4503599627370496 * m)) = (Zpos (digits2_pos m) + 52)%Z).
    { change (4503599627370496 * m)%positive with
        (Pos.iter xO m 52%positive). simpl. lia. }
    rewrite Hd.
    replace (Z.pos (digits2_pos m) + 52 + (e + -52))%Z with (Z.pos (digits2_pos m) + e)%Z by lia.
    rewrite Hc. replace (e - (e + -52))%Z with 52%Z by lia.
    unfold shr. f_equal. lia. }
  rewrite Hs. cbn [shr_m loc_of_shr_record round_nearest_even].
  unfold shr_fexp. cbn [Zdigits2]. rewrite Hc, Z.sub_diag. cbn [shr shr_record_of_loc shr_m].
  rewrite He. reflexivity.
Qed.

Lemma float_mul_1_l (x : float) : (1 * x)%float = x.
Proof.
  apply Prim2SF_inj. rewrite mul_spec.
  pose proof (Prim2SF_valid x) as Hv.
  change (Prim2SF 1) with (S754_finite false 4503599627370496 (-52)).
  destruct (Prim2SF x) as [s|s| |s m e]; try reflexivity.
  unfold SF64mul, SFmul. cbn [xorb].
  rewrite (Z.add_comm (-52) e). apply round_exact, Hv.
Qed.

Lemma float_mul_1_r (x : float) : (x * 1)%float = x.
Proof.
  apply Prim2SF_inj. rewrite mul_spec.
  pose proof (Prim2SF_valid x) as Hv.
  change (Prim2SF 1) with (S754_finite false 4503599627370496 (-52)).
  destruct (Prim2SF x) as [s|s| |s m e]; try (destruct s; reflexivity); try reflexivity.
  unfold SF64mul, SFmul. rewrite xorb_false_r, Pos.mul_comm.
  apply round_exact, Hv.
Qed.

Lemma float_mul_m1_r (x : float) : (x * -1)%float = (- x)%float.
Proof.
  apply Prim2SF_inj. rewrite mul_spec, opp_spec.
  pose proof (Prim2SF_valid x) as Hv.
  change (Prim2SF (-1)) with (S754_finite true 4503599627370496 (-52)).
  destruct (Prim2SF x) as [s|s| |s m e]; try (destruct s; reflexivity); try reflexivity.
  unfold SF64mul, SFmul, SFopp. rewrite xorb_true_r, Pos.mul_comm.
  apply round_exact, Hv.
Qed.

Lemma float_add_opp (a b : float) : (a + - b)%float = (a - b)%float.
Proof.
  apply Prim2SF_inj. rewrite add_spec, sub_spec, opp_spec.
  destruct (Prim2SF a) as [sa|sa| |sa ma ea], (Prim2SF b) as [sb|sb| |sb mb eb];
    try reflexivity; by destruct sa, sb.
Qed.

(** [a + b * -1] is the IEEE difference [a - b]. *)
Lemma float_add_mul_m1 (a b : float) : (a + b * -1)%float = (a - b)%float.
Proof. by rewrite float_mul_m1_r, float_add_opp. Qed.

Lemma SFcompare_refl (x : spec_float) :
  x ≠ S754_nan → SFcompare x x = Some Eq.
Proof.
  destruct x as [s|s| |s m e]; intros H; try done; try (by destruct s).
  simpl. rewrite Z.compare_refl.
  rewrite Pos.compare_cont_refl. by destruct s.
Qed.

Lemma is_nan_spec (x : float) : is_nan x = true ↔ Prim2SF x = S754_nan.
Proof.
  unfold is_nan. rewrite FloatAxioms.eqb_spec. unfold SFeqb. split.
  - intros H. destruct (Prim2SF x) eqn:E; [| |done|];
      rewrite SFcompare_refl in H; done.
  - intros ->. reflexivity.
Qed.

Lemma is_nan_false (x : float) : is_nan x = false ↔ Prim2SF x ≠ S754_nan.
Proof.
  split.
  - intros H H'. apply is_nan_spec in H'. congruence.
  - intros H. destruct (is_nan x) eqn:E; [|done]. by apply is_nan_spec in E.
Qed.

(** [x + 0 == x] unless [x] is NaN; the sum differs from [x] only at [-0.0]. *)
Lemma float_add_0_r (x : float) : same_number (x + 0) x.
Proof.
  unfold same_number, py_eq.
  destruct (is_nan x) eqn:Hn.
  - right. split; [|done]. apply is_nan_spec in Hn. apply is_nan_spec.
    rewrite add_spec, Hn. reflexivity.
  - left. apply is_nan_false in Hn. rewrite FloatAxioms.eqb_spec, add_spec.
    change (Prim2SF 0) with (S754_zero false).
    destruct (Prim2SF x) as [s|s| |s m e] eqn:E; try done.
    + by destruct s.
    + by destruct s.
    + unfold SF64add, SFadd, SFeqb. rewrite SFcompare_refl; done.
Qed.

(** The sum is the very same float, unless [x] is [-0.0]. *)
Lemma float_add_0_r_exact (x : float) :
  x ≠ (-0)%float → (x + 0)%float = x.
Proof.
  intros Hx. apply Prim2SF_inj. rewrite add_spec.
  change (Prim2SF 0) with (S754_zero false).
  destruct (Prim2SF x) as [[]|[]| |s m e] eqn:E; try reflexivity.
  destruct Hx. apply Prim2SF_inj. by rewrite E.
Qed.

Lemma py_eq_zero (d : float) : py_eq d 0 → d = 0%float ∨ d = (-0)%float.
Proof.
  unfold py_eq. rewrite FloatAxioms.eqb_spec. change (Prim2SF 0) with (S754_zero false).
  intros H. destruct (Prim2SF d) as [s|s| |s m e] eqn:E.
  - destruct s; [right|left]; apply Prim2SF_inj; rewrite E; reflexivity.
  - by destruct s.
  - done.
  - by destruct s.
Qed.

(** Trichotomy against zero for a number that is not NaN. *)
Lemma float_sign_cases (x : float) :
  is_nan x = false →
  ((x <? 0)%float = true ∧ (0 <? x)%float = false ∧ (x =? 0)%float = false) ∨
  ((x <? 0)%float = false ∧ (0 <? x)%float = false ∧ (x =? 0)%float = true) ∨
  ((x <? 0)%float = false ∧ (0 <? x)%float = true ∧ (x =? 0)%float = false).
Proof.
  intros Hn. apply is_nan_false in Hn.
  rewrite !ltb_spec, FloatAxioms.eqb_spec. change (Prim2SF 0) with (S754_zero false).
  destruct (Prim2SF x) as [s|s| |s m e]; try done.
  - right; left. done.
  - destruct s; [left|right; right]; done.
  - destruct s; [left|right; right]; done.
Qed.

Lemma float_nan_cmp (x : float) :
  is_nan x = true → (x <? 0)%float = false ∧ (0 <? x)%float = false.
Proof.
  intros Hn. apply is_nan_spec in Hn. rewrite !ltb_spec, Hn. done.
Qed.

(** [False * g] in the closure of [relu]: zero for a finite [g], NaN for an
    infinite one and for NaN. *)
Lemma float_mul_0_l (g : float) :
  (is_finite g = true → py_eq (0 * g) 0)
  ∧ (is_finite g = false → is_nan (0 * g) = true).
Proof.
  unfold is_finite, is_infinity, py_eq.
  destruct (is_nan g) eqn:Hn; simpl.
  - split; [done|]. intros _. apply is_nan_spec. apply is_nan_spec in Hn.
    by rewrite mul_spec, Hn.
  - apply is_nan_false in Hn.
    rewrite is_nan_spec, !FloatAxioms.eqb_spec, abs_spec, mul_spec.
    change (Prim2SF 0) with (S754_zero false).
    change (Prim2SF infinity) with (S754_infinity false).
    destruct (Prim2SF g) as [s|s| |s m e]; try done; by destruct s.
Qed.

(* ===================================================================== *)
(** ** The operand graph and the traversal of [backward] *)
(* ===================================================================== *)

Section Graph.
Context (h : heap) (Hok : heap_ok h).

Lemma node_ok_operands i v c :
  node_okb i v = true → c ∈ _prev v → c < i.
Proof.
  unfold node_okb. rewrite !andb_true_iff, !forallb_forall.
  intros [[[Hp _] _] _] Hc. apply list_elem_of_In, Hp in Hc.
  by apply bool_decide_eq_true in Hc.
Qed.

Lemma consumes_lt u c : consumes h u c → c < u.
Proof.
  unfold consumes. intros Hc. destruct (h !! u) as [v|] eqn:E.
  - rewrite (list_lookup_total_correct _ _ _ E) in Hc.
    eapply node_ok_operands; eauto.
  - rewrite list_lookup_total_alt, E in Hc. simpl in Hc.
    by apply elem_of_nil in Hc.
Qed.

Lemma reach_le u w : reach h u w → w ≤ u.
Proof.
  induction 1 as [|u c w Hc _ IH]; [done|]. apply consumes_lt in Hc. lia.
Qed.

Lemma reach_inv u w :
  reach h u w → w = u ∨ ∃ c, consumes h u c ∧ reach h c w.
Proof. destruct 1; eauto. Qed.

Lemma operands_first_snoc l v :
  operands_first h l → (∀ c, consumes h v c → c ∈ l) →
  operands_first h (l ++ [v]).
Proof.
  intros Hl Hv l1 w l2 E c Hc.
  destruct l2 as [|x l2 _] using rev_ind.
  - apply app_inj_tail in E as [-> ->]. by apply Hv.
  - rewrite app_comm_cons, app_assoc in E.
    apply app_inj_tail in E as [-> _]. by eapply Hl.
Qed.

Lemma operands_first_closed l w c :
  operands_first h l → w ∈ l → consumes h w c → c ∈ l.
Proof.
  intros Hl Hw Hc. apply list_elem_of_split in Hw as (l1 & l2 & ->).
  apply elem_of_app. left. by eapply Hl.
Qed.

Lemma dfs_inv_weaken b b' st : b' ≤ b → dfs_inv h b st → dfs_inv h b' st.
Proof.
  intros Hb [? ? Ho ?]. split; try done. intros w H1 H2.
  specialize (Ho w H1 H2). lia.
Qed.

Lemma dfs_inv_extends b P st st' new :
  dfs_inv h b st → dfs_extends h P st st' new → dfs_inv h b st'.
Proof.
  intros [Hn Hv Ho Hs] [Et Ev Ef En Es]. split.
  - rewrite Et. apply NoDup_app. split_and!; [done| |done].
    intros w Hw Hw'. apply Hv in Hw. by apply Ef in Hw' as [? _].
  - intros w. rewrite Et, elem_of_app, Ev. intros [?|?]; auto.
  - intros w. rewrite Et, elem_of_app, Ev. intros [?|?] ?; [|tauto].
    apply Ho; tauto.
  - done.
Qed.

Lemma dfs_extends_refl P st :
  operands_first h (snd st) → dfs_extends h P st st [].
Proof.
  intros Hs. split; try done.
  - by rewrite app_nil_r.
  - intros w. rewrite elem_of_nil. tauto.
  - intros w Hw. by apply elem_of_nil in Hw.
  - apply NoDup_nil_2.
Qed.

Lemma dfs_extends_trans (P Q R : ref → Prop) st st' st'' new new' :
  (∀ w, P w → R w) → (∀ w, Q w → R w) →
  dfs_extends h P st st' new → dfs_extends h Q st' st'' new' →
  dfs_extends h R st st'' (new ++ new').
Proof.
  intros HP HQ [Et Ev Ef En Es] [Et' Ev' Ef' En' Es']. split.
  - by rewrite Et', Et, app_assoc.
  - intros w. rewrite Ev', Ev, elem_of_app. tauto.
  - intros w [Hw|Hw]%elem_of_app.
    + apply Ef in Hw as [? ?]. auto.
    + apply Ef' in Hw as [Hw ?]. rewrite Ev in Hw. split; [tauto|auto].
  - apply NoDup_app. split_and!; [done| |done].
    intros w Hw Hw'. apply Ef' in Hw' as [Hw' _]. apply Hw', Ev. tauto.
  - done.
Qed.

(** The loop [for child in v._prev: buildTopo(child)], given that the
    recursive calls behave. *)
Lemma for_each_buildTopo fuel b cs :
  (∀ v st, v < fuel → dfs_inv h (S v) st →
     ∃ st' new, buildTopo fuel h v st = Some st'
       ∧ dfs_extends h (reach h v) st st' new ∧ v ∈ snd st'
       ∧ (v ∉ fst st → ∃ pre, new = pre ++ [v])) →
  ∀ st, (∀ c, c ∈ cs → c < b ∧ c < fuel) → dfs_inv h b st →
  ∃ st' new, for_each (buildTopo fuel h) cs st = Some st'
    ∧ dfs_extends h (λ w, ∃ c, c ∈ cs ∧ reach h c w) st st' new
    ∧ ∀ c, c ∈ cs → c ∈ snd st'.
Proof.
  intros IH. induction cs as [|c cs IHcs]; intros st Hcs Hinv.
  - exists st, []. split_and!; [done| |by intros ? ?%elem_of_nil].
    apply dfs_extends_refl, Hinv.
  - destruct (Hcs c) as [Hcb Hcf]; [left|].
    destruct (IH c st Hcf) as (st1 & new1 & E1 & X1 & Hc1 & _).
    { eapply dfs_inv_weaken; [|done]. lia. }
    destruct (IHcs st1) as (st2 & new2 & E2 & X2 & Hc2).
    { intros c' Hc'. apply Hcs. by right. }
    { by eapply dfs_inv_extends. }
    exists st2, (new1 ++ new2). simpl. rewrite E1. split_and!; [done| |].
    + eapply dfs_extends_trans; [| |done..].
      * intros w Hw. exists c. split; [left|done].
      * intros w (c' & Hc' & Hw). exists c'. split; [by right|done].
    + intros c' [->|Hc']%elem_of_cons; [|by apply Hc2].
      rewrite (ext_topo _ _ _ _ _ X2), elem_of_app. by left.
Qed.

(** One call [buildTopo(v)]: it returns when the fuel exceeds [v], appends
    exactly the nodes reachable from [v] that were not visited, each once
    and after its operands, and leaves [v] appended. *)
Lemma buildTopo_spec fuel :
  ∀ v st, v < fuel → dfs_inv h (S v) st →
  ∃ st' new, buildTopo fuel h v st = Some st'
    ∧ dfs_extends h (reach h v) st st' new ∧ v ∈ snd st'
    ∧ (v ∉ fst st → ∃ pre, new = pre ++ [v]).
Proof.
  induction fuel as [|fuel IH]; intros v [vis topo] Hv Hinv; [lia|].
  simpl. destruct (decide (v ∈ vis)) as [Hin|Hnin].
  - exists (vis, topo), []. split_and!; [done| | |done].
    + apply dfs_extends_refl, Hinv.
    + destruct (decide (v ∈ topo)) as [|Hn]; [done|].
      pose proof (inv_open _ _ _ Hinv v Hin Hn). lia.
  - destruct (for_each_buildTopo fuel v (_prev (h !!! v)) IH
                ({[v]} ∪ vis, topo)) as (st1 & new1 & E1 & X1 & Hc1).
    { intros c Hc. apply consumes_lt in Hc. lia. }
    { destruct Hinv as [Hn Hvis Ho Hs]. split; simpl in *; try done.
      - intros w Hw. apply elem_of_union. right. auto.
      - intros w [->%elem_of_singleton|Hw]%elem_of_union Hw'; [lia|].
        specialize (Ho w Hw Hw'). lia. }
    rewrite E1. simpl. destruct X1 as [Et Ev Ef En Es]. simpl in *.
    assert (Hvt : v ∉ topo).
    { intros Hvt. by apply (inv_visited _ _ _ Hinv) in Hvt. }
    assert (Hvn : v ∉ new1).
    { intros Hvn. apply Ef in Hvn as [Hvn _]. apply Hvn.
      apply elem_of_union. left. by apply elem_of_singleton. }
    exists (st1.1, st1.2 ++ [v]), (new1 ++ [v]). split_and!; [done| | |by eauto].
    + split; simpl.
      * by rewrite Et, app_assoc.
      * intros w. rewrite Ev, elem_of_app, elem_of_union, !elem_of_singleton,
          list_elem_of_singleton. tauto.
      * intros w [Hw| ->%list_elem_of_singleton]%elem_of_app.
        -- apply Ef in Hw as [Hw (c & Hc & Hr)]. split.
           ++ intros ?. apply Hw, elem_of_union. by right.
           ++ by eapply rtc_l.
        -- split; [done|apply rtc_refl].
      * apply NoDup_app. split_and!; [done| |apply NoDup_singleton].
        by intros w Hw ->%list_elem_of_singleton.
      * apply operands_first_snoc; [done|]. intros c Hc. by apply Hc1.
    + apply elem_of_app. right. by left.
Qed.

(** The whole traversal from [root], started as [backward] starts it. *)
Lemma buildTopo_root fuel root :
  root < fuel →
  ∃ vis pre, buildTopo fuel h root (∅, []) = Some (vis, pre ++ [root])
    ∧ NoDup (pre ++ [root])
    ∧ operands_first h (pre ++ [root])
    ∧ ∀ w, w ∈ pre ++ [root] ↔ reach h root w.
Proof.
  intros Hf.
  destruct (buildTopo_spec fuel root (∅, []) Hf)
    as ([vis topo] & new & E & [Et Ev Ef En Es] & Hr & Hl); simpl in *.
  { split; simpl.
    - apply NoDup_nil_2.
    - by intros w ?%elem_of_nil.
    - by intros w ?%not_elem_of_empty.
    - intros l1 w l2 E. by destruct l1. }
  subst topo. destruct Hl as [pre ->]; [apply not_elem_of_empty|].
  exists vis, pre. split_and!; try done.
  assert (Hcl : ∀ u w, reach h u w → u ∈ pre ++ [root] → w ∈ pre ++ [root]).
  { induction 1 as [|u c w Hc _ IH]; [done|]. intros Hu.
    apply IH. by eapply operands_first_closed. }
  intros w. split; [by intros [_ ?]%Ef|]. intros Hw. by eapply Hcl.
Qed.

End Graph.

(* ===================================================================== *)
(** ** Closures change gradients and nothing else *)
(* ===================================================================== *)

Lemma grads_only_refl h : grads_only h h.
Proof. by split. Qed.

Lemma grads_only_trans h1 h2 h3 :
  grads_only h1 h2 → grads_only h2 h3 → grads_only h1 h3.
Proof. intros [L1 E1] [L2 E2]. split; [congruence|]. intros r. by rewrite E2. Qed.

Lemma grads_only_alter (f : Value → Value) r h :
  (∀ v, with_grad 0 (f v) = with_grad 0 v) → grads_only h (alter f r h).
Proof.
  intros Hf. split; [apply length_alter|]. intros r'.
  rewrite list_lookup_total_alter. by case_decide as Hd; [destruct Hd as [-> _]|].
Qed.

Lemma grads_only_prev h h' r : grads_only h h' → _prev (h' !!! r) = _prev (h !!! r).
Proof. intros [_ E]. exact (f_equal _prev (E r)). Qed.

Lemma grads_only_backward h h' r :
  grads_only h h' → _backward (h' !!! r) = _backward (h !!! r).
Proof. intros [_ E]. exact (f_equal _backward (E r)). Qed.

Lemma grads_only_consumes h h' u c :
  grads_only h h' → consumes h' u c ↔ consumes h u c.
Proof. intros G. unfold consumes. by rewrite (grads_only_prev _ _ _ G). Qed.

Lemma grads_only_heap_ok h h' : grads_only h h' → heap_ok h → heap_ok h'.
Proof.
  intros [L E] Hok i v' Hi.
  assert (i < length h) as [v Hv]%lookup_lt_is_Some by
    (rewrite <- L; by eapply lookup_lt_Some).
  specialize (E i).
  rewrite (list_lookup_total_correct _ _ _ Hi),
    (list_lookup_total_correct _ _ _ Hv) in E.
  specialize (Hok i v Hv). unfold node_okb in *.
  by rewrite (f_equal _prev E : _prev v' = _prev v),
    (f_equal _backward E : _backward v' = _backward v).
Qed.

Lemma grad_iadd_grads_only r x h : grads_only h (grad_iadd r x h).
Proof. by apply grads_only_alter. Qed.

Lemma grad_iadd_ne r x h r' :
  r ≠ r' → grad_iadd r x h !!! r' = h !!! r'.
Proof. apply list_lookup_total_alter_ne. Qed.

Lemma grad_iadd_eq r x h :
  r < length h →
  grad (grad_iadd r x h !!! r) = (grad (h !!! r) + x)%float.
Proof. intros Hr. unfold grad_iadd. by rewrite list_lookup_total_alter_eq. Qed.

Section Calls.
Context `{PyRuntime}.

Lemma call_grads_only c h : grads_only h (call c h).
Proof.
  destruct c; simpl; try apply grads_only_refl; try apply grad_iadd_grads_only;
    (eapply grads_only_trans; apply grad_iadd_grads_only).
Qed.

Lemma call_frame c h x : x ∉ targets c → grad (call c h !!! x) = grad (h !!! x).
Proof.
  intros Hx.
  destruct c; simpl in *; [done|..];
    by rewrite !grad_iadd_ne by (intros ->; apply Hx; set_solver).
Qed.

Lemma foldl_call_grads_only l h : grads_only h (foldl call_backward h l).
Proof.
  revert h. induction l as [|w l IH]; intros h; [apply grads_only_refl|].
  simpl. eapply grads_only_trans; [|apply IH]. apply call_grads_only.
Qed.

(** A call only ever performs [+=] on gradients. *)
Lemma call_increments c h : ∃ incs, call c h = apply_increments incs h.
Proof.
  destruct c; simpl;
    [by exists []|by eexists [(_, _)]..|by eexists [(_, _); (_, _)]|
     by eexists [(_, _)]|by eexists [(_, _); (_, _)]].
Qed.

Lemma foldl_call_increments l h :
  ∃ incs, foldl call_backward h l = apply_increments incs h.
Proof.
  revert h. induction l as [|w l IH]; intros h; [by exists []|]. simpl.
  destruct (call_increments (_backward (h !!! w)) h) as [i1 E1].
  destruct (IH (call_backward h w)) as [i2 E2].
  exists (i1 ++ i2). unfold call_backward in *.
  rewrite E2, E1. unfold apply_increments. by rewrite foldl_app.
Qed.

(** Calls of closures that do not target [x] leave [x.grad] alone. *)
Lemma foldl_call_frame l h x :
  (∀ w, w ∈ l → x ∉ targets (_backward (h !!! w))) →
  grad (foldl call_backward h l !!! x) = grad (h !!! x).
Proof.
  revert h. induction l as [|w l IH]; intros h Hl; [done|]. simpl.
  rewrite IH.
  - apply call_frame, Hl. by left.
  - intros w' Hw'.
    rewrite (grads_only_backward h); [|apply call_grads_only].
    apply Hl. by right.
Qed.

End Calls.

(** In a well-formed heap a closure targets operands of its node only. *)
Lemma targets_consumed h w x :
  heap_ok h → x ∈ targets (_backward (h !!! w)) → consumes h w x.
Proof.
  intros Hok Hx. unfold consumes. destruct (h !! w) as [v|] eqn:E.
  - rewrite (list_lookup_total_correct _ _ _ E) in *.
    specialize (Hok _ _ E). unfold node_okb in Hok.
    rewrite !andb_true_iff, !forallb_forall in Hok.
    destruct Hok as [[[_ Ht] _] _]. apply list_elem_of_In, Ht in Hx.
    by apply bool_decide_eq_true in Hx.
  - rewrite list_lookup_total_alt, E in Hx. by apply elem_of_nil in Hx.
Qed.

(* ===================================================================== *)
(** ** The traversal does not depend on gradients or on spare fuel *)
(* ===================================================================== *)

Lemma for_each_ext {S A} (f g : A → S → option S) l st :
  (∀ x st, f x st = g x st) → for_each f l st = for_each g l st.
Proof.
  intros E. revert st. induction l as [|x l IH]; intros st; [done|].
  simpl. rewrite E. by destruct (g x st).
Qed.

Lemma buildTopo_ext h h' fuel v st :
  (∀ r, _prev (h' !!! r) = _prev (h !!! r)) →
  buildTopo fuel h' v st = buildTopo fuel h v st.
Proof.
  intros E. revert v st. induction fuel as [|fuel IH]; intros v st; [done|].
  simpl. rewrite E. by rewrite (for_each_ext _ _ _ _ (IH)).
Qed.

Lemma for_each_mono {S A} (f g : A → S → option S) l st r :
  (∀ x st r, f x st = Some r → g x st = Some r) →
  for_each f l st = Some r → for_each g l st = Some r.
Proof.
  intros E. revert st. induction l as [|x l IH]; intros st; [done|].
  simpl. destruct (f x st) as [st'|] eqn:F; [|done].
  rewrite (E _ _ _ F). apply IH.
Qed.

Lemma buildTopo_mono h fuel fuel' v st r :
  fuel ≤ fuel' → buildTopo fuel h v st = Some r →
  buildTopo fuel' h v st = Some r.
Proof.
  revert fuel' v st r. induction fuel as [|fuel IH]; intros fuel' v st r Hf;
    [done|].
  destruct fuel' as [|fuel']; [lia|]. simpl.
  case_decide; [done|].
  destruct (for_each (buildTopo fuel h) _ _) as [st'|] eqn:F; [|done].
  intros Hr. erewrite for_each_mono; [exact Hr| |exact F].
  intros x st0 r0. apply IH. lia.
Qed.

(* ===================================================================== *)
(** ** The cost of the traversal *)
(* ===================================================================== *)

Lemma loop_calls_spec h fuel cs :
  (∀ v st st', buildTopo fuel h v st = Some st' →
     ∃ new, snd st' = snd st ++ new
            ∧ buildTopo_calls fuel h v st = S (operand_count h new)) →
  ∀ st st', for_each (buildTopo fuel h) cs st = Some st' →
  ∃ new, snd st' = snd st ++ new
         ∧ loop_calls (buildTopo fuel h) (buildTopo_calls fuel h) cs st
           = length cs + operand_count h new.
Proof.
  intros IH. induction cs as [|c cs IHcs]; intros st st' E; simpl in *.
  - injection E as <-. exists []. by rewrite app_nil_r.
  - destruct (buildTopo fuel h c st) as [st1|] eqn:E1; [|done].
    destruct (IH _ _ _ E1) as (new1 & T1 & C1).
    destruct (IHcs _ _ E) as (new2 & T2 & C2).
    exists (new1 ++ new2). split; [by rewrite T2, T1, app_assoc|].
    rewrite C1, C2. unfold operand_count. rewrite sum_list_with_app. lia.
Qed.

(** A call that appends the nodes [new] makes one call of [buildTopo] per
    operand of a node of [new], and is one call itself. *)
Lemma buildTopo_calls_spec h fuel :
  ∀ v st st', buildTopo fuel h v st = Some st' →
  ∃ new, snd st' = snd st ++ new
         ∧ buildTopo_calls fuel h v st = S (operand_count h new).
Proof.
  induction fuel as [|fuel IH]; intros v st st' E; [done|]. simpl in *.
  case_decide.
  - injection E as <-. exists []. by rewrite app_nil_r.
  - destruct (for_each (buildTopo fuel h) _ _) as [st1|] eqn:E1; [|done].
    injection E as <-.
    destruct (loop_calls_spec h fuel _ IH _ _ E1) as (new1 & T1 & C1).
    simpl in *. exists (new1 ++ [v]). split; [by rewrite T1, app_assoc|].
    rewrite C1. unfold operand_count. rewrite sum_list_with_app. simpl. lia.
Qed.

Lemma operands_le_2 h w : heap_ok h → length (_prev (h !!! w)) ≤ 2.
Proof.
  intros Hok. destruct (h !! w) as [v|] eqn:E.
  - rewrite (list_lookup_total_correct _ _ _ E).
    specialize (Hok _ _ E). unfold node_okb in Hok.
    rewrite !andb_true_iff in Hok. destruct Hok as [_ Hl%bool_decide_eq_true].
    etrans; [exact Hl|]. destruct (_backward v); simpl; lia.
  - rewrite list_lookup_total_alt, E. simpl. lia.
Qed.

Lemma operand_count_le h l : heap_ok h → operand_count h l ≤ 2 * length l.
Proof.
  intros Hok. induction l as [|w l IH]; simpl; [done|].
  pose proof (operands_le_2 h w Hok). unfold operand_count in *. lia.
Qed.

(* ===================================================================== *)
(** ** [backward]: schedule and termination *)
(* ===================================================================== *)

Section Backward.
Context `{PyRuntime}.

Lemma seed_grads_only root h : grads_only h (alter (with_grad 1) root h).
Proof. by apply grads_only_alter. Qed.

(** [backward] seeds the root, then calls the closures of the nodes
    [root :: reverse pre], where [pre ++ [root]] is the post-order that
    [buildTopo] appends: the reachable nodes, each once, operands first. *)
Lemma backward_unfold h root fuel :
  heap_ok h → root < fuel →
  ∃ vis pre,
    buildTopo fuel (alter (with_grad 1) root h) root (∅, [])
      = Some (vis, pre ++ [root])
    ∧ backward fuel root h
      = Some (foldl call_backward (alter (with_grad 1) root h)
                (root :: reverse pre))
    ∧ NoDup (pre ++ [root])
    ∧ operands_first h (pre ++ [root])
    ∧ ∀ w, w ∈ pre ++ [root] ↔ reach h root w.
Proof.
  intros Hok Hf.
  destruct (buildTopo_root h Hok fuel root Hf) as (vis & pre & E & Hn & Hs & Hr).
  exists vis, pre.
  assert (E' : buildTopo fuel (alter (with_grad 1) root h) root (∅, [])
               = Some (vis, pre ++ [root])).
  { rewrite <- E. apply buildTopo_ext. intros r.
    apply grads_only_prev, seed_grads_only. }
  split_and!; try done.
  unfold backward, backward_order. rewrite E'. simpl.
  by rewrite reverse_snoc.
Qed.


Lemma backward_grads_only h root fuel h' :
  backward fuel root h = Some h' → grads_only h h'.
Proof.
  unfold backward. destruct (backward_order _ _ _) as [order|]; [|done].
  simpl. intros [= <-].
  eapply grads_only_trans; [apply seed_grads_only|apply foldl_call_grads_only].
Qed.

(** A pass leaves the gradients outside the reachable sub-graph alone. *)
Lemma backward_unreachable h root fuel h' v :
  heap_ok h → root < fuel → backward fuel root h = Some h' →
  ¬ reach h root v → grad (h' !!! v) = grad (h !!! v).
Proof.
  intros Hok Hf B Hv.
  destruct (backward_unfold h root fuel Hok Hf)
    as (vis & pre & _ & B' & _ & _ & Hreach).
  rewrite B in B'. injection B' as ->.
  trans (grad (alter (with_grad 1) root h !!! v)).
  - apply (foldl_call_frame (root :: reverse pre)). intros w Hw Ht.
    rewrite (grads_only_backward h _ _ (seed_grads_only _ _)) in Ht.
    apply (targets_consumed h w v Hok) in Ht. apply Hv.
    eapply rtc_r; [|exact Ht]. apply Hreach.
    by rewrite <- elem_of_reverse, reverse_snoc.
  - rewrite list_lookup_total_alter_ne; [done|].
    intros ->. apply Hv, rtc_refl.
Qed.

End Backward.

(* ===================================================================== *)
(** ** What the constructors allocate *)
(* ===================================================================== *)

Lemma alter_new (f : Value → Value) (h : heap) v :
  alter f (length h) (h ++ [v]) = h ++ [f v].
Proof. by rewrite <- (Nat.add_0_r (length h)), alter_app_r. Qed.

Lemma lookup_total_new (h : heap) (v : Value) : (h ++ [v]) !!! length h = v.
Proof. by rewrite lookup_total_app_r, Nat.sub_diag. Qed.

Lemma lookup_total_app_0 (h l : heap) a : (h ++ a :: l) !!! length h = a.
Proof. by rewrite lookup_total_app_r, Nat.sub_diag. Qed.

Lemma lookup_total_app_1 (h l : heap) a b :
  (h ++ a :: b :: l) !!! S (length h) = b.
Proof.
  rewrite lookup_total_app_r by lia. by replace (S (length h) - length h) with 1 by lia.
Qed.

Lemma lookup_total_app_2 (h l : heap) a b c :
  (h ++ a :: b :: c :: l) !!! S (S (length h)) = c.
Proof.
  rewrite lookup_total_app_r by lia.
  by replace (S (S (length h)) - length h) with 2 by lia.
Qed.

Lemma alter_app_0 (f : Value → Value) (h l : heap) a :
  alter f (length h) (h ++ a :: l) = h ++ f a :: l.
Proof. by rewrite <- (Nat.add_0_r (length h)), alter_app_r. Qed.

Lemma alter_app_1 (f : Value → Value) (h l : heap) a b :
  alter f (S (length h)) (h ++ a :: b :: l) = h ++ a :: f b :: l.
Proof. by rewrite <- (Nat.add_1_r (length h)), alter_app_r. Qed.

Lemma alter_app_2 (f : Value → Value) (h l : heap) a b c :
  alter f (S (S (length h))) (h ++ a :: b :: c :: l) = h ++ a :: b :: f c :: l.
Proof.
  replace (S (S (length h))) with (length h + 2) by lia. by rewrite alter_app_r.
Qed.

Lemma heap_ok_nil : heap_ok [].
Proof. by intros i v ?. Qed.

Lemma heap_ok_snoc h v :
  heap_ok h → node_okb (length h) v = true → heap_ok (h ++ [v]).
Proof.
  intros Hok Hv i w Hi. apply lookup_app_Some in Hi as [Hi|[Hl Hi]].
  - by apply Hok.
  - destruct (i - length h) as [|k] eqn:E; simpl in Hi; [|done].
    injection Hi as <-. by replace i with (length h) by lia.
Qed.

Lemma heap_okb_spec h : heap_okb h = true → heap_ok h.
Proof.
  unfold heap_okb. rewrite forallb_forall. intros Hb i v Hi.
  apply (Hb (i, v)), list_elem_of_In, list_elem_of_lookup.
  exists i. by rewrite list_lookup_imap, Hi.
Qed.

(** Run the monadic code of a constructor on a symbolic heap. *)
Ltac run_constructor :=
  unfold mbind, M_bind, mret, M_ret, get_data, set_backward; simpl;
  rewrite ?alter_new.

(** One step of evaluating attribute reads and updates on the nodes
    appended to a symbolic heap. *)
Ltac heap_step :=
  first [ rewrite alter_app_0 | rewrite alter_app_1 | rewrite alter_app_2
        | rewrite lookup_total_app_0 | rewrite lookup_total_app_1
        | rewrite lookup_total_app_2
        | progress unfold grad_iadd | progress simpl ].

Section Constructors.
Context `{PyRuntime}.
Hypothesis set_order_perm : ∀ l, set_order l ≡ₚ remove_dups l.

Lemma elem_of_set_order l x : x ∈ set_order l ↔ x ∈ l.
Proof. by rewrite set_order_perm, elem_of_remove_dups. Qed.

Lemma set_order_nil : set_order [] = [].
Proof. apply Permutation_nil_r. by rewrite set_order_perm. Qed.

Lemma length_remove_dups (l : list ref) : length (remove_dups l) ≤ length l.
Proof.
  induction l as [|x l IH]; simpl; [done|]. case_decide; simpl; lia.
Qed.

Lemma node_ok_new i d g c cs op lbl :
  (∀ x, x ∈ cs → x < i) → targets c = cs →
  closure_out c ∈ [None; Some i] →
  node_okb i (mkValue d g c (set_order cs) op lbl) = true.
Proof.
  intros Hcs Ht Ho. unfold node_okb. simpl.
  rewrite !andb_true_iff, !forallb_forall. split_and!.
  - intros x Hx%list_elem_of_In. rewrite elem_of_set_order in Hx.
    apply bool_decide_eq_true. auto.
  - intros x Hx%list_elem_of_In. apply bool_decide_eq_true, elem_of_set_order.
    by rewrite <- Ht.
  - by apply bool_decide_eq_true.
  - apply bool_decide_eq_true. rewrite Ht, set_order_perm.
    apply length_remove_dups.
Qed.

(** A node built over operands of [h] extends a well-formed heap. *)
Lemma heap_ok_new h d g c cs op lbl :
  heap_ok h → (∀ x, x ∈ cs → x < length h) →
  targets c = cs →
  closure_out c ∈ [None; Some (length h)] →
  heap_ok (h ++ [mkValue d g c (set_order cs) op lbl]).
Proof. intros. apply heap_ok_snoc; [done|]. by apply node_ok_new. Qed.

(** Two nodes built one after the other extend a well-formed heap. *)
Lemma heap_ok_new2 h d1 g1 d2 g2 c cs op1 op2 lbl1 lbl2 :
  heap_ok h → (∀ x, x ∈ cs → x < S (length h)) →
  targets c = cs →
  closure_out c ∈ [None; Some (S (length h))] →
  heap_ok (h ++ [mkValue d1 g1 lambda_None (set_order []) op1 lbl1;
                 mkValue d2 g2 c (set_order cs) op2 lbl2]).
Proof.
  intros Hok Hcs Ht Ho.
  change (h ++ [?a; ?b]) with (h ++ [a] ++ [b]). rewrite app_assoc.
  apply heap_ok_new; rewrite ?length_app, ?Nat.add_1_r; simpl; try done.
  apply heap_ok_new; try done; [by intros ? ?%elem_of_nil|by left].
Qed.

Lemma relu_eval self h :
  relu self h
  = Ok (length h)
      (h ++ [mkValue (if (data (h !!! self) <? 0)%float then 0%float
                      else data (h !!! self))
               0 (relu_backward self (length h)) (set_order [self])
               (Tag "ReLU") ""]).
Proof. unfold relu, Value_init. by run_constructor. Qed.

Lemma new_Value_eval d h :
  new_Value d h
  = Ok (length h) (h ++ [mkValue d 0 lambda_None (set_order []) (Tag "") ""]).
Proof. done. Qed.

Lemma tanh_eval self h :
  tanh self h
  = Ok (length h)
      (h ++ [mkValue ((math_exp (2 * data (h !!! self)) - 1)
                      / (math_exp (2 * data (h !!! self)) + 1))
               0 (tanh_backward self (length h)
                    ((math_exp (2 * data (h !!! self)) - 1)
                     / (math_exp (2 * data (h !!! self)) + 1)))
               (set_order [self]) (Tag "tanh") ""]).
Proof. unfold tanh, Value_init. by run_constructor. Qed.

Lemma sigmoid_eval self h :
  sigmoid self h
  = Ok (length h)
      (h ++ [mkValue (1 / (1 + math_exp (-1 * data (h !!! self))))
               0 (sigmoid_backward self (length h)
                    (1 / (1 + math_exp (-1 * data (h !!! self)))))
               (set_order [self]) (Tag "sigmoid") ""]).
Proof. unfold sigmoid, Value_init. by run_constructor. Qed.

Lemma add_eval self other h :
  __add__ self (OValue other) h
  = Ok (length h)
      (h ++ [mkValue (data (h !!! self) + data (h !!! other))
               0 (add_backward self other (length h))
               (set_order [self; other]) (Tag "+") ""]).
Proof. unfold __add__, as_Value, Value_init. by run_constructor. Qed.

Lemma mul_eval self other h :
  __mul__ self (OValue other) h
  = Ok (length h)
      (h ++ [mkValue (data (h !!! self) * data (h !!! other))
               0 (mul_backward self other (length h))
               (set_order [self; other]) (Tag "*") ""]).
Proof. unfold __mul__, as_Value, Value_init. by run_constructor. Qed.

Lemma add_num_eval self c h :
  self < length h →
  __add__ self (ONum c) h
  = Ok (S (length h))
      (h ++ [mkValue c 0 lambda_None (set_order []) (Tag "") "";
             mkValue (data (h !!! self) + c)
               0 (add_backward self (length h) (S (length h)))
               (set_order [self; length h]) (Tag "+") ""]).
Proof.
  intros Hs. unfold __add__, as_Value, Value_init. run_constructor.
  rewrite lookup_total_new, lookup_total_app_l, length_app, Nat.add_1_r by done.
  by rewrite <- app_assoc.
Qed.

Lemma mul_num_eval self c h :
  self < length h →
  __mul__ self (ONum c) h
  = Ok (S (length h))
      (h ++ [mkValue c 0 lambda_None (set_order []) (Tag "") "";
             mkValue (data (h !!! self) * c)
               0 (mul_backward self (length h) (S (length h)))
               (set_order [self; length h]) (Tag "*") ""]).
Proof.
  intros Hs. unfold __mul__, as_Value, Value_init. run_constructor.
  rewrite lookup_total_new, lookup_total_app_l, length_app, Nat.add_1_r by done.
  by rewrite <- app_assoc.
Qed.

Lemma exp_eval self h :
  exp self h
  = Ok (length h)
      (h ++ [mkValue (math_exp (data (h !!! self)))
               0 (exp_backward self (length h)) (set_order [self])
               (Tag "exp") ""]).
Proof. unfold exp, Value_init. by run_constructor. Qed.

Lemma pow_eval (self : ref) (other : number) (h : heap) :
  __pow__ self (PyNum other) h
  = Ok (length h)
      (h ++ [mkValue (float_pow (data (h !!! self)) (float_of_number other))
               0 (pow_backward self other (length h)) (set_order [self])
               (TagPow other) ""]).
Proof. unfold __pow__, assert_float_or_int, Value_init. by run_constructor. Qed.

(** Every constructor keeps the heap well formed and returns a node of it. *)
Lemma grows_ok_alloc h d c cs op :
  heap_ok h → (∀ x, x ∈ cs → x < length h) →
  targets c = cs →
  closure_out c ∈ [None; Some (length h)] →
  grows_ok h (Ok (length h) (h ++ [mkValue d 0 c (set_order cs) op ""])).
Proof.
  intros. simpl. split; [by apply heap_ok_new|]. rewrite length_app. simpl. lia.
Qed.

Lemma grows_ok_alloc2 h d1 d2 c cs op :
  heap_ok h → (∀ x, x ∈ cs → x < S (length h)) →
  targets c = cs →
  closure_out c ∈ [None; Some (S (length h))] →
  grows_ok h (Ok (S (length h))
                (h ++ [mkValue d1 0 lambda_None (set_order []) (Tag "") "";
                       mkValue d2 0 c (set_order cs) op ""])).
Proof.
  intros. simpl. split; [by apply heap_ok_new2|]. rewrite length_app. simpl. lia.
Qed.

Lemma grows_ok_bind h (m : M ref) (k : ref → M ref) :
  grows_ok h (m h) →
  (∀ r h', heap_ok h' → length h ≤ length h' → r < length h' →
           grows_ok h' (k r h')) →
  grows_ok h ((m ≫= k) h).
Proof.
  unfold mbind, M_bind. destruct (m h) as [r h1|e h1]; simpl; [|done].
  intros (Hok1 & Hl & Hr) Hk. specialize (Hk r h1 Hok1 Hl Hr).
  destruct (k r h1); simpl in *; intuition lia.
Qed.

Ltac one_operand :=
  apply grows_ok_alloc;
    [done|by intros ? ->%list_elem_of_singleton|done|by right; left].

Lemma add_grows_ok h self other :
  heap_ok h → self < length h → operand_in h other →
  grows_ok h (__add__ self other h).
Proof.
  intros Hok Hs Ho. destruct other as [r|c]; simpl in Ho.
  - rewrite add_eval. apply grows_ok_alloc; [done| |done|by right; left].
    intros ? [->| ->%list_elem_of_singleton]%elem_of_cons; lia.
  - rewrite add_num_eval by done.
    apply grows_ok_alloc2; [done| |done|by right; left].
    intros ? [->| ->%list_elem_of_singleton]%elem_of_cons; lia.
Qed.

Lemma mul_grows_ok h self other :
  heap_ok h → self < length h → operand_in h other →
  grows_ok h (__mul__ self other h).
Proof.
  intros Hok Hs Ho. destruct other as [r|c]; simpl in Ho.
  - rewrite mul_eval. apply grows_ok_alloc; [done| |done|by right; left].
    intros ? [->| ->%list_elem_of_singleton]%elem_of_cons; lia.
  - rewrite mul_num_eval by done.
    apply grows_ok_alloc2; [done| |done|by right; left].
    intros ? [->| ->%list_elem_of_singleton]%elem_of_cons; lia.
Qed.

Lemma pow_grows_ok h self other :
  heap_ok h → self < length h → grows_ok h (__pow__ self other h).
Proof.
  intros Hok Hs. destruct other as [n| | |]; try done.
  rewrite pow_eval. one_operand.
Qed.

Lemma run_call_grows_ok h c :
  heap_ok h → call_in h c → grows_ok h (run_call c h).
Proof.
  intros Hok Hc. destruct c; simpl in Hc; cbn [run_call].
  - apply grows_ok_alloc; [done|by intros ? ?%elem_of_nil|done|by left].
  - rewrite tanh_eval. one_operand.
  - rewrite relu_eval. one_operand.
  - rewrite sigmoid_eval. one_operand.
  - rewrite exp_eval. one_operand.
  - destruct Hc. by apply add_grows_ok.
  - by apply pow_grows_ok.
  - destruct Hc. by apply mul_grows_ok.
  - by apply mul_grows_ok.
  - by apply add_grows_ok.
  - destruct Hc as [Hs Ho]. destruct other as [r|c]; simpl in Ho.
    + apply grows_ok_bind; [by apply pow_grows_ok|].
      intros inv h' ? ? ?. apply mul_grows_ok; [done|lia|done].
    + by apply mul_grows_ok.
  - apply grows_ok_bind; [by apply pow_grows_ok|].
    intros inv h' ? ? ?. by apply mul_grows_ok.
  - by apply mul_grows_ok.
  - destruct Hc as [Hs Ho]. destruct other as [r|c]; simpl in Ho.
    + apply grows_ok_bind; [by apply mul_grows_ok|].
      intros n h' ? ? ?. apply add_grows_ok; [done|lia|done].
    + by apply add_grows_ok.
  - by apply add_grows_ok.
Qed.

(** A heap a program reaches is well formed: its operand graph is acyclic. *)
Lemma built_heap_ok h : built h → heap_ok h.
Proof.
  induction 1 as [|h c r h' _ IH Hc E|h c e h' _ IH Hc E|h fuel root h' _ IH Hr E].
  - apply heap_ok_nil.
  - pose proof (run_call_grows_ok h c IH Hc) as G. rewrite E in G. apply G.
  - pose proof (run_call_grows_ok h c IH Hc) as G. rewrite E in G. apply G.
  - eapply grads_only_heap_ok; [|done]. by eapply backward_grads_only.
Qed.

End Constructors.

(* ===================================================================== *)
(** ** Gradients after [backward] *)
(* ===================================================================== *)

Lemma no_consumer_below h w x : heap_ok h → w ≤ x → ¬ consumes h w x.
Proof. intros Hok Hw Hc%(consumes_lt h Hok). lia. Qed.

Lemma reach_leaf h r w : _prev (h !!! r) = [] → reach h r w → w = r.
Proof.
  intros Hl [->|(c & Hc & _)]%reach_inv; [done|].
  unfold consumes in Hc. rewrite Hl in Hc. by apply elem_of_nil in Hc.
Qed.

Lemma bool_mul_1 b : bool_mul b 1 = if b then 1%float else 0%float.
Proof. by destruct b. Qed.

Section Gradients.
Context `{PyRuntime}.

(** When no reachable node other than the root consumes [x], the gradient of
    [x] after the pass is what the root's closure leaves there. *)
Lemma backward_direct h root fuel x :
  heap_ok h → root < fuel →
  (∀ w, reach h root w → w ≠ root → ¬ consumes h w x) →
  ∃ h', backward fuel root h = Some h' ∧ grads_only h h'
    ∧ grad (h' !!! x)
      = grad (call_backward (alter (with_grad 1) root h) root !!! x).
Proof.
  intros Hok Hf Hx.
  destruct (backward_unfold h root fuel Hok Hf)
    as (vis & pre & E & B & Hn & Hs & Hreach).
  eexists. split; [exact B|].
  assert (G : grads_only h (call_backward (alter (with_grad 1) root h) root)).
  { eapply grads_only_trans; [apply seed_grads_only|apply call_grads_only]. }
  split.
  - eapply grads_only_trans; [apply seed_grads_only|apply foldl_call_grads_only].
  - simpl. apply foldl_call_frame. intros w Hw Ht.
    rewrite elem_of_reverse in Hw.
    rewrite (grads_only_backward h _ _ G) in Ht.
    apply targets_consumed in Ht; [|done]. apply (Hx w); [| |done].
    + apply Hreach, elem_of_app. by left.
    + apply NoDup_app in Hn as (_ & Hd & _). intros ->.
      apply (Hd root); [done|by left].
Qed.

(** After the pass the root's gradient is the seed. *)
Lemma backward_root_grad h root fuel :
  heap_ok h → root < length h → root < fuel →
  ∃ h', backward fuel root h = Some h' ∧ grad (h' !!! root) = 1%float.
Proof.
  intros Hok Hr Hf.
  destruct (backward_direct h root fuel root Hok Hf) as (h' & B & G & E).
  { intros w Hw%(reach_le h Hok) _. by apply no_consumer_below. }
  exists h'. split; [done|]. rewrite E. unfold call_backward.
  rewrite call_frame.
  - by rewrite list_lookup_total_alter_eq.
  - intros Ht. rewrite (grads_only_backward h _ _ (seed_grads_only _ _)) in Ht.
    apply targets_consumed, (consumes_lt h Hok) in Ht; [lia|done].
Qed.

End Gradients.

(* ===================================================================== *)
(** ** The claims *)
(* ===================================================================== *)

Section Claims.
Context `{PyRuntime}.
Hypothesis set_order_perm : ∀ l, set_order l ≡ₚ remove_dups l.

(** C1.  [x = Value(3.0); y = x*x + x]: [y] holds [12.0], and after
    [y.backward()] the gradient of [x] is [7.0]: the contribution [1.0] of
    the addition and twice the contribution [3.0] of the product, summed. *)
Theorem accumulation_over_shared_operand (h : heap) (fuel : ref) :
  heap_ok h → S (S (length h)) < fuel →
  ∃ x y h1 h2,
    x_squared_plus_x h = Ok (x, y) h1
    ∧ data (h1 !!! x) = 3%float ∧ grad (h1 !!! x) = 0%float
    ∧ data (h1 !!! y) = 12%float
    ∧ backward fuel y h1 = Some h2
    ∧ grad (h2 !!! x) = 7%float.
Proof.
  intros Hok Hf.
  unfold x_squared_plus_x, mbind, M_bind. rewrite new_Value_eval, mul_eval, add_eval.
  unfold mret, M_ret.
  rewrite !length_app, <- !app_assoc. simpl. rewrite !Nat.add_1_r.
  rewrite !lookup_total_app_0, !lookup_total_app_1. simpl.
  set (x := length h). set (m := S x). set (y := S m).
  set (X := mkValue 3 _ _ _ _ _).
  set (Mn := mkValue _ _ (mul_backward _ _ _) _ _ _).
  set (Y := mkValue _ _ (add_backward _ _ _) _ _ _).
  set (h1 := h ++ [X; Mn; Y]).
  assert (Hcx : ∀ c, ¬ consumes h1 x c).
  { intros c. unfold consumes, h1, x. rewrite lookup_total_app_0. simpl.
    rewrite set_order_nil by done. apply not_elem_of_nil. }
  assert (Hcm : ∀ c, consumes h1 m c ↔ c = x).
  { intros c. unfold consumes, h1, m, x. rewrite lookup_total_app_1. simpl.
    rewrite elem_of_set_order, !elem_of_cons, elem_of_nil by done. tauto. }
  assert (Hcy : ∀ c, consumes h1 y c ↔ c = m ∨ c = x).
  { intros c. unfold consumes, h1, y, m, x. rewrite lookup_total_app_2. simpl.
    rewrite elem_of_set_order, !elem_of_cons, elem_of_nil by done. tauto. }
  assert (Hok1 : heap_ok h1).
  { unfold h1. change (h ++ [X; Mn; Y]) with (h ++ [X] ++ [Mn] ++ [Y]).
    rewrite !app_assoc.
    apply (heap_ok_new set_order_perm); rewrite ?length_app; simpl; rewrite ?Nat.add_1_r.
    - apply (heap_ok_new set_order_perm); rewrite ?length_app; simpl; rewrite ?Nat.add_1_r.
      + apply (heap_ok_new set_order_perm); [done|by intros ? ?%elem_of_nil|done|by left].
      + intros ? [->| ->%list_elem_of_singleton]%elem_of_cons; lia.
      + done.
      + by right; left.
    - intros ? [->| ->%list_elem_of_singleton]%elem_of_cons; lia.
    - done.
    - by right; left. }
  destruct (backward_unfold h1 y fuel Hok1 Hf)
    as (vis & pre & _ & B & Hn & Hs & Hreach).
  assert (Hpre : pre = [x; m]).
  { assert (Hel : ∀ w, w ∈ pre ↔ w ∈ [x; m]).
    { intros w. split.
      - intros Hw. assert (w ≠ y).
        { apply NoDup_app in Hn as (_ & Hd & _). intros ->.
          apply (Hd y); [done|by left]. }
        assert (Hr : reach h1 y w) by (apply Hreach, elem_of_app; by left).
        apply reach_inv in Hr as [->|(c & [-> | ->]%Hcy & Hr)]; [done| |].
        + apply reach_inv in Hr as [->|(c & ->%Hcm & Hr)]; [by right; left|].
          apply reach_inv in Hr as [->|(c & []%Hcx & _)]. by left.
        + apply reach_inv in Hr as [->|(c & []%Hcx & _)]. by left.
      - intros Hw.
        assert (Hr : reach h1 y w).
        { apply elem_of_cons in Hw as [->| ->%list_elem_of_singleton].
          - apply rtc_once, Hcy. by right.
          - apply rtc_once, Hcy. by left. }
        apply Hreach, elem_of_app in Hr as [?| ->%list_elem_of_singleton];
          [done|].
        apply elem_of_cons in Hw as [Hw|Hw%list_elem_of_singleton];
          unfold y, m in Hw; lia. }
    assert (Hp : [x; m] ≡ₚ pre).
    { apply NoDup_Permutation; [|by apply NoDup_app in Hn as (? & _)|done].
      apply NoDup_cons. split; [|apply NoDup_singleton].
      intros Hx%list_elem_of_singleton. unfold m in Hx. lia. }
    apply Permutation_length_2_inv in Hp as [-> | ->]; [done|].
    assert (Hx : x ∈ @nil ref); [|by apply elem_of_nil in Hx].
    apply (Hs [] m [x; y]); [done|]. by apply Hcm. }
  subst pre.
  exists x, y, h1, (foldl call_backward (alter (with_grad 1) y h1) [y; m; x]).
  split_and!; [done|by unfold h1, x; rewrite lookup_total_app_0..|
               by unfold h1, y, m, x; rewrite lookup_total_app_2|exact B|].
  clear. subst h1 X Mn Y y m x. unfold call_backward. simpl.
  repeat heap_step. done.
Qed.




(** C3.  Whatever the base node, [__pow__] with an exponent that is not a
    number (a node, [None], a string) raises the assertion error, and the
    heap it leaves is the heap it was given: no node was created and no
    attribute of any node changed. *)
Theorem pow_rejects_non_number (self : ref) (other : pyobj) (h : heap) :
  (∀ n, other ≠ PyNum n) →
  __pow__ self other h
  = Raise (AssertionError "only supporting int/float powers for now") h.
Proof. intros Hn. by destruct other as [n| | |]; [destruct (Hn n)|..]. Qed.

(** C4.  [5.0 - Value(3.0)] goes through [__rsub__], whose body adds the
    negated left operand to [self]: the node it returns holds [-2.0], where
    [c] minus the value of [x] is [2.0]. *)
Theorem rsub_five_minus_three :
  ∃ h', five_minus_x [] = Ok (-2)%float h'
        ∧ (5 - 3)%float = 2%float ∧ ¬ py_eq (-2) 2.
Proof. eexists. split_and!; [reflexivity|reflexivity|]. by intros ?. Qed.

(** In general the node returned for [c - x] holds [x.data + (-c)]. *)
Lemma rsub_value (self : ref) (c : float) (h : heap) :
  self < length h →
  ∃ out h', __rsub__ self c h = Ok out h'
            ∧ data (h' !!! out) = (data (h !!! self) + - c)%float.
Proof.
  intros Hs. unfold __rsub__. unfold __add__, as_Value, Value_init.
  run_constructor. do 2 eexists. split; [reflexivity|].
  rewrite lookup_total_new. simpl.
  by rewrite lookup_total_new, lookup_total_app_l.
Qed.

(** C5, as the code has it.  For a node [x] whose value is not NaN the
    value of [relu(x)] equals [x if x > 0 else 0]; a NaN stays NaN.  The
    closure adds [(out.data > 0) * g] to [x.grad] for the gradient [g] of
    the output: [g] itself when the output is positive; otherwise
    [0.0 * g], which is zero for a finite [g] and NaN for an infinite [g]
    and for NaN.  In [backward()] from the relu node [g] is [1.0], so
    [x.grad] grows by [1.0] when the output is positive and by [0.0]
    otherwise.  At [x = 0] the output is [0] and the pass leaves in
    [x.grad] the number that was there, [0] when it was [0]. *)
Theorem relu_forward_backward (h : heap) (self fuel : ref) :
  heap_ok h → self < length h → length h < fuel →
  ∃ out h1 h2,
    relu self h = Ok out h1
    ∧ (is_nan (data (h !!! self)) = false →
       py_eq (data (h1 !!! out))
         (if (0 <? data (h !!! self))%float then data (h !!! self)
          else 0%float))
    ∧ (is_nan (data (h !!! self)) = true → is_nan (data (h1 !!! out)) = true)
    ∧ (∀ g, ∃ received,
         grad (call_backward (alter (with_grad g) out h1) out !!! self)
         = (grad (h !!! self) + received)%float
         ∧ ((0 <? data (h1 !!! out))%float = true → received = g)
         ∧ ((0 <? data (h1 !!! out))%float = false → is_finite g = true →
            py_eq received 0)
         ∧ ((0 <? data (h1 !!! out))%float = false → is_finite g = false →
            is_nan received = true))
    ∧ backward fuel out h1 = Some h2
    ∧ grad (h2 !!! self)
      = (grad (h !!! self)
         + (if (0 <? data (h1 !!! out))%float then 1 else 0))%float
    ∧ (py_eq (data (h !!! self)) 0 →
       py_eq (data (h1 !!! out)) 0
       ∧ same_number (grad (h2 !!! self)) (grad (h !!! self))
       ∧ (py_eq (grad (h !!! self)) 0 → py_eq (grad (h2 !!! self)) 0)).
Proof.
  intros Hok Hs Hf. rewrite relu_eval.
  set (x := data (h !!! self)).
  set (R := mkValue _ _ _ _ _ _). set (h1 := h ++ [R]).
  assert (Hok1 : heap_ok h1).
  { apply (heap_ok_new set_order_perm); [done|..].
    - by intros ? ->%list_elem_of_singleton.
    - done.
    - set_solver. }
  destruct (backward_direct h1 (length h) fuel self Hok1 Hf) as (h2 & B & G & E).
  { intros w [->|(c & Hc & Hw)]%reach_inv Hne; [done|].
    unfold consumes, h1 in Hc. rewrite lookup_total_new in Hc. simpl in Hc.
    apply elem_of_set_order, list_elem_of_singleton in Hc as ->; [|done].
    apply no_consumer_below; [done|]. by apply (reach_le h1 Hok1). }
  assert (Ec : ∀ g,
    grad (call_backward (alter (with_grad g) (length h) h1) (length h) !!! self)
    = (grad (h !!! self) + bool_mul (0 <? data R)%float g)%float).
  { intros g. unfold call_backward, h1. rewrite alter_new, lookup_total_new.
    simpl. rewrite lookup_total_new. simpl.
    rewrite grad_iadd_eq by (rewrite length_app; lia).
    by rewrite lookup_total_app_l. }
  assert (Eg : grad (h2 !!! self)
               = (grad (h !!! self)
                  + (if (0 <? data R)%float then 1 else 0))%float).
  { by rewrite E, Ec, bool_mul_1. }
  assert (Ed : h1 !!! length h = R) by apply lookup_total_new.
  exists (length h), h1, h2. rewrite Ed. split_and!; try done.
  - intros Hn. unfold py_eq. simpl. fold x.
    destruct (float_sign_cases x Hn) as [(-> & -> & _)|[(-> & -> & Hz)|(-> & -> & Hz)]];
      try done.
    rewrite FloatAxioms.eqb_spec. unfold SFeqb. rewrite SFcompare_refl; [done|].
    by apply is_nan_false.
  - intros Hn. simpl. fold x. by destruct (float_nan_cmp x Hn) as [-> _].
  - intros g. exists (bool_mul (0 <? data R)%float g).
    split; [apply Ec|].
    destruct (0 <? data R)%float; unfold bool_mul; split_and!; try done.
    + intros _. apply float_mul_1_l.
    + intros _. apply float_mul_0_l.
    + intros _. apply float_mul_0_l.
  - intros Hz. fold x in Hz. unfold py_eq in Hz.
    assert (Hn : is_nan x = false).
    { destruct (is_nan x) eqn:En; [|done]. apply is_nan_spec in En.
      by rewrite FloatAxioms.eqb_spec, En in Hz. }
    destruct (float_sign_cases x Hn) as [(_ & _ & Hc)|[(Hl & Hg & _)|(_ & _ & Hc)]];
      try congruence.
    assert (Hd : data R = x) by (simpl; fold x; by rewrite Hl).
    split; [by rewrite Hd|]. rewrite Eg, Hd, Hg.
    split; [apply float_add_0_r|]. intros Hg0.
    by destruct (py_eq_zero _ Hg0) as [-> | ->].
Qed.

Lemma sub_eval a b h :
  a < length h → b < length h →
  __sub__ a (OValue b) h
  = Ok (S (S (length h)))
      (h ++ [mkValue (-1) 0 lambda_None (set_order []) (Tag "") "";
             mkValue (data (h !!! b) * -1)
               0 (mul_backward b (length h) (S (length h)))
               (set_order [b; length h]) (Tag "*") "";
             mkValue (data (h !!! a) + data (h !!! b) * -1)
               0 (add_backward a (S (length h)) (S (S (length h))))
               (set_order [a; S (length h)]) (Tag "+") ""]).
Proof.
  intros Ha Hb. unfold __sub__, __neg__, mbind, M_bind.
  rewrite mul_num_eval, add_eval by done.
  rewrite length_app, <- app_assoc. simpl.
  rewrite lookup_total_app_l, lookup_total_app_1 by done.
  by rewrite Nat.add_comm.
Qed.

(** C6.  [subtract(a, b)] and [add(a, negate(b))], run on the same heap,
    return nodes with the same value, which is the difference of the values
    of [a] and [b]; [backward()] from either result terminates, and the
    gradients it leaves in [a] and in [b] are the same in both. *)
Theorem sub_is_add_of_negate (h : heap) (a b fuel : ref) :
  heap_ok h → a < length h → b < length h → S (S (length h)) < fuel →
  ∃ r h1 h2 r' h1' h2',
    __sub__ a (OValue b) h = Ok r h1 ∧ backward fuel r h1 = Some h2
    ∧ add_of_negate a b h = Ok r' h1' ∧ backward fuel r' h1' = Some h2'
    ∧ data (h1 !!! r) = data (h1' !!! r')
    ∧ grad (h2 !!! a) = grad (h2' !!! a)
    ∧ grad (h2 !!! b) = grad (h2' !!! b)
    ∧ data (h1 !!! r) = (data (h !!! a) - data (h !!! b))%float.
Proof.
  intros Hok Ha Hb Hf.
  assert (Es : add_of_negate a b h = __sub__ a (OValue b) h) by done.
  rewrite Es, sub_eval by done.
  set (T := mkValue (-1) _ _ _ _ _).
  set (Mn := mkValue _ _ (mul_backward _ _ _) _ _ _).
  set (A := mkValue _ _ (add_backward _ _ _) _ _ _).
  assert (Hok1 : heap_ok (h ++ [T; Mn; A])).
  { change (h ++ [T; Mn; A]) with (h ++ [T; Mn] ++ [A]). rewrite app_assoc.
    apply (heap_ok_new set_order_perm);
      replace (length (h ++ [T; Mn])) with (S (S (length h)))
        by (rewrite length_app; simpl; lia).
    - apply (heap_ok_new2 set_order_perm); [done| |done|by right; left].
      intros ? [->| ->%list_elem_of_singleton]%elem_of_cons; lia.
    - intros ? [->| ->%list_elem_of_singleton]%elem_of_cons; lia.
    - done.
    - by right; left. }
  destruct (backward_unfold _ (S (S (length h))) fuel Hok1 Hf)
    as (vis & pre & _ & B & _).
  do 6 eexists. split_and!; try reflexivity; try exact B.
  rewrite lookup_total_app_2. apply float_add_mul_m1.
Qed.

(** The nodes below a binary node over [x] and a fresh leaf: none of them
    consumes [x]. *)
Lemma fresh_leaf_no_consumer (h1 : heap) (n x : ref) :
  heap_ok h1 → x < n →
  _prev (h1 !!! n) = [] →
  (∀ c, consumes h1 (S n) c → c = x ∨ c = n) →
  ∀ w, reach h1 (S n) w → w ≠ S n → ¬ consumes h1 w x.
Proof.
  intros Hok1 Hx Hleaf Hops w [->|(c & Hc & Hw)]%reach_inv Hne; [done|].
  destruct (Hops c Hc) as [-> | ->].
  - apply no_consumer_below; [done|]. by apply (reach_le h1 Hok1).
  - apply (reach_leaf _ _ _ Hleaf) in Hw as ->.
    unfold consumes. rewrite Hleaf. apply not_elem_of_nil.
Qed.

(** C7.  [add(x, 0)] returns a node holding the number [x] holds: the very
    same float, except that [-0.0] becomes [0.0], which is equal to it.  Its
    closure adds the output gradient [g] to [x.grad] as it is, and
    [backward()] from it adds [1.0].  [multiply(x, 1)] returns a node
    holding exactly the value of [x] and passes the gradient on in the same
    way. *)
Theorem add_zero_mul_one_identity (h : heap) (x fuel : ref) :
  heap_ok h → x < length h → S (length h) < fuel →
  (∃ out h1 h2,
     __add__ x (ONum 0) h = Ok out h1
     ∧ same_number (data (h1 !!! out)) (data (h !!! x))
     ∧ (data (h !!! x) ≠ (-0)%float → data (h1 !!! out) = data (h !!! x))
     ∧ (∀ g, grad (call_backward (alter (with_grad g) out h1) out !!! x)
             = (grad (h !!! x) + g)%float)
     ∧ backward fuel out h1 = Some h2
     ∧ grad (h2 !!! x) = (grad (h !!! x) + 1)%float)
  ∧ (∃ out h1 h2,
       __mul__ x (ONum 1) h = Ok out h1
       ∧ data (h1 !!! out) = data (h !!! x)
       ∧ (∀ g, grad (call_backward (alter (with_grad g) out h1) out !!! x)
               = (grad (h !!! x) + g)%float)
       ∧ backward fuel out h1 = Some h2
       ∧ grad (h2 !!! x) = (grad (h !!! x) + 1)%float).
Proof.
  intros Hok Hx Hf. rewrite add_num_eval, mul_num_eval by done. split.
  - set (Z := mkValue 0 _ _ _ _ _). set (A := mkValue _ _ _ _ _ _).
    set (h1 := h ++ [Z; A]).
    assert (Hok1 : heap_ok h1).
    { apply (heap_ok_new2 set_order_perm); [done| |done|by right; left].
      intros ? [->| ->%list_elem_of_singleton]%elem_of_cons; lia. }
    assert (Hcall : ∀ g,
      grad (call_backward (alter (with_grad g) (S (length h)) h1) (S (length h))
            !!! x) = (grad (h !!! x) + g)%float).
    { intros g. unfold call_backward, h1.
      rewrite alter_app_1, lookup_total_app_1. simpl.
      rewrite lookup_total_app_1. simpl.
      rewrite grad_iadd_ne by lia.
      rewrite grad_iadd_eq by (rewrite length_app; lia).
      by rewrite lookup_total_app_l, float_mul_1_l. }
    destruct (backward_direct h1 (S (length h)) fuel x Hok1 Hf)
      as (h2 & B & G & E).
    { apply fresh_leaf_no_consumer; [done..| |].
      - unfold h1. rewrite lookup_total_app_0. apply set_order_nil, set_order_perm.
      - intros c. unfold consumes, h1. rewrite lookup_total_app_1. simpl.
        rewrite elem_of_set_order by done.
        intros [->| ->%list_elem_of_singleton]%elem_of_cons; auto. }
    exists (S (length h)), h1, h2. split_and!; try done.
    + unfold h1. rewrite lookup_total_app_1. apply float_add_0_r.
    + unfold h1. rewrite lookup_total_app_1. apply float_add_0_r_exact.
    + by rewrite E.
  - set (Z := mkValue 1 _ _ _ _ _). set (A := mkValue _ _ _ _ _ _).
    set (h1 := h ++ [Z; A]).
    assert (Hok1 : heap_ok h1).
    { apply (heap_ok_new2 set_order_perm); [done| |done|by right; left].
      intros ? [->| ->%list_elem_of_singleton]%elem_of_cons; lia. }
    assert (Hcall : ∀ g,
      grad (call_backward (alter (with_grad g) (S (length h)) h1) (S (length h))
            !!! x) = (grad (h !!! x) + g)%float).
    { intros g. unfold call_backward, h1.
      rewrite alter_app_1, lookup_total_app_1. simpl.
      rewrite lookup_total_app_1, lookup_total_app_0. simpl.
      rewrite grad_iadd_ne by lia.
      rewrite grad_iadd_eq by (rewrite length_app; lia).
      by rewrite lookup_total_app_l, float_mul_1_l. }
    destruct (backward_direct h1 (S (length h)) fuel x Hok1 Hf)
      as (h2 & B & G & E).
    { apply fresh_leaf_no_consumer; [done..| |].
      - unfold h1. rewrite lookup_total_app_0. apply set_order_nil, set_order_perm.
      - intros c. unfold consumes, h1. rewrite lookup_total_app_1. simpl.
        rewrite elem_of_set_order by done.
        intros [->| ->%list_elem_of_singleton]%elem_of_cons; auto. }
    exists (S (length h)), h1, h2. split_and!; try done.
    + unfold h1. rewrite lookup_total_app_1. apply float_mul_1_r.
    + by rewrite E.
Qed.

(** C8.  With [math.exp] returning [1.0] at the zeros, as the C library
    does, [sigmoid] of a node holding zero ([0.0] or [-0.0]) holds exactly
    [0.5] and [tanh] of it holds exactly [0.0]. *)
Theorem sigmoid_tanh_at_zero (h : heap) (self : ref) :
  math_exp 0 = 1%float → math_exp (-0) = 1%float →
  py_eq (data (h !!! self)) 0 →
  (∃ out h', sigmoid self h = Ok out h' ∧ data (h' !!! out) = 0.5%float)
  ∧ (∃ out h', tanh self h = Ok out h' ∧ data (h' !!! out) = 0%float).
Proof.
  intros E0 E0' Hz. rewrite sigmoid_eval, tanh_eval.
  split; do 2 eexists; (split; [reflexivity|]); rewrite lookup_total_new; simpl;
    destruct (py_eq_zero _ Hz) as [-> | ->].
  - change (-1 * 0)%float with (-0)%float. by rewrite E0'.
  - change (-1 * -0)%float with 0%float. by rewrite E0.
  - change (2 * 0)%float with 0%float. by rewrite E0.
  - change (2 * -0)%float with (-0)%float. by rewrite E0'.
Qed.

(** C9.  On a heap built by wrapping numbers and applying the operations,
    [backward] from any of its nodes terminates: every recursion budget
    above the root's index gives the same final heap.  It calls one closure
    per appended node, no node is appended twice, and only reachable nodes
    are appended, so the closures called number at most the reachable
    nodes; and the traversal makes at most one call of [buildTopo] per
    operand of an appended node, the first call apart. *)
Theorem backward_terminates (h : heap) (root : ref) :
  built h → root < length h →
  ∃ h' order,
    (∀ fuel, root < fuel →
       backward_order fuel (alter (with_grad 1) root h) root = Some order
       ∧ backward fuel root h = Some h'
       ∧ buildTopo_calls fuel (alter (with_grad 1) root h) root (∅, [])
         ≤ 1 + 2 * length order)
    ∧ h' = foldl call_backward (alter (with_grad 1) root h) order
    ∧ NoDup order
    ∧ (∀ v, v ∈ order → reach h root v)
    ∧ (∀ R : list ref, (∀ v, reach h root v → v ∈ R) → length order ≤ length R)
    ∧ length order ≤ length h.
Proof.
  intros Hok%(built_heap_ok set_order_perm) Hr.
  destruct (backward_unfold h root (S root) Hok (Nat.lt_succ_diag_r _))
    as (vis & pre & E & B & Hn & Hs & Hreach).
  assert (Hsub : ∀ R : list ref, (∀ v, reach h root v → v ∈ R) →
                 length (root :: reverse pre) ≤ length R).
  { intros R HR. rewrite <- reverse_snoc, length_reverse.
    apply submseteq_length, NoDup_submseteq; [done|].
    intros v Hv. by apply HR, Hreach. }
  eexists _, (root :: reverse pre). split_and!; [|reflexivity| | |done|].
  - intros fuel Hf.
    assert (E' := buildTopo_mono _ _ fuel _ _ _ Hf E).
    unfold backward, backward_order. rewrite E'. simpl.
    rewrite reverse_snoc. split_and!; [done..|].
    destruct (buildTopo_calls_spec _ _ _ _ _ E') as (new & T & ->).
    simpl in T. subst new.
    pose proof (operand_count_le (alter (with_grad 1) root h) (pre ++ [root])
                  (grads_only_heap_ok _ _ (seed_grads_only _ _) Hok)) as Hc.
    rewrite length_app in Hc. simpl in *. rewrite length_reverse. lia.
  - by rewrite <- reverse_snoc, reverse_Permutation.
  - intros v. rewrite <- reverse_snoc, elem_of_reverse. apply Hreach.
  - etrans; [apply (Hsub (seq 0 (length h)))|by rewrite length_seq].
    intros v Hv%(reach_le h Hok). apply elem_of_seq. lia.
Qed.

(** [backward] from an addition node over [x] and a leaf. *)
Lemma backward_add_over_leaf (h1 : heap) (n x fuel : ref) :
  heap_ok h1 → x < n → S n < length h1 → S n < fuel →
  _prev (h1 !!! n) = [] →
  (∀ c, consumes h1 (S n) c → c = x ∨ c = n) →
  _backward (h1 !!! S n) = add_backward x n (S n) →
  ∃ h2, backward fuel (S n) h1 = Some h2 ∧ grads_only h1 h2
        ∧ grad (h2 !!! x) = (grad (h1 !!! x) + 1)%float
        ∧ grad (h2 !!! S n) = 1%float.
Proof.
  intros Hok Hx Hn Hf Hleaf Hops Hb.
  destruct (backward_direct h1 (S n) fuel x Hok Hf) as (h2 & B & G & E);
    [by apply fresh_leaf_no_consumer|].
  destruct (backward_root_grad h1 (S n) fuel Hok Hn Hf) as (h2' & B' & Er).
  assert (h2' = h2) as -> by congruence.
  exists h2. split_and!; try done.
  rewrite E. unfold call_backward.
  rewrite list_lookup_total_alter_eq by done. simpl. rewrite Hb. simpl.
  rewrite grad_iadd_ne by lia.
  rewrite grad_iadd_eq by (rewrite length_alter; lia).
  rewrite list_lookup_total_alter_eq by done.
  rewrite list_lookup_total_alter_ne by lia. simpl.
  by change (1 * 1)%float with 1%float.
Qed.

(** C10.  [backward] assigns the root's gradient and otherwise performs
    only [+=] on gradients, none of them outside the reachable sub-graph: no
    gradient but the root's is reset.  So for [y = x + 1.0] over a fresh
    leaf [x], a second [y.backward()] leaves [x.grad] at [2.0] (it was [1.0]
    after the first) and [y.grad] at [1.0]. *)
Theorem backward_accumulates (h : heap) (d : float) (root fuel : ref) :
  heap_ok h → root < fuel → S (S (length h)) < fuel →
  (∃ incs, backward fuel root h
           = Some (apply_increments incs (alter (with_grad 1) root h)))
  ∧ (∀ h' v, backward fuel root h = Some h' → ¬ reach h root v →
             grad (h' !!! v) = grad (h !!! v))
  ∧ (∃ x y h1 h2 h3,
       x_plus_one d h = Ok (x, y) h1
       ∧ grad (h1 !!! x) = 0%float
       ∧ backward fuel y h1 = Some h2
       ∧ grad (h2 !!! x) = 1%float
       ∧ backward fuel y h2 = Some h3
       ∧ grad (h3 !!! x) = 2%float
       ∧ grad (h3 !!! y) = 1%float).
Proof.
  intros Hok Hr Hf. split_and!.
  - destruct (backward_unfold h root fuel Hok Hr) as (vis & pre & _ & B & _).
    rewrite B. destruct (foldl_call_increments (root :: reverse pre)
                           (alter (with_grad 1) root h)) as [incs ->].
    by exists incs.
  - intros h' v B Hv. exact (backward_unreachable h root fuel h' v Hok Hr B Hv).
  - unfold x_plus_one, mbind, M_bind. rewrite new_Value_eval.
    set (X := mkValue d _ _ _ _ _). set (hX := h ++ [X]).
    assert (HX : length hX = S (length h))
      by (unfold hX; rewrite length_app; simpl; lia).
    rewrite add_num_eval by lia. unfold mret, M_ret.
    set (O := mkValue 1 _ _ _ _ _). set (Y := mkValue _ _ _ _ _ _).
    set (h1 := hX ++ [O; Y]).
    assert (Hok1 : heap_ok h1).
    { apply (heap_ok_new2 set_order_perm).
      - apply (heap_ok_new set_order_perm); [done|by intros ? ?%elem_of_nil|done|by left].
      - intros ? [->| ->%list_elem_of_singleton]%elem_of_cons; lia.
      - done.
      - by right; left. }
    assert (Hx0 : h1 !!! length h = X).
    { unfold h1, hX. by rewrite lookup_total_app_l, lookup_total_new
        by (rewrite length_app; simpl; lia). }
    assert (Hleaf : _prev (h1 !!! length hX) = []).
    { unfold h1. rewrite lookup_total_app_0.
      apply set_order_nil, set_order_perm. }
    assert (Hops : ∀ c, consumes h1 (S (length hX)) c
                        → c = length h ∨ c = length hX).
    { intros c. unfold consumes, h1. rewrite lookup_total_app_1. simpl.
      rewrite elem_of_set_order by done.
      intros [->| ->%list_elem_of_singleton]%elem_of_cons; auto. }
    assert (Hb : _backward (h1 !!! S (length hX))
                 = add_backward (length h) (length hX) (S (length hX))).
    { unfold h1. by rewrite lookup_total_app_1. }
    assert (Hl1 : S (length hX) < length h1)
      by (unfold h1; rewrite length_app; simpl; lia).
    destruct (backward_add_over_leaf h1 (length hX) (length h) fuel)
      as (h2 & B2 & G2 & Ex2 & Ey2); try done; [lia..|].
    destruct (backward_add_over_leaf h2 (length hX) (length h) fuel)
      as (h3 & B3 & G3 & Ex3 & Ey3); try done; try lia.
    { by eapply grads_only_heap_ok. }
    { destruct G2 as [-> _]. lia. }
    { by rewrite (grads_only_prev _ _ _ G2). }
    { intros c Hc. apply Hops. by apply (grads_only_consumes _ _ _ _ G2). }
    { by rewrite (grads_only_backward _ _ _ G2). }
    exists (length h), (S (length hX)), h1, h2, h3.
    rewrite Hx0 in Ex2. simpl in Ex2.
    split_and!; try done.
    + by rewrite Hx0.
    + by rewrite Ex3, Ex2.
Qed.

End Claims.

(* ===================================================================== *)
(** ** What the constructors and [backward] leave alone *)
(* ===================================================================== *)

Lemma allocates_appends n h res : n ≤ 2 → allocates n h res → appends h res.
Proof.
  intros Hn (new & -> & Hl & Hg). exists new. rewrite length_app.
  split_and!; try done; lia.
Qed.

Lemma allocates_one h d c cs op :
  allocates 0 h (Ok (length h) (h ++ [mkValue d 0 c cs op ""])).
Proof.
  exists [mkValue d 0 c cs op ""]. rewrite Nat.add_0_r.
  split_and!; try done. by intros v ->%list_elem_of_singleton.
Qed.

Lemma allocates_bind n1 n2 h (m : M ref) (k : ref → M ref) :
  allocates n1 h (m h) →
  (∀ r h', allocates n2 h' (k r h')) →
  allocates (S (n1 + n2)) h ((m ≫= k) h).
Proof.
  intros (new & E & Hl & Hg) Hk. unfold mbind, M_bind. rewrite E.
  destruct (Hk (length h + n1) (h ++ new)) as (new' & -> & Hl' & Hg').
  exists (new ++ new'). rewrite app_assoc, !length_app.
  split_and!; [f_equal; lia|lia|].
  intros v [?|?]%elem_of_app; auto.
Qed.

Section Allocation.
Context `{PyRuntime}.

Lemma add_allocates h self other :
  allocates (match other with OValue _ => 0 | ONum _ => 1 end) h
    (__add__ self other h).
Proof.
  destruct other as [r|c].
  - rewrite add_eval. apply allocates_one.
  - unfold __add__, as_Value, Value_init. run_constructor.
    rewrite <- app_assoc. simpl. eexists [_; _]. rewrite !length_app. simpl.
    split_and!; [f_equal; lia|done|].
    intros v [->| ->%list_elem_of_singleton]%elem_of_cons; done.
Qed.

Lemma mul_allocates h self other :
  allocates (match other with OValue _ => 0 | ONum _ => 1 end) h
    (__mul__ self other h).
Proof.
  destruct other as [r|c].
  - rewrite mul_eval. apply allocates_one.
  - unfold __mul__, as_Value, Value_init. run_constructor.
    rewrite <- app_assoc. simpl. eexists [_; _]. rewrite !length_app. simpl.
    split_and!; [f_equal; lia|done|].
    intros v [->| ->%list_elem_of_singleton]%elem_of_cons; done.
Qed.

(** X1.  No constructor of [Value] touches a node that exists: a call appends
    between one and three nodes, all with gradient [0], and returns the last
    one; a call that raises has allocated nothing. *)
Theorem constructors_only_append (c : constructor_call) (h : heap) :
  appends h (run_call c h).
Proof.
  destruct c; cbn [run_call].
  - unfold Value_init. apply (allocates_appends 0); [lia|apply allocates_one].
  - rewrite tanh_eval. apply (allocates_appends 0); [lia|apply allocates_one].
  - rewrite relu_eval. apply (allocates_appends 0); [lia|apply allocates_one].
  - rewrite sigmoid_eval. apply (allocates_appends 0); [lia|apply allocates_one].
  - rewrite exp_eval. apply (allocates_appends 0); [lia|apply allocates_one].
  - eapply allocates_appends; [|apply add_allocates]. destruct other; lia.
  - destruct other as [n| | |]; try done.
    rewrite pow_eval. apply (allocates_appends 0); [lia|apply allocates_one].
  - eapply allocates_appends; [|apply mul_allocates]. destruct other; lia.
  - eapply allocates_appends; [|apply mul_allocates]. simpl; lia.
  - eapply allocates_appends; [|apply add_allocates]. simpl; lia.
  - destruct other as [r|x]; unfold __truediv__.
    + apply (allocates_appends 1); [lia|].
      apply (allocates_bind 0 0); [rewrite pow_eval; apply allocates_one|].
      intros inv h'. apply (mul_allocates h' self (OValue inv)).
    + eapply allocates_appends; [|apply mul_allocates]. simpl; lia.
  - apply (allocates_appends 2); [lia|]. unfold __rtruediv__.
    apply (allocates_bind 0 1); [rewrite pow_eval; apply allocates_one|].
    intros inv h'. apply (mul_allocates h' inv (ONum other)).
  - eapply allocates_appends; [|apply mul_allocates]. simpl; lia.
  - destruct other as [r|x]; unfold __sub__, __neg__.
    + apply (allocates_appends 2); [lia|].
      apply (allocates_bind 1 0); [apply (mul_allocates h r (ONum (-1)))|].
      intros n h'. apply (add_allocates h' self (OValue n)).
    + eapply allocates_appends; [|apply add_allocates]. simpl; lia.
  - eapply allocates_appends; [|apply add_allocates]. simpl; lia.
Qed.

End Allocation.

Section Passes.
Context `{PyRuntime}.


(** X3.  [backward()] on a node without operands sets its gradient to [1.0]
    and does nothing else; a recursion depth of one is enough. *)
Theorem backward_on_leaf (h : heap) (root fuel : ref) :
  heap_ok h → _prev (h !!! root) = [] → 0 < fuel →
  backward fuel root h = Some (alter (with_grad 1) root h).
Proof.
  intros Hok Hl Hf. destruct fuel as [|fuel]; [lia|].
  unfold backward, backward_order. simpl.
  rewrite decide_False by apply not_elem_of_empty.
  rewrite (grads_only_prev h _ _ (seed_grads_only _ _)), Hl. simpl.
  unfold call_backward.
  rewrite (grads_only_backward h _ _ (seed_grads_only _ _)).
  destruct (_backward (h !!! root)) eqn:Ec; [done|..];
    (assert (Ht : ∃ x, x ∈ targets (_backward (h !!! root)))
       by (rewrite Ec; eexists; by left));
    destruct Ht as (x & Ht%(targets_consumed h root x Hok));
    unfold consumes in Ht; rewrite Hl in Ht; by apply elem_of_nil in Ht.
Qed.

End Passes.

Lemma for_each_visited_from fuel h l :
  (∀ v st st', buildTopo fuel h v st = Some st' →
     ∀ w, w ∈ st'.1 → w ∈ st.1 ∨ reach h v w) →
  ∀ st0 st1, for_each (buildTopo fuel h) l st0 = Some st1 →
  ∀ w, w ∈ st1.1 → w ∈ st0.1 ∨ ∃ c, c ∈ l ∧ reach h c w.
Proof.
  intros IH. induction l as [|c l IHl]; intros st0 st1 E w Hw; simpl in E.
  - injection E as <-. by left.
  - destruct (buildTopo fuel h c st0) as [st2|] eqn:E2; [|done].
    destruct (IHl _ _ E w Hw) as [Hw2|(c' & Hc' & Hr)].
    + destruct (IH _ _ _ E2 w Hw2) as [?|?]; [by left|].
      right. exists c. split; [by left|done].
    + right. exists c'. split; [by right|done].
Qed.

(** The traversal visits nothing but what it is asked to and what that
    reaches. *)
Lemma buildTopo_visited fuel h :
  ∀ v st st', buildTopo fuel h v st = Some st' →
  ∀ w, w ∈ st'.1 → w ∈ st.1 ∨ reach h v w.
Proof.
  induction fuel as [|fuel IH]; intros v st st' E w Hw; [done|].
  simpl in E. case_decide as Hv; [injection E as <-; by left|].
  destruct (for_each (buildTopo fuel h) _ _) as [st1|] eqn:E1; [|done].
  injection E as <-. simpl in Hw.
  destruct (for_each_visited_from fuel h _ IH _ _ E1 w Hw) as [Hw0|(c & Hc & Hr)].
  - simpl in Hw0. apply elem_of_union in Hw0 as [->%elem_of_singleton|?];
      [right; apply rtc_refl|by left].
  - right. eapply rtc_l; [exact Hc|done].
Qed.

Lemma for_each_visited fuel h l :
  ∀ st0 st1, for_each (buildTopo fuel h) l st0 = Some st1 →
  ∀ w, w ∈ st1.1 → w ∈ st0.1 ∨ ∃ c, c ∈ l ∧ reach h c w.
Proof. apply for_each_visited_from, buildTopo_visited. Qed.

Lemma for_each_app {S A} (f : A → S → option S) l1 l2 st :
  for_each f (l1 ++ l2) st
  = match for_each f l1 st with
    | Some st1 => for_each f l2 st1
    | None => None
    end.
Proof.
  revert st. induction l1 as [|x l1 IH]; intros st; simpl; [done|].
  by destruct (f x st).
Qed.

(** The recursion of [buildTopo] goes as deep as a spine is long. *)
Lemma buildTopo_depth h path :
  ∀ fuel v rest st st', path = v :: rest → spine h path → NoDup path →
  (∀ x, x ∈ path → x ∉ st.1) →
  buildTopo fuel h v st = Some st' → length path ≤ fuel.
Proof.
  induction path as [|v0 path IH]; intros fuel v rest st st' Ep Hsp Hnd Hst E;
    [done|].
  injection Ep as <- <-.
  destruct fuel as [|fuel]; [done|]. simpl in E.
  rewrite decide_False in E by (apply Hst; by left).
  destruct path as [|c rest]; [simpl; lia|].
  destruct Hsp as (Hc & Hsib & Hsp).
  apply list_elem_of_split_l in Hc as (l1 & l2 & El & Hcl).
  rewrite El in E. rewrite for_each_app in E.
  destruct (for_each (buildTopo fuel h) l1 _) as [st1|] eqn:E1; [|done].
  simpl in E.
  destruct (buildTopo fuel h c st1) as [st2|] eqn:E2; [|done].
  apply NoDup_cons in Hnd as [Hv0 Hnd].
  enough (length (c :: rest) ≤ fuel) by (simpl in *; lia).
  apply (IH fuel c rest st1 st2); try done.
  intros x Hx Hin.
  destruct (for_each_visited _ _ _ _ _ E1 x Hin) as [Hx0|(c' & Hc' & Hr)].
  - simpl in Hx0. apply elem_of_union in Hx0 as [->%elem_of_singleton|Hx0];
      [done|]. apply (Hst x); [by right|done].
  - refine (Hsib c' _ _ x Hx Hr).
    + rewrite El. apply elem_of_app. by left.
    + by intros ->.
Qed.

Lemma reach_grads_only h h' u w : grads_only h h' → reach h' u w ↔ reach h u w.
Proof.
  intros G. split; induction 1 as [|u c w Hc _ IH]; try done;
    (eapply rtc_l; [|exact IH]); by apply (grads_only_consumes _ _ _ _ G).
Qed.

Lemma spine_grads_only h h' path : grads_only h h' → spine h path → spine h' path.
Proof.
  intros G. induction path as [|v [|c rest] IH]; try done.
  intros (Hc & Hsib & Hsp). split_and!.
  - by rewrite (grads_only_prev _ _ _ G).
  - intros c' Hc' Hne x Hx Hr. rewrite (grads_only_prev _ _ _ G) in Hc'.
    apply (Hsib c' Hc' Hne x Hx). by apply (reach_grads_only _ _ _ _ G).
  - by apply IH.
Qed.

Section Depth.
Context `{PyRuntime}.

Lemma backward_spine (h : heap) (root fuel : ref) (path : list ref) :
  spine h (root :: path) → NoDup (root :: path) →
  fuel < length (root :: path) →
  backward fuel root h = None.
Proof.
  intros Hsp Hnd Hf. unfold backward, backward_order.
  destruct (buildTopo fuel _ root (∅, [])) as [st'|] eqn:E; [|done].
  exfalso.
  assert (Hsp' : spine (alter (with_grad 1) root h) (root :: path)).
  { eapply spine_grads_only; [apply seed_grads_only|done]. }
  pose proof (buildTopo_depth _ _ fuel root path (∅, []) st' eq_refl Hsp' Hnd) as Hd.
  assert (length (root :: path) ≤ fuel); [|lia].
  apply Hd; [|done]. intros x _. apply not_elem_of_empty.
Qed.
(** X4.  [backward] gives up when the graph has a spine longer than the depth
    to which the interpreter lets [buildTopo] recurse: the recursion follows
    the operand edges, one frame per edge of the spine. *)
Theorem backward_needs_depth (h : heap) (root fuel : ref) (path : list ref) :
  spine h (root :: path) → NoDup (root :: path) →
  fuel < length (root :: path) →
  backward fuel root h = None.
Proof. apply backward_spine. Qed.

End Depth.

(* ===================================================================== *)
(** ** The chain rule, one operand edge at a time *)
(* ===================================================================== *)

Lemma heap_ok_app_l h new : heap_ok (h ++ new) → heap_ok h.
Proof. intros Hok i v Hi. apply Hok. by apply lookup_app_l_Some. Qed.

Lemma consumes_app_l h new w c :
  w < length h → consumes (h ++ new) w c ↔ consumes h w c.
Proof. intros Hw. unfold consumes. by rewrite lookup_total_app_l. Qed.

Lemma reach_app_l h new w v :
  heap_ok h → w < length h → reach (h ++ new) w v ↔ reach h w v.
Proof.
  intros Hok Hw. split.
  - induction 1 as [|w c v Hc _ IH]; [done|].
    apply consumes_app_l in Hc; [|done].
    eapply rtc_l; [done|]. apply IH. apply (consumes_lt h Hok) in Hc. lia.
  - induction 1 as [|w c v Hc _ IH]; [done|].
    eapply rtc_l; [by apply consumes_app_l|].
    apply IH. apply (consumes_lt h Hok) in Hc. lia.
Qed.

Lemma grad_iadd_grad r v h x :
  grad (grad_iadd r v h !!! x)
  = if bool_decide (r = x ∧ x < length h) then (grad (h !!! x) + v)%float
    else grad (h !!! x).
Proof.
  unfold grad_iadd. rewrite list_lookup_total_alter.
  case_decide as H1; case_bool_decide as H2; try done.
  - by destruct H1 as [-> _].
  - destruct H2. destruct H1 as [-> ?]. done.
  - destruct H1. destruct H2 as [-> ?]. done.
Qed.

Lemma grad_iadd_data r v h x : data (grad_iadd r v h !!! x) = data (h !!! x).
Proof.
  unfold grad_iadd. rewrite list_lookup_total_alter.
  by case_decide as H1; [destruct H1 as [-> _]|].
Qed.

Lemma length_grad_iadd r v h : length (grad_iadd r v h) = length h.
Proof. apply length_alter. Qed.

Section Local.
Context `{PyRuntime}.

Lemma call_local c h1 h2 x :
  length h1 = length h2 →
  (∀ r, data (h1 !!! r) = data (h2 !!! r)) →
  (∀ o, closure_out c = Some o → grad (h1 !!! o) = grad (h2 !!! o)) →
  grad (h1 !!! x) = grad (h2 !!! x) →
  grad (call c h1 !!! x) = grad (call c h2 !!! x).
Proof.
  intros Hl Hd Ho Hx.
  destruct c; simpl in *; try done;
    rewrite ?grad_iadd_grad, ?grad_iadd_data, ?length_grad_iadd, ?Hd, ?Hl,
      ?(Ho _ eq_refl), ?Hx; try done.
Qed.
End Local.

Lemma grads_only_data h h' r : grads_only h h' → data (h' !!! r) = data (h !!! r).
Proof. intros [_ E]. exact (f_equal data (E r)). Qed.

Section SingleConsumer.
Context `{PyRuntime}.

(** The chain rule, one edge at a time: when [u] is the only reachable node
    that consumes [x], the pass leaves in [x.grad] what the closure of [u]
    adds to it once [u.grad] has its final value. *)
Lemma backward_single_consumer h root fuel h' u x :
  heap_ok h → root < length h → root < fuel →
  backward fuel root h = Some h' →
  reach h root u → x ≠ root →
  (∀ w, reach h root w → consumes h w x → w = u) →
  grad (h' !!! x)
  = grad (call_backward (alter (with_grad (grad (h' !!! u))) u h) u !!! x).
Proof.
  intros Hok Hr Hf B Hu Hxr Hx.
  assert (Hul : u < length h) by (apply (reach_le h Hok) in Hu; lia).
  destruct (backward_unfold h root fuel Hok Hf)
    as (vis & pre & _ & B' & Hn & Hs & Hreach).
  rewrite B in B'.
  set (hs := alter (with_grad 1) root h) in *.
  assert (Gs : grads_only h hs) by apply seed_grads_only.
  assert (Hin : u ∈ root :: reverse pre).
  { rewrite <- reverse_snoc, elem_of_reverse. by apply Hreach. }
  apply list_elem_of_split in Hin as (l1 & l2 & E).
  assert (Hnd : NoDup (l1 ++ u :: l2)).
  { rewrite <- E, <- reverse_snoc. by rewrite reverse_Permutation. }
  assert (Hrl : ∀ w, w ∈ l1 ++ u :: l2 → reach h root w).
  { intros w. rewrite <- E, <- reverse_snoc, elem_of_reverse. apply Hreach. }
  assert (Hpost : pre ++ [root] = reverse l2 ++ u :: reverse l1).
  { rewrite <- (reverse_involutive (pre ++ [root])), reverse_snoc, E.
    by rewrite reverse_app, reverse_cons, <- app_assoc. }
  rewrite E, foldl_app in B'. simpl in B'. injection B' as ->.
  set (hm := foldl call_backward hs l1).
  assert (Gm : grads_only h hm).
  { eapply grads_only_trans; [exact Gs|apply foldl_call_grads_only]. }
  set (ha := call_backward hm u).
  assert (Ga : grads_only h ha).
  { eapply grads_only_trans; [exact Gm|apply call_grads_only]. }
  (* the closures after [u] target neither [x] nor [u] *)
  assert (Hl2x : ∀ w, w ∈ l2 → x ∉ targets (_backward (ha !!! w))).
  { intros w Hw Ht. rewrite (grads_only_backward h _ _ Ga) in Ht.
    apply (targets_consumed h w x Hok) in Ht.
    assert (w = u) as ->.
    { apply Hx; [|done]. apply Hrl, elem_of_app. right. by right. }
    apply NoDup_app in Hnd as (_ & _ & Hnd). by apply NoDup_cons in Hnd as [? _]. }
  assert (Hl2u : ∀ w, w ∈ l2 → u ∉ targets (_backward (ha !!! w))).
  { intros w Hw Ht. rewrite (grads_only_backward h _ _ Ga) in Ht.
    apply (targets_consumed h w u Hok) in Ht.
    apply elem_of_reverse, list_elem_of_split in Hw as (k1 & k2 & Ek).
    rewrite Ek, <- app_assoc in Hpost. simpl in Hpost.
    pose proof (Hs _ _ _ Hpost _ Ht) as Hk.
    apply NoDup_app in Hnd as (_ & _ & Hnd). apply NoDup_cons in Hnd as [Hnd _].
    apply Hnd. rewrite <- elem_of_reverse, Ek. apply elem_of_app. by left. }
  assert (Hl1x : ∀ w, w ∈ l1 → x ∉ targets (_backward (hs !!! w))).
  { intros w Hw Ht. rewrite (grads_only_backward h _ _ Gs) in Ht.
    apply (targets_consumed h w x Hok) in Ht.
    assert (w = u) as ->.
    { apply Hx; [|done]. apply Hrl, elem_of_app. by left. }
    apply NoDup_app in Hnd as (_ & Hnd & _). apply (Hnd u); [done|by left]. }
  assert (Huu : u ∉ targets (_backward (hm !!! u))).
  { intros Ht. rewrite (grads_only_backward h _ _ Gm) in Ht.
    apply (targets_consumed h u u Hok), (consumes_lt h Hok) in Ht. lia. }
  rewrite !foldl_call_frame by done.
  unfold ha at 2. unfold call_backward at 2. rewrite call_frame by done.
  unfold ha, call_backward.
  rewrite (grads_only_backward h _ _ Gm).
  destruct (decide (x = u)) as [->|Hxu].
  { rewrite !call_frame; [by rewrite list_lookup_total_alter_eq|..].
    - rewrite list_lookup_total_alter_eq by done. simpl.
      by rewrite <- (grads_only_backward h _ _ Gm).
    - by rewrite <- (grads_only_backward h _ _ Gm). }
  - rewrite list_lookup_total_alter_eq by done. simpl.
    apply call_local.
    + destruct Gm as [-> _]. by rewrite length_alter.
    + intros r. rewrite (grads_only_data _ _ _ Gm).
      symmetry. apply grads_only_data. by apply grads_only_alter.
    + intros o Ho.
      assert (o = u) as ->.
      { destruct (h !! u) as [v|] eqn:Ev; [|by apply lookup_lt_is_Some in Hul as [? ?]; congruence].
        rewrite (list_lookup_total_correct _ _ _ Ev) in Ho.
        specialize (Hok _ _ Ev). unfold node_okb in Hok.
        rewrite !andb_true_iff in Hok. destruct Hok as [[_ Hc%bool_decide_eq_true] _].
        rewrite Ho in Hc. apply elem_of_cons in Hc as [?|Hc]; [done|].
        apply list_elem_of_singleton in Hc. congruence. }
      by rewrite list_lookup_total_alter_eq.
    + rewrite list_lookup_total_alter_ne by done.
      unfold hm. rewrite foldl_call_frame by done.
      unfold hs. by rewrite list_lookup_total_alter_ne.
Qed.
End SingleConsumer.

(** A path from a node allocated after [h] to a node of [h] leaves the new
    nodes through an operand [c] of one of them. *)
Lemma reach_crossing h new r w :
  heap_ok (h ++ new) → reach (h ++ new) r w → length h ≤ r → w < length h →
  ∃ i N c, new !! i = Some N ∧ c ∈ _prev N ∧ c < length h ∧ reach h c w.
Proof.
  intros Hok1. assert (Hok : heap_ok h) by by eapply heap_ok_app_l.
  induction 1 as [|r c w Hc Hw IH]; intros Hr Hwl; [lia|].
  destruct (decide (c < length h)) as [Hcl|Hcl].
  - exists (r - length h), ((h ++ new) !!! r), c. split_and!; try done.
    + assert (Hrl : r < length (h ++ new)).
      { destruct (decide (r < length (h ++ new))) as [|Hn]; [done|].
        unfold consumes in Hc.
        rewrite list_lookup_total_alt, lookup_ge_None_2 in Hc by lia.
        by apply elem_of_nil in Hc. }
      rewrite <- lookup_app_r by done. by apply list_lookup_lookup_total_lt.
    + by apply reach_app_l in Hw.
  - apply IH; [lia|done].
Qed.

(** The consumers of [x] met from a node allocated after [h]: the new nodes
    that have [x] among their operands, when no other operand of a new node
    reaches [x] in [h]. *)
Lemma consumers_in_extension h new root x (u : ref) :
  heap_ok (h ++ new) → length h ≤ root →
  (∀ i N, new !! i = Some N → x ∈ _prev N → length h + i = u) →
  (∀ i N c, new !! i = Some N → c ∈ _prev N → c < length h → c ≠ x →
            ¬ reach h c x) →
  ∀ w, reach (h ++ new) root w → consumes (h ++ new) w x → w = u.
Proof.
  intros Hok1 Hr Hnew Hold w Hw Hc.
  assert (Hok : heap_ok h) by by eapply heap_ok_app_l.
  destruct (decide (w < length h)) as [Hwl|Hwl].
  - destruct (reach_crossing h new root w Hok1 Hw Hr Hwl)
      as (i & N & c & Hi & Hcp & Hcl & Hcw).
    apply consumes_app_l in Hc; [|done].
    destruct (decide (c = x)) as [->|Hcx].
    + apply (reach_le _ Hok) in Hcw. apply (consumes_lt _ Hok) in Hc. lia.
    + destruct (Hold i N c Hi Hcp Hcl Hcx). by eapply rtc_r.
  - unfold consumes in Hc.
    destruct ((h ++ new) !! w) as [N|] eqn:E.
    + rewrite (list_lookup_total_correct _ _ _ E) in Hc.
      rewrite lookup_app_r in E by lia.
      rewrite <- (Hnew _ _ E Hc). lia.
    + rewrite list_lookup_total_alt, E in Hc. by apply elem_of_nil in Hc.
Qed.

Section Through.
Context `{PyRuntime}.

(** The chain rule for a graph allocated on top of [h]: [u] is the one new
    node that consumes [x]. *)
Lemma grad_through h new root fuel h2 u x :
  heap_ok (h ++ new) → length h ≤ root → root < length (h ++ new) → root < fuel →
  backward fuel root (h ++ new) = Some h2 →
  reach (h ++ new) root u → x ≠ root →
  (∀ i N, new !! i = Some N → x ∈ _prev N → length h + i = u) →
  (∀ i N c, new !! i = Some N → c ∈ _prev N → c < length h → c ≠ x →
            ¬ reach h c x) →
  grad (h2 !!! x)
  = grad (call_backward (alter (with_grad (grad (h2 !!! u))) u (h ++ new)) u
          !!! x).
Proof.
  intros Hok1 Hr Hrl Hf B Hu Hx Hnew Hold.
  apply (backward_single_consumer _ root fuel); try done.
  by apply consumers_in_extension.
Qed.

End Through.

Lemma bool_decide_eq_lt_true (r x n : nat) :
  r = x → x < n → bool_decide (r = x ∧ x < n) = true.
Proof. intros. by apply bool_decide_eq_true. Qed.

Lemma bool_decide_eq_lt_false (r x n : nat) :
  r ≠ x → bool_decide (r = x ∧ x < n) = false.
Proof. intros. apply bool_decide_eq_false. tauto. Qed.

Lemma lookup_total_app_3 (h l : heap) a b c d :
  (h ++ a :: b :: c :: d :: l) !!! S (S (S (length h))) = d.
Proof.
  rewrite lookup_total_app_r by lia.
  by replace (S (S (S (length h))) - length h) with 3 by lia.
Qed.

Lemma alter_app_3 (f : Value → Value) (h l : heap) a b c d :
  alter f (S (S (S (length h)))) (h ++ a :: b :: c :: d :: l)
  = h ++ a :: b :: c :: f d :: l.
Proof.
  replace (S (S (S (length h)))) with (length h + 3) by lia.
  by rewrite alter_app_r.
Qed.

(** Reading attributes of the nodes of [h] and of the nodes appended to it,
    through the [+=] of a closure. *)
Ltac read_heap :=
  repeat first
    [ rewrite grad_iadd_grad | rewrite grad_iadd_data | rewrite length_grad_iadd
    | rewrite alter_app_0 | rewrite alter_app_1 | rewrite alter_app_2
    | rewrite alter_app_3
    | rewrite lookup_total_app_0 | rewrite lookup_total_app_1
    | rewrite lookup_total_app_2 | rewrite lookup_total_app_3
    | rewrite lookup_total_app_l by lia
    | rewrite length_app
    | rewrite bool_decide_eq_lt_true by (simpl; lia)
    | rewrite bool_decide_eq_lt_false by lia
    | progress simpl ].

Section FreshNode.
Context `{PyRuntime}.

(** [backward] from a node [N] that was just allocated over [h]. *)
Lemma backward_fresh_node h N fuel x :
  heap_ok (h ++ [N]) → length h < fuel → x < length h →
  (∀ c, c ∈ _prev N → c ≠ x → ¬ reach h c x) →
  ∃ h2, backward fuel (length h) (h ++ [N]) = Some h2
    ∧ grads_only (h ++ [N]) h2
    ∧ grad (h2 !!! length h) = 1%float
    ∧ grad (h2 !!! x)
      = grad (call (_backward N) (h ++ [with_grad 1 N]) !!! x).
Proof.
  intros Hok1 Hf Hx Hind.
  assert (Hok : heap_ok h) by by eapply heap_ok_app_l.
  destruct (backward_direct (h ++ [N]) (length h) fuel x Hok1 Hf)
    as (h2 & B & G & E).
  { intros w [->|(c & Hc & Hw)]%reach_inv Hne; [done|].
    pose proof (consumes_lt _ Hok1 _ _ Hc) as Hcl.
    unfold consumes in Hc. rewrite lookup_total_new in Hc.
    destruct (decide (c = x)) as [->|Hcx].
    - apply no_consumer_below; [done|]. by apply (reach_le _ Hok1).
    - intros Hwx. apply (Hind c Hc Hcx).
      pose proof (reach_le _ Hok1 _ _ Hw).
      apply reach_app_l in Hw; [|done..].
      eapply rtc_r; [done|]. apply consumes_app_l in Hwx; [done|lia]. }
  destruct (backward_root_grad (h ++ [N]) (length h) fuel Hok1) as (h2' & B' & Er);
    [rewrite length_app; simpl; lia|done|].
  assert (h2' = h2) as -> by congruence.
  exists h2. split_and!; try done.
  rewrite E. unfold call_backward. by rewrite alter_new, lookup_total_new.
Qed.

End FreshNode.

Section Eval.
Context `{PyRuntime}.

(** What the closure at [u] leaves in an operand, once [u.grad] is [g]. *)
Lemma closure_add_self (H' : heap) u a p g :
  u < length H' → a < length H' → a ≠ u → a ≠ p →
  _backward (H' !!! u) = add_backward a p u →
  grad (call_backward (alter (with_grad g) u H') u !!! a)
  = (grad (H' !!! a) + 1 * g)%float.
Proof.
  intros Hu Ha Hau Hap Hc. unfold call_backward.
  rewrite list_lookup_total_alter_eq by done. cbn [_backward with_grad].
  rewrite Hc. cbn [call].
  rewrite !grad_iadd_grad, !length_grad_iadd, !length_alter.
  repeat first [rewrite bool_decide_eq_lt_true by lia
               |rewrite bool_decide_eq_lt_false by lia].
  rewrite list_lookup_total_alter_eq by done.
  by rewrite list_lookup_total_alter_ne by lia.
Qed.

Lemma closure_add_other (H' : heap) u a p g :
  u < length H' → p < length H' → p ≠ u → a ≠ p → a ≠ u →
  _backward (H' !!! u) = add_backward a p u →
  grad (call_backward (alter (with_grad g) u H') u !!! p)
  = (grad (H' !!! p) + 1 * g)%float.
Proof.
  intros Hu Hp Hpu Hap Hau Hc. unfold call_backward.
  rewrite list_lookup_total_alter_eq by done. cbn [_backward with_grad].
  rewrite Hc. cbn [call].
  rewrite !grad_iadd_grad, !length_grad_iadd, !length_alter.
  repeat first [rewrite bool_decide_eq_lt_true by lia
               |rewrite bool_decide_eq_lt_false by lia].
  rewrite list_lookup_total_alter_eq by done.
  by rewrite list_lookup_total_alter_ne by lia.
Qed.

Lemma closure_mul_self (H' : heap) u a c g :
  u < length H' → a < length H' → a ≠ u → a ≠ c →
  _backward (H' !!! u) = mul_backward a c u →
  grad (call_backward (alter (with_grad g) u H') u !!! a)
  = (grad (H' !!! a) + data (H' !!! c) * g)%float.
Proof.
  intros Hu Ha Hau Hac Hc. unfold call_backward.
  rewrite list_lookup_total_alter_eq by done. cbn [_backward with_grad].
  rewrite Hc. cbn [call].
  rewrite !grad_iadd_grad, !length_grad_iadd, !length_alter.
  repeat first [rewrite bool_decide_eq_lt_true by lia
               |rewrite bool_decide_eq_lt_false by lia].
  rewrite list_lookup_total_alter_eq by done.
  rewrite list_lookup_total_alter_ne by lia. cbn [grad with_grad].
  do 2 f_equal. apply grads_only_data. by apply grads_only_alter.
Qed.

Lemma closure_tanh (H' : heap) u a t g :
  u < length H' → a < length H' → a ≠ u →
  _backward (H' !!! u) = tanh_backward a u t →
  grad (call_backward (alter (with_grad g) u H') u !!! a)
  = (grad (H' !!! a) + (1 - float_pow t 2) * g)%float.
Proof.
  intros Hu Ha Hau Hc. unfold call_backward.
  rewrite list_lookup_total_alter_eq by done. cbn [_backward with_grad].
  rewrite Hc. cbn [call].
  rewrite !grad_iadd_grad, !length_alter.
  repeat first [rewrite bool_decide_eq_lt_true by lia
               |rewrite bool_decide_eq_lt_false by lia].
  rewrite list_lookup_total_alter_eq by done.
  by rewrite list_lookup_total_alter_ne by lia.
Qed.

End Eval.

(* ===================================================================== *)
(** ** Derivatives of the operations *)
(* ===================================================================== *)

(** Adding to [0.0] a second time changes nothing. *)
Lemma float_add_0_l_idemp (x : float) : (0 + (0 + x))%float = (0 + x)%float.
Proof.
  apply Prim2SF_inj. rewrite !add_spec.
  change (Prim2SF 0) with (S754_zero false).
  by destruct (Prim2SF x) as [[]|[]| |s m e].
Qed.

Lemma float_opp_involutive (x : float) : (- - x)%float = x.
Proof.
  apply Prim2SF_inj. rewrite !opp_spec.
  destruct (Prim2SF x) as [s|s| |s m e]; simpl; by rewrite ?negb_involutive.
Qed.

Section Operations.
Context `{PyRuntime}.
Hypothesis set_order_perm : ∀ l, set_order l ≡ₚ remove_dups l.

Lemma binary_operands (a b : ref) c :
  c ∈ set_order [a; b] → c = a ∨ c = b.
Proof.
  rewrite (elem_of_set_order set_order_perm).
  intros [->| ->%list_elem_of_singleton]%elem_of_cons; auto.
Qed.

(** X5.  [a * b] on two nodes neither of which is computed from the other:
    [backward()] from the product adds [b.data] to [a.grad] and [a.data] to
    [b.grad], whatever the gradients were, and leaves [1.0] in the product. *)
Theorem mul_product_rule (h : heap) (a b fuel : ref) :
  heap_ok h → a < length h → b < length h → length h < fuel →
  ¬ reach h a b → ¬ reach h b a →
  ∃ out h1 h2,
    __mul__ a (OValue b) h = Ok out h1
    ∧ data (h1 !!! out) = (data (h !!! a) * data (h !!! b))%float
    ∧ backward fuel out h1 = Some h2
    ∧ grad (h2 !!! a) = (grad (h !!! a) + data (h !!! b))%float
    ∧ grad (h2 !!! b) = (grad (h !!! b) + data (h !!! a))%float
    ∧ grad (h2 !!! out) = 1%float.
Proof.
  intros Hok Ha Hb Hf Hab Hba.
  assert (a ≠ b) by (intros ->; by apply Hab).
  pose proof (mul_grows_ok set_order_perm h a (OValue b) Hok Ha Hb) as G.
  rewrite mul_eval in *. destruct G as (Hok1 & _).
  set (N := mkValue _ _ _ _ _ _) in *.
  destruct (backward_fresh_node h N fuel a Hok1 Hf Ha) as (h2 & B & _ & Er & Ea).
  { intros c [->| ->]%binary_operands; done. }
  destruct (backward_fresh_node h N fuel b Hok1 Hf Hb) as (h2' & B' & _ & _ & Eb).
  { intros c [->| ->]%binary_operands; done. }
  assert (h2' = h2) as -> by congruence.
  exists (length h), (h ++ [N]), h2. split_and!; try done.
  - by rewrite lookup_total_new.
  - rewrite Ea. read_heap. by rewrite float_mul_1_r.
  - rewrite Eb. read_heap. by rewrite float_mul_1_r.
Qed.

(** X6.  [a + b] on two nodes neither of which is computed from the other:
    [backward()] from the sum adds [1.0] to the gradient of each. *)
Theorem add_sum_rule (h : heap) (a b fuel : ref) :
  heap_ok h → a < length h → b < length h → length h < fuel →
  ¬ reach h a b → ¬ reach h b a →
  ∃ out h1 h2,
    __add__ a (OValue b) h = Ok out h1
    ∧ data (h1 !!! out) = (data (h !!! a) + data (h !!! b))%float
    ∧ backward fuel out h1 = Some h2
    ∧ grad (h2 !!! a) = (grad (h !!! a) + 1)%float
    ∧ grad (h2 !!! b) = (grad (h !!! b) + 1)%float
    ∧ grad (h2 !!! out) = 1%float.
Proof.
  intros Hok Ha Hb Hf Hab Hba.
  assert (a ≠ b) by (intros ->; by apply Hab).
  pose proof (add_grows_ok set_order_perm h a (OValue b) Hok Ha Hb) as G.
  rewrite add_eval in *. destruct G as (Hok1 & _).
  set (N := mkValue _ _ _ _ _ _) in *.
  destruct (backward_fresh_node h N fuel a Hok1 Hf Ha) as (h2 & B & _ & Er & Ea).
  { intros c [->| ->]%binary_operands; done. }
  destruct (backward_fresh_node h N fuel b Hok1 Hf Hb) as (h2' & B' & _ & _ & Eb).
  { intros c [->| ->]%binary_operands; done. }
  assert (h2' = h2) as -> by congruence.
  exists (length h), (h ++ [N]), h2. split_and!; try done.
  - by rewrite lookup_total_new.
  - rewrite Ea. by read_heap.
  - rewrite Eb. by read_heap.
Qed.

Lemma set_order_twice (x : ref) : set_order [x; x] = [x].
Proof.
  apply Permutation_singleton_r. rewrite set_order_perm. simpl.
  case_decide as Hd; [done|]. destruct Hd. by left.
Qed.

(** X7.  A node used as both operands. The set of operands of [x * x] and of
    [x + x] has the one element [x]; the closure still adds to [x.grad] once
    per operand: twice [x.data] for the product, twice [1.0] for the sum. *)
Theorem same_operand_twice (h : heap) (x fuel : ref) :
  heap_ok h → x < length h → length h < fuel →
  (∃ out h1 h2,
     __mul__ x (OValue x) h = Ok out h1
     ∧ _prev (h1 !!! out) = [x]
     ∧ backward fuel out h1 = Some h2
     ∧ grad (h2 !!! x)
       = (grad (h !!! x) + data (h !!! x) + data (h !!! x))%float)
  ∧ (∃ out h1 h2,
       __add__ x (OValue x) h = Ok out h1
       ∧ _prev (h1 !!! out) = [x]
       ∧ backward fuel out h1 = Some h2
       ∧ grad (h2 !!! x) = (grad (h !!! x) + 1 + 1)%float).
Proof.
  intros Hok Hx Hf. split.
  - pose proof (mul_grows_ok set_order_perm h x (OValue x) Hok Hx Hx) as G.
    rewrite mul_eval in *. destruct G as (Hok1 & _).
    set (N := mkValue _ _ _ _ _ _) in *.
    destruct (backward_fresh_node h N fuel x Hok1 Hf Hx) as (h2 & B & _ & _ & Ex).
    { intros c [->| ->]%binary_operands; done. }
    exists (length h), (h ++ [N]), h2. split_and!; try done.
    + rewrite lookup_total_new. apply set_order_twice.
    + rewrite Ex. read_heap. by rewrite float_mul_1_r.
  - pose proof (add_grows_ok set_order_perm h x (OValue x) Hok Hx Hx) as G.
    rewrite add_eval in *. destruct G as (Hok1 & _).
    set (N := mkValue _ _ _ _ _ _) in *.
    destruct (backward_fresh_node h N fuel x Hok1 Hf Hx) as (h2 & B & _ & _ & Ex).
    { intros c [->| ->]%binary_operands; done. }
    exists (length h), (h ++ [N]), h2. split_and!; try done.
    + rewrite lookup_total_new. apply set_order_twice.
    + rewrite Ex. by read_heap.
Qed.

Lemma no_operands c : c ∉ set_order [].
Proof. rewrite (set_order_nil set_order_perm). apply not_elem_of_nil. Qed.

(** [backward] from a node [N] over [x] and the leaf [L], both just
    allocated. *)
Lemma backward_pair h L N x fuel :
  heap_ok (h ++ [L; N]) → S (length h) < fuel → x < length h →
  _prev L = set_order [] →
  (∀ c, c ∈ _prev N → c = x ∨ c = length h) →
  ∃ h2, backward fuel (S (length h)) (h ++ [L; N]) = Some h2
    ∧ grad (h2 !!! S (length h)) = 1%float
    ∧ grad (h2 !!! x)
      = grad (call (_backward N) (h ++ [L; with_grad 1 N]) !!! x)
    ∧ grad (h2 !!! length h)
      = grad (call (_backward N) (h ++ [L; with_grad 1 N]) !!! length h).
Proof.
  intros Hok1 Hf Hx HL HN.
  assert (Hok : heap_ok h) by by eapply heap_ok_app_l.
  assert (Hr : S (length h) < length (h ++ [L; N]))
    by (rewrite length_app; simpl; lia).
  destruct (backward_root_grad _ (S (length h)) fuel Hok1 Hr Hf)
    as (h2 & B & Er).
  assert (Hnew : ∀ y i N', [L; N] !! i = Some N' →
                 y ∈ _prev N' → length h + i = S (length h)).
  { intros y [|[|]] N' [= <-]; [rewrite HL; by intros ?%no_operands|lia]. }
  assert (Hold : ∀ y, y = x ∨ y = length h →
                 ∀ i N' c', [L; N] !! i = Some N' →
                 c' ∈ _prev N' → c' < length h → c' ≠ y → ¬ reach h c' y).
  { intros y Hy [|[|]] N' c' [= <-]; [rewrite HL; by intros ?%no_operands|].
    intros [->| ->]%HN ? Hne Hre%(reach_le h Hok); lia. }
  exists h2. split_and!; try done.
  - rewrite (grad_through h [L; N] (S (length h)) fuel h2 (S (length h)) x);
      try done; try lia; [|by apply Hnew|by apply Hold; left].
    rewrite Er. unfold call_backward. by rewrite alter_app_1, lookup_total_app_1.
  - rewrite (grad_through h [L; N] (S (length h)) fuel h2 (S (length h))
               (length h)); try done; try lia; [|by apply Hnew|by apply Hold; right].
    rewrite Er. unfold call_backward. by rewrite alter_app_1, lookup_total_app_1.
Qed.

(** X8.  [-x] holds the negated number, and [backward()] from it adds [-1.0]
    to [x.grad]. *)
Theorem neg_value_and_gradient (h : heap) (x fuel : ref) :
  heap_ok h → x < length h → S (length h) < fuel →
  ∃ out h1 h2,
    __neg__ x h = Ok out h1
    ∧ data (h1 !!! out) = (- data (h !!! x))%float
    ∧ backward fuel out h1 = Some h2
    ∧ grad (h2 !!! x) = (grad (h !!! x) + -1)%float.
Proof.
  intros Hok Hx Hf.
  pose proof (mul_grows_ok set_order_perm h x (ONum (-1)) Hok Hx I) as G.
  unfold __neg__. rewrite mul_num_eval in * by done.
  destruct G as (Hok1 & _ & Hr).
  destruct (backward_pair _ _ _ x fuel Hok1 Hf Hx eq_refl)
    as (h2 & B & Er & Ex & El); [apply binary_operands|].
  do 3 eexists. split_and!; try done.
  - rewrite lookup_total_app_1. apply float_mul_m1_r.
  - rewrite Ex. by read_heap.
Qed.

(** X9.  A raw number on the left goes through [__rmul__] and [__radd__]: it
    is wrapped in a new leaf, which is the second operand of the node. *)
Theorem number_on_the_left (h : heap) (x fuel : ref) (c : float) :
  heap_ok h → x < length h → S (length h) < fuel →
  (∃ out h1 h2,
     __rmul__ x c h = Ok out h1
     ∧ data (h1 !!! out) = (data (h !!! x) * c)%float
     ∧ data (h1 !!! length h) = c
     ∧ backward fuel out h1 = Some h2
     ∧ grad (h2 !!! x) = (grad (h !!! x) + c)%float
     ∧ grad (h2 !!! length h) = (0 + data (h !!! x))%float)
  ∧ (∃ out h1 h2,
       __radd__ x c h = Ok out h1
       ∧ data (h1 !!! out) = (data (h !!! x) + c)%float
       ∧ data (h1 !!! length h) = c
       ∧ backward fuel out h1 = Some h2
       ∧ grad (h2 !!! x) = (grad (h !!! x) + 1)%float
       ∧ grad (h2 !!! length h) = 1%float).
Proof.
  intros Hok Hx Hf. split.
  - pose proof (mul_grows_ok set_order_perm h x (ONum c) Hok Hx I) as G.
    unfold __rmul__. rewrite mul_num_eval in * by done.
    destruct G as (Hok1 & _ & Hr).
    destruct (backward_pair _ _ _ x fuel Hok1 Hf Hx eq_refl)
      as (h2 & B & Er & Ex & El); [apply binary_operands|].
    do 3 eexists. split_and!; try done.
    + by rewrite lookup_total_app_1.
    + by rewrite lookup_total_app_0.
    + rewrite Ex. read_heap. by rewrite float_mul_1_r.
    + rewrite El. read_heap. by rewrite float_mul_1_r.
  - pose proof (add_grows_ok set_order_perm h x (ONum c) Hok Hx I) as G.
    unfold __radd__. rewrite add_num_eval in * by done.
    destruct G as (Hok1 & _ & Hr).
    destruct (backward_pair _ _ _ x fuel Hok1 Hf Hx eq_refl)
      as (h2 & B & Er & Ex & El); [apply binary_operands|].
    do 3 eexists. split_and!; try done.
    + by rewrite lookup_total_app_1.
    + by rewrite lookup_total_app_0.
    + rewrite Ex. by read_heap.
    + rewrite El. by read_heap.
Qed.

(** X10.  Subtracting a raw number, from either side: [x - c] and [c - x] run
    the same code, so both hold [x.data - c] and both pass the gradient [+1.0]
    on to [x]. *)
Theorem rsub_coincides_with_sub (h : heap) (x fuel : ref) (c : float) :
  heap_ok h → x < length h → S (length h) < fuel →
  ∃ out h1 h2,
    __rsub__ x c h = Ok out h1
    ∧ __sub__ x (ONum c) h = Ok out h1
    ∧ data (h1 !!! out) = (data (h !!! x) - c)%float
    ∧ backward fuel out h1 = Some h2
    ∧ grad (h2 !!! x) = (grad (h !!! x) + 1)%float.
Proof.
  intros Hok Hx Hf.
  pose proof (add_grows_ok set_order_perm h x (ONum (- c)) Hok Hx I) as G.
  unfold __rsub__, __sub__. rewrite add_num_eval in * by done.
  destruct G as (Hok1 & _ & Hr).
  destruct (backward_pair _ _ _ x fuel Hok1 Hf Hx eq_refl)
    as (h2 & B & Er & Ex & El); [apply binary_operands|].
  do 3 eexists. split_and!; try done.
  - rewrite lookup_total_app_1. apply float_add_opp.
  - rewrite Ex. by read_heap.
Qed.

Lemma neg_eval x h :
  x < length h →
  __neg__ x h
  = Ok (S (length h))
      (h ++ [mkValue (-1) 0 lambda_None (set_order []) (Tag "") "";
             mkValue (data (h !!! x) * -1)
               0 (mul_backward x (length h) (S (length h)))
               (set_order [x; length h]) (Tag "*") ""]).
Proof. intros Hx. unfold __neg__. by rewrite mul_num_eval. Qed.

(** X11.  Negating twice gives the number back, bit for bit, and [backward()]
    from the result adds [(-1.0) * (-1.0) = 1.0] to [x.grad]. *)
Theorem neg_neg_round_trip (h : heap) (x fuel : ref) :
  heap_ok h → x < length h → S (S (S (length h))) < fuel →
  ∃ n1 h1 n2 h2 h3,
    __neg__ x h = Ok n1 h1 ∧ __neg__ n1 h1 = Ok n2 h2
    ∧ data (h2 !!! n2) = data (h !!! x)
    ∧ backward fuel n2 h2 = Some h3
    ∧ grad (h3 !!! n1) = (-1)%float
    ∧ grad (h3 !!! x) = (grad (h !!! x) + 1)%float.
Proof.
  intros Hok Hx Hf.
  pose proof (mul_grows_ok set_order_perm h x (ONum (-1)) Hok Hx I) as G.
  pose proof (neg_eval x h Hx) as E1.
  unfold __neg__ in G. rewrite mul_num_eval in G by done.
  destruct G as (Hok1 & _ & Hr1).
  set (T1 := mkValue (-1) _ lambda_None _ _ _) in *.
  set (M1 := mkValue _ _ (mul_backward _ _ _) _ _ _) in *.
  set (h1 := h ++ [T1; M1]) in *.
  assert (Hl1 : length h1 = S (S (length h)))
    by (unfold h1; rewrite length_app; simpl; lia).
  pose proof (mul_grows_ok set_order_perm h1 (S (length h)) (ONum (-1)) Hok1 Hr1 I) as G.
  pose proof (neg_eval (S (length h)) h1 Hr1) as E2.
  unfold __neg__ in G. rewrite mul_num_eval in G by done.
  destruct G as (Hok2 & _ & Hr2).
  set (T2 := mkValue (-1) _ lambda_None _ _ _) in E2, Hok2, Hr2.
  set (M2 := mkValue _ _ (mul_backward _ _ _) _ _ _) in E2, Hok2, Hr2.
  destruct (backward_pair h1 T2 M2 (S (length h)) fuel Hok2)
    as (h3 & B & Er & En & _); try done; try lia.
  { apply binary_operands. }
  assert (Egn : grad (h3 !!! S (length h)) = (-1)%float).
  { rewrite En. read_heap. unfold h1. by read_heap. }
  exists (S (length h)), h1, (S (length h1)), (h1 ++ [T2; M2]), h3.
  split_and!; try done.
  - rewrite lookup_total_app_1. simpl. unfold h1. rewrite lookup_total_app_1. simpl.
    by rewrite !float_mul_m1_r, float_opp_involutive.
  - revert B Hok2. rewrite Hl1. unfold h1. rewrite <- app_assoc. simpl.
    intros B Hok2.
    rewrite (grad_through h [T1; M1; T2; M2] (S (S (S (length h)))) fuel h3
               (S (length h)) x); try done; try lia.
    + rewrite Egn. unfold call_backward. by read_heap.
    + rewrite length_app. simpl. lia.
    + eapply rtc_l; [|done]. unfold consumes. rewrite lookup_total_app_3. simpl.
      apply (elem_of_set_order set_order_perm). rewrite Hl1. by left.
    + intros [|[|[|[|]]]] N' [= <-]; simpl; try (by intros ?%no_operands); try lia.
      rewrite Hl1. intros [->| ->]%binary_operands; lia.
    + intros [|[|[|[|]]]] N' c [= <-]; simpl; try (by intros ?%no_operands).
      * intros [->| ->]%binary_operands; [done|lia].
      * rewrite Hl1. intros [->| ->]%binary_operands; lia.
Qed.

Lemma unary_operand (a : ref) c : c ∈ set_order [a] → c = a.
Proof.
  rewrite (elem_of_set_order set_order_perm). by intros ->%list_elem_of_singleton.
Qed.



Lemma rtruediv_eval x c h :
  __rtruediv__ x c h
  = Ok (S (S (length h)))
      (h ++ [mkValue (float_pow (data (h !!! x)) (-1))
               0 (pow_backward x (NInt (-1)) (length h)) (set_order [x])
               (TagPow (NInt (-1))) "";
             mkValue c 0 lambda_None (set_order []) (Tag "") "";
             mkValue (float_pow (data (h !!! x)) (-1) * c)
               0 (mul_backward (length h) (S (length h)) (S (S (length h))))
               (set_order [length h; S (length h)]) (Tag "*") ""]).
Proof.
  unfold __rtruediv__, __rmul__, mbind, M_bind.
  rewrite pow_eval, mul_num_eval by (rewrite length_app; simpl; lia).
  rewrite length_app, <- app_assoc. simpl.
  rewrite lookup_total_new.
  by rewrite Nat.add_1_r.
Qed.


(** X14.  Division with a raw number.  For a [c] in the range where
    [c ** -1] returns, [x / c] multiplies by that float power.  For an [x]
    whose value is in that range, [c / x] is [c * x**-1], the operands the
    right way round. *)
Theorem truediv_with_number (h : heap) (x fuel : ref) (c : float) :
  heap_ok h → x < length h → S (S (length h)) < fuel →
  (reciprocal_in_range c →
   ∃ out h1 h2,
     __truediv__ x (ONum c) h = Ok out h1
     ∧ data (h1 !!! out) = (data (h !!! x) * float_pow c (-1))%float
     ∧ backward fuel out h1 = Some h2
     ∧ grad (h2 !!! x) = (grad (h !!! x) + float_pow c (-1))%float)
  ∧ (reciprocal_in_range (data (h !!! x)) →
     ∃ out h1 h2,
       __rtruediv__ x c h = Ok out h1
       ∧ data (h1 !!! out) = (float_pow (data (h !!! x)) (-1) * c)%float
       ∧ backward fuel out h1 = Some h2
       ∧ grad (h2 !!! x)
         = (grad (h !!! x)
            + -1 * float_pow (data (h !!! x)) (-2) * (0 + c))%float).
Proof.
  intros Hok Hx Hf. split; intros _.
  - pose proof (mul_grows_ok set_order_perm h x (ONum (float_pow c (-1))) Hok Hx I) as G.
    unfold __truediv__. rewrite mul_num_eval in * by done.
    destruct G as (Hok1 & _ & Hr).
    destruct (backward_pair _ _ _ x fuel Hok1) as (h2 & B & Er & Ex & El);
      try done; try lia; [apply binary_operands|].
    do 3 eexists. split_and!; try done.
    + by rewrite lookup_total_app_1.
    + rewrite Ex. read_heap. by rewrite float_mul_1_r.
  - pose proof (run_call_grows_ok set_order_perm h (call_rtruediv x c) Hok Hx) as G.
    cbn [run_call] in G. rewrite rtruediv_eval in *.
    destruct G as (Hok1 & _ & Hr).
    set (P := mkValue _ _ (pow_backward _ _ _) _ _ _) in *.
    set (L := mkValue c _ lambda_None _ _ _) in *.
    set (Mn := mkValue _ _ (mul_backward _ _ _) _ _ _) in *.
    destruct (backward_root_grad _ (S (S (length h))) fuel Hok1 Hr Hf)
      as (h2 & B & Er).
    assert (Hp : grad (h2 !!! length h) = (0 + c)%float).
    { rewrite (grad_through h [P; L; Mn] (S (S (length h))) fuel h2
                 (S (S (length h))) (length h)); try done; try lia.
      - rewrite Er. unfold call_backward. read_heap. by rewrite float_mul_1_r.
      - intros [|[|[|]]] N' [= <-]; simpl; try (by intros ?%no_operands).
        + intros ?%unary_operand; lia.
        + lia.
      - intros [|[|[|]]] N' c' [= <-]; simpl; try (by intros ?%no_operands).
        + intros ->%unary_operand ? ? ?%(reach_le h Hok); lia.
        + intros [->| ->]%binary_operands; lia. }
    exists (S (S (length h))), (h ++ [P; L; Mn]), h2. split_and!; try done.
    + by rewrite lookup_total_app_2.
    + rewrite (grad_through h [P; L; Mn] (S (S (length h))) fuel h2 (length h) x);
        try done; try lia.
      * rewrite Hp. unfold call_backward. by read_heap.
      * apply rtc_once. unfold consumes. rewrite lookup_total_app_2. simpl.
        apply (elem_of_set_order set_order_perm). by left.
      * intros [|[|[|]]] N' [= <-]; simpl; try (by intros ?%no_operands).
        -- lia.
        -- intros [?|?]%binary_operands; lia.
      * intros [|[|[|]]] N' c' [= <-]; simpl; try (by intros ?%no_operands).
        -- by intros ->%unary_operand.
        -- intros [->| ->]%binary_operands; lia.
Qed.

(** X15.  The power rule, for a base and an exponent in the range where
    [x ** n] and the [x ** (n - 1)] of the closure return a float.  Every
    number is accepted as the exponent, a bool included; the node holds the
    float power and [backward()] adds [n * x.data ** (n - 1)] to [x.grad]. *)
Theorem pow_power_rule (h : heap) (x fuel : ref) (n : number) :
  heap_ok h → x < length h → length h < fuel →
  pow_in_range (data (h !!! x)) n →
  ∃ out h1 h2,
    __pow__ x (PyNum n) h = Ok out h1
    ∧ data (h1 !!! out) = float_pow (data (h !!! x)) (float_of_number n)
    ∧ _op (h1 !!! out) = TagPow n
    ∧ backward fuel out h1 = Some h2
    ∧ grad (h2 !!! x)
      = (grad (h !!! x)
         + float_of_number n
           * float_pow (data (h !!! x)) (float_of_number (number_pred n)))%float.
Proof.
  intros Hok Hx Hf _.
  pose proof (pow_grows_ok set_order_perm h x (PyNum n) Hok Hx) as G.
  rewrite pow_eval in *. destruct G as (Hok1 & _).
  set (N := mkValue _ _ _ _ _ _) in *.
  destruct (backward_fresh_node h N fuel x Hok1 Hf Hx) as (h2 & B & _ & _ & Ex).
  { by intros c ->%unary_operand. }
  exists (length h), (h ++ [N]), h2. split_and!; try done.
  - by rewrite lookup_total_new.
  - by rewrite lookup_total_new.
  - rewrite Ex. read_heap. by rewrite float_mul_1_r.
Qed.

(** X16.  The activations other than [relu], each for an [x] at which its
    call of [math.exp] returns: [backward()] from the output adds the
    derivative, computed from the output value, to [x.grad]. *)
Theorem activation_gradients (h : heap) (x fuel : ref) :
  heap_ok h → x < length h → length h < fuel →
  (exp_in_range (2 * data (h !!! x)) →
   ∃ out h1 h2,
     tanh x h = Ok out h1 ∧ backward fuel out h1 = Some h2
     ∧ grad (h2 !!! x)
       = (grad (h !!! x) + (1 - float_pow (data (h1 !!! out)) 2))%float)
  ∧ (exp_in_range (-1 * data (h !!! x)) →
     ∃ out h1 h2,
       sigmoid x h = Ok out h1 ∧ backward fuel out h1 = Some h2
       ∧ grad (h2 !!! x)
         = (grad (h !!! x)
            + data (h1 !!! out) * (1 - data (h1 !!! out)))%float)
  ∧ (exp_in_range (data (h !!! x)) →
     ∃ out h1 h2,
       exp x h = Ok out h1 ∧ backward fuel out h1 = Some h2
       ∧ data (h1 !!! out) = math_exp (data (h !!! x))
       ∧ grad (h2 !!! x) = (grad (h !!! x) + data (h1 !!! out))%float).
Proof.
  intros Hok Hx Hf. split_and!; intros _.
  - pose proof (run_call_grows_ok set_order_perm h (call_tanh x) Hok Hx) as G.
    cbn [run_call] in G. rewrite tanh_eval in *. destruct G as (Hok1 & _).
    set (N := mkValue _ _ _ _ _ _) in *.
    destruct (backward_fresh_node h N fuel x Hok1 Hf Hx) as (h2 & B & _ & _ & Ex).
    { by intros c ->%unary_operand. }
    exists (length h), (h ++ [N]), h2. split_and!; try done.
    rewrite Ex. read_heap. by rewrite float_mul_1_r.
  - pose proof (run_call_grows_ok set_order_perm h (call_sigmoid x) Hok Hx) as G.
    cbn [run_call] in G. rewrite sigmoid_eval in *. destruct G as (Hok1 & _).
    set (N := mkValue _ _ _ _ _ _) in *.
    destruct (backward_fresh_node h N fuel x Hok1 Hf Hx) as (h2 & B & _ & _ & Ex).
    { by intros c ->%unary_operand. }
    exists (length h), (h ++ [N]), h2. split_and!; try done.
    rewrite Ex. read_heap. by rewrite float_mul_1_r.
  - pose proof (run_call_grows_ok set_order_perm h (call_exp x) Hok Hx) as G.
    cbn [run_call] in G. rewrite exp_eval in *. destruct G as (Hok1 & _).
    set (N := mkValue _ _ _ _ _ _) in *.
    destruct (backward_fresh_node h N fuel x Hok1 Hf Hx) as (h2 & B & _ & _ & Ex).
    { by intros c ->%unary_operand. }
    exists (length h), (h ++ [N]), h2. split_and!; try done.
    + by rewrite lookup_total_new.
    + rewrite Ex. read_heap. by rewrite float_mul_1_r.
Qed.

(** X17.  [relu] never returns a negative number, and applying it to its own
    output changes nothing. *)
Theorem relu_idempotent (h : heap) (x : ref) :
  ∃ r1 h1 r2 h2,
    relu x h = Ok r1 h1 ∧ relu r1 h1 = Ok r2 h2
    ∧ (data (h1 !!! r1) <? 0)%float = false
    ∧ data (h2 !!! r2) = data (h1 !!! r1).
Proof.
  do 4 eexists. rewrite !relu_eval. split_and!; try reflexivity.
  - rewrite lookup_total_new. simpl. by destruct (data (h !!! x) <? 0)%float eqn:E.
  - rewrite !lookup_total_new. simpl.
    by destruct (data (h !!! x) <? 0)%float eqn:E; rewrite ?E.
Qed.

End Operations.

(* ===================================================================== *)
(** ** nn.py: what the constructors allocate *)
(* ===================================================================== *)

Section Init.
Context `{PyRuntime} `{nn.PyRandom}.

Lemma draws_app a b g :
  draws (a + b) g
  = ((draws a g).1 ++ (draws b (draws a g).2).1, (draws b (draws a g).2).2).
Proof.
  revert g. induction a as [|a IH]; intros g; simpl.
  - by destruct (draws b g).
  - destruct (nn.random_uniform (-1) 1 g) as [d g1]. rewrite IH.
    by destruct (draws a g1) as [ds g2].
Qed.

Lemma constructs_random_Value :
  constructs nn.random_Value 1 (λ v, [v]) (λ _, True).
Proof.
  intros g h. unfold nn.random_Value. simpl.
  destruct (nn.random_uniform (-1) 1 g) as [d g1]. by eexists.
Qed.

Lemma length_draws k g : length (draws k g).1 = k.
Proof.
  revert g. induction k as [|k IH]; intros g; simpl; [done|].
  destruct (nn.random_uniform (-1) 1 g) as [d g1].
  specialize (IH g1). destruct (draws k g1). simpl in *. lia.
Qed.

Lemma constructs_comprehension {A B} (f : A → nn.rng → M (B * nn.rng))
    (size : A → nat) (params : B → list ref) (shape : A → B → Prop)
    (l : list A) :
  (∀ i, i ∈ l → constructs (f i) (size i) params (shape i)) →
  constructs (nn.comprehension f l) (sum_list_with size l)
    (λ ys, concat (params <$> ys)) (Forall2 shape l).
Proof.
  induction l as [|i l IH]; intros Hf g h.
  - exists []. simpl. by rewrite app_nil_r.
  - destruct (Hf i (list_elem_of_here _ _) g h) as (y & E & P & Sh).
    destruct (IH (λ j Hj, Hf j (list_elem_of_further _ _ _ Hj))
                (draws (size i) g).2 (h ++ (leaf <$> (draws (size i) g).1)))
      as (ys & E' & P' & Sh').
    exists (y :: ys). cbn [nn.comprehension sum_list_with].
    unfold mbind, M_bind at 1. rewrite E. cbn beta iota.
    unfold mbind, M_bind at 1. rewrite E'. cbn beta iota.
    rewrite draws_app. cbn [fst snd]. rewrite fmap_app, app_assoc.
    split_and!; try done.
    + cbn [fmap list_fmap concat]. rewrite P, P'.
      rewrite length_app, length_fmap, length_draws. by rewrite seq_app.
    + by constructor.
Qed.

Lemma sum_list_with_const {A} (k : nat) (l : list A) :
  sum_list_with (λ _, k) l = length l * k.
Proof. induction l as [|x l IH]; simpl; [done|]. by rewrite IH. Qed.

Lemma constructs_Neuron_init nin :
  constructs (nn.Neuron_init nin) (S (Z.to_nat nin)) nn.Neuron_parameters
    (λ n, length (nn.w n) = Z.to_nat nin).
Proof.
  intros g h. unfold nn.Neuron_init.
  destruct (constructs_comprehension (λ _ : nat, nn.random_Value) (λ _, 1)
              (λ v, [v]) (λ _ _, True) (nn.range nin)
              (λ _ _, constructs_random_Value) g h) as (ws & E & P & Sh).
  assert (Hs : sum_list_with (λ _ : nat, 1) (nn.range nin) = Z.to_nat nin).
  { rewrite sum_list_with_const. unfold nn.range. rewrite length_seq. lia. }
  rewrite Hs in *.
  assert (Hw : concat ((λ v : ref, [v]) <$> ws) = ws).
  { clear. induction ws as [|x ws IH]; [done|]. simpl. by f_equal. }
  cbn beta in P. rewrite Hw in P.
  unfold mbind, M_bind at 1. rewrite E. cbn beta iota.
  destruct (constructs_random_Value (draws (Z.to_nat nin) g).2
              (h ++ (leaf <$> (draws (Z.to_nat nin) g).1)))
    as (v & E' & P' & _).
  unfold mbind, M_bind at 1. rewrite E'. cbn beta iota.
  eexists. unfold mret, M_ret.
  replace (S (Z.to_nat nin)) with (Z.to_nat nin + 1) by lia.
  rewrite draws_app. cbn [fst snd]. rewrite fmap_app, app_assoc.
  split_and!; [done| |].
  - unfold nn.Neuron_parameters. simpl. rewrite P, P'.
    rewrite length_app, length_fmap, length_draws. by rewrite seq_app.
  - simpl. subst ws. by rewrite length_seq.
Qed.

Lemma constructs_Layer_init nin nout :
  constructs (nn.Layer_init nin nout) (Z.to_nat nout * S (Z.to_nat nin))
    nn.Layer_parameters
    (λ l, length (nn.neurons l) = Z.to_nat nout
          ∧ Forall (λ n, length (nn.w n) = Z.to_nat nin) (nn.neurons l)).
Proof.
  intros g h. unfold nn.Layer_init.
  destruct (constructs_comprehension (λ _ : nat, nn.Neuron_init nin)
              (λ _, S (Z.to_nat nin)) nn.Neuron_parameters
              (λ _ n, length (nn.w n) = Z.to_nat nin) (nn.range nout)
              (λ _ _, constructs_Neuron_init nin) g h) as (ns & E & P & Sh).
  rewrite sum_list_with_const in *. unfold nn.range in *.
  rewrite length_seq in *.
  unfold mbind, M_bind at 1. rewrite E. cbn beta iota.
  eexists. split; [done|]. split; [done|].
  simpl. split.
  - apply Forall2_length in Sh. by rewrite length_seq in Sh.
  - clear -Sh. induction Sh; by constructor.
Qed.

End Init.

Section MLPInit.
Context `{PyRuntime} `{nn.PyRandom}.

Lemma sum_list_with_fmap {A B} (f : B → nat) (g : A → B) (l : list A) :
  sum_list_with f (g <$> l) = sum_list_with (λ x, f (g x)) l.
Proof. induction l as [|x l IH]; [done|]. simpl. by f_equal. Qed.

Lemma count_parameters_sum nin nouts :
  sum_list_with
    (λ i, Z.to_nat ((nin :: nouts) !!! S i) * S (Z.to_nat ((nin :: nouts) !!! i)))
    (seq 0 (length nouts))
  = count_parameters nin nouts.
Proof.
  revert nin. induction nouts as [|nout nouts IH]; intros nin; [done|].
  cbn [length seq sum_list_with count_parameters]. rewrite <- IH.
  f_equal. by rewrite <- fmap_S_seq, sum_list_with_fmap.
Qed.

(** The nodes of the layers are among the parameters. *)
Lemma parameters_layer_in (H' : heap) (ls : list nn.Layer) :
  (∀ p, p ∈ concat (nn.Layer_parameters <$> ls) → p < length H') →
  Forall (layer_in H') ls.
Proof.
  intros Hp. apply Forall_forall. intros l Hl.
  apply Forall_forall. intros n Hn.
  assert (Hin : ∀ p, p ∈ nn.Neuron_parameters n → p < length H').
  { intros p Hpn. apply Hp, list_elem_of_In, in_concat.
    exists (nn.Layer_parameters l). split.
    - apply list_elem_of_In, list_elem_of_fmap. by exists l.
    - apply in_concat. exists (nn.Neuron_parameters n). split.
      + apply list_elem_of_In, list_elem_of_fmap. by exists n.
      + by apply list_elem_of_In. }
  split.
  - apply Forall_forall. intros r Hr. apply Hin, elem_of_app. by left.
  - apply Hin, elem_of_app. right. by left.
Qed.

(** X18.  [Neuron(nin)] draws [nin] weights and then the bias, and wraps each
    number in a new leaf: the parameters are the nodes it allocated, in the
    order of their allocation, all distinct; nothing that existed is touched.
    A negative [nin] gives a neuron without weights. *)
Theorem Neuron_init_parameters (nin : Z) (g : nn.rng) (h : heap) :
  ∃ n,
    nn.Neuron_init nin g h
    = Ok (n, (draws (S (Z.to_nat nin)) g).2)
        (h ++ (leaf <$> (draws (S (Z.to_nat nin)) g).1))
    ∧ nn.w n = seq (length h) (Z.to_nat nin)
    ∧ nn.b n = length h + Z.to_nat nin
    ∧ nn.Neuron_parameters n = seq (length h) (S (Z.to_nat nin))
    ∧ NoDup (nn.Neuron_parameters n)
    ∧ neuron_in (h ++ (leaf <$> (draws (S (Z.to_nat nin)) g).1)) n.
Proof.
  destruct (constructs_Neuron_init nin g h) as (n & E & P & L).
  assert (Hw : nn.w n = seq (length h) (Z.to_nat nin)
               ∧ nn.b n = length h + Z.to_nat nin).
  { unfold nn.Neuron_parameters in P.
    replace (S (Z.to_nat nin)) with (Z.to_nat nin + 1) in P by lia.
    rewrite seq_app in P. simpl in P.
    apply app_inj_1 in P as [? [= ?]]; [done|by rewrite length_seq]. }
  destruct Hw as [Hw Hb].
  exists n. split_and!; try done.
  - rewrite P. apply NoDup_seq.
  - split.
    + rewrite Hw. apply Forall_forall. intros r Hr%elem_of_seq.
      rewrite length_app, length_fmap, length_draws. lia.
    + rewrite Hb, length_app, length_fmap, length_draws. lia.
Qed.

(** X19.  [MLP(nin, nouts)] draws one number per parameter and wraps each in a
    new leaf, layer by layer, neuron by neuron, the weights of a neuron before
    its bias; [parameters()] lists these nodes in the order of their
    allocation. Layer [i] has [nouts[i]] neurons of [sz[i]] weights, with [sz
    = [nin] + nouts], a negative size counting as zero. *)
Theorem MLP_init_parameters (nin : Z) (nouts : list Z) (g : nn.rng) (h : heap) :
  ∃ m,
    nn.MLP_init nin nouts g h
    = Ok (m, (draws (count_parameters nin nouts) g).2)
        (h ++ (leaf <$> (draws (count_parameters nin nouts) g).1))
    ∧ nn.MLP_parameters m = seq (length h) (count_parameters nin nouts)
    ∧ length (nn.layers m) = length nouts
    ∧ (∀ i l, nn.layers m !! i = Some l →
         length (nn.neurons l) = Z.to_nat (nouts !!! i)
         ∧ ∀ n, n ∈ nn.neurons l →
             length (nn.w n) = Z.to_nat ((nin :: nouts) !!! i))
    ∧ Forall (layer_in (h ++ (leaf <$> (draws (count_parameters nin nouts) g).1)))
        (nn.layers m).
Proof.
  unfold nn.MLP_init.
  destruct (constructs_comprehension
              (λ i, nn.Layer_init ((nin :: nouts) !!! i) ((nin :: nouts) !!! S i))
              (λ i, Z.to_nat ((nin :: nouts) !!! S i)
                    * S (Z.to_nat ((nin :: nouts) !!! i)))
              nn.Layer_parameters
              (λ i l, length (nn.neurons l) = Z.to_nat ((nin :: nouts) !!! S i)
                      ∧ Forall (λ n, length (nn.w n)
                                     = Z.to_nat ((nin :: nouts) !!! i))
                          (nn.neurons l))
              (seq 0 (length nouts))
              (λ i _, constructs_Layer_init _ _) g h) as (ls & E & P & Sh).
  rewrite count_parameters_sum in *.
  exists (nn.mkMLP ls). cbn zeta.
  unfold mbind, M_bind at 1. rewrite E. cbn beta iota.
  split; [done|]. split; [done|]. split; [|split].
  - apply Forall2_length in Sh. by rewrite length_seq in Sh.
  - intros i l Hi. simpl in Hi.
    destruct (Forall2_lookup_r _ _ _ _ _ Sh Hi) as (j & Hj & Hl & Hw).
    apply lookup_seq in Hj as [-> _]. simpl in *.
    split; [done|]. intros n Hn. by rewrite Forall_forall in Hw; apply Hw.
  - apply parameters_layer_in. intros p Hp. cbn [nn.layers] in Hp.
    unfold nn.MLP_parameters in P. cbn [nn.layers] in P.
    rewrite P in Hp. apply elem_of_seq in Hp.
    rewrite length_app, length_fmap, length_draws. lia.
Qed.

End MLPInit.

(* ===================================================================== *)
(** ** nn.py: the forward pass *)
(* ===================================================================== *)

Lemma operand_in_app h new x : operand_in h x → operand_in (h ++ new) x.
Proof. destruct x; simpl; [rewrite length_app; lia|done]. Qed.

Lemma item_in_app h new item : item_in h item → item_in (h ++ new) item.
Proof.
  intros [? ?]. split; [rewrite length_app; lia|by apply operand_in_app].
Qed.

Lemma operand_value_app h new x :
  operand_in h x → operand_value (h ++ new) x = operand_value h x.
Proof. destruct x; simpl; [intros; by rewrite lookup_total_app_l|done]. Qed.

Lemma weighted_sum_app h new items start :
  Forall (item_in h) items →
  weighted_sum (h ++ new) items start = weighted_sum h items start.
Proof.
  intros Hi. revert start. induction Hi as [|[wi xi] items [Hw Hx] _ IH];
    intros start; [done|].
  unfold weighted_sum in *. simpl in *.
  by rewrite IH, lookup_total_app_l, operand_value_app.
Qed.

Section Forward.
Context `{PyRuntime}.
Hypothesis set_order_perm : ∀ l, set_order l ≡ₚ remove_dups l.

Lemma mul_returns h a x :
  heap_ok h → a < length h → operand_in h x →
  ∃ p new, __mul__ a x h = Ok p (h ++ new) ∧ heap_ok (h ++ new)
    ∧ p < length (h ++ new)
    ∧ data ((h ++ new) !!! p) = (data (h !!! a) * operand_value h x)%float.
Proof.
  intros Hok Ha Hx.
  pose proof (mul_grows_ok set_order_perm h a x Hok Ha Hx) as G.
  destruct x as [r|c]; simpl in Hx.
  - rewrite mul_eval in *. destruct G as (? & _ & ?).
    do 2 eexists. split_and!; try done. by rewrite lookup_total_new.
  - rewrite mul_num_eval in * by done. destruct G as (? & _ & ?).
    do 2 eexists. split_and!; try done. by rewrite lookup_total_app_1.
Qed.

Lemma add_returns h a p :
  heap_ok h → a < length h → p < length h →
  ∃ new, __add__ a (OValue p) h = Ok (length h) (h ++ new) ∧ heap_ok (h ++ new)
    ∧ length h < length (h ++ new)
    ∧ data ((h ++ new) !!! length h) = (data (h !!! a) + data (h !!! p))%float.
Proof.
  intros Hok Ha Hp.
  pose proof (add_grows_ok set_order_perm h a (OValue p) Hok Ha Hp) as G.
  rewrite add_eval in *. destruct G as (? & _ & ?).
  eexists. split_and!; try done. by rewrite lookup_total_new.
Qed.

(** The loop of [sum]: it returns the node holding the weighted sum, on a
    heap that extends the one it started from. *)
Lemma sum_products_returns items :
  ∀ h start, heap_ok h → start < length h → Forall (item_in h) items →
  ∃ act new, nn.sum_products items start h = Ok act (h ++ new)
    ∧ heap_ok (h ++ new) ∧ act < length (h ++ new)
    ∧ data ((h ++ new) !!! act) = weighted_sum h items (data (h !!! start)).
Proof.
  induction items as [|[wi xi] items IH]; intros h start Hok Hs Hi.
  - exists start, []. rewrite app_nil_r. by split_and!.
  - apply Forall_cons in Hi as [[Hw Hx] Hi]. simpl in Hw, Hx.
    destruct (mul_returns h wi xi Hok Hw Hx) as (p & n1 & E1 & Hok1 & Hp & D1).
    destruct (add_returns (h ++ n1) start p Hok1) as (n2 & E2 & Hok2 & Ha & D2);
      [rewrite length_app; lia|done|].
    destruct (IH ((h ++ n1) ++ n2) (length (h ++ n1)) Hok2 Ha)
      as (act & n3 & E3 & Hok3 & Hact & D3).
    { eapply Forall_impl; [exact Hi|]. intros item Hitem.
      by apply item_in_app, item_in_app. }
    exists act, (n1 ++ n2 ++ n3). rewrite !app_assoc.
    cbn [nn.sum_products]. unfold mbind, M_bind. rewrite E1, E2, E3.
    split_and!; try done.
    rewrite D3, D2, D1, !weighted_sum_app; [|done|].
    + by rewrite lookup_total_app_l.
    + eapply Forall_impl; [exact Hi|]. intros item Hitem. by apply item_in_app.
Qed.

End Forward.

Lemma weighted_sum_dot h ws xs start :
  weighted_sum h (zip ws xs) start
  = dot start ((λ r, data (h !!! r)) <$> ws) (operand_value h <$> xs).
Proof.
  unfold weighted_sum, dot. revert xs start.
  induction ws as [|wi ws IH]; intros [|x xs] start; simpl; try done.
Qed.

Lemma neuron_in_app h new n : neuron_in h n → neuron_in (h ++ new) n.
Proof.
  intros [Hw Hb]. split; [|rewrite length_app; lia].
  eapply Forall_impl; [exact Hw|]. intros r Hr. simpl in *.
  rewrite length_app. lia.
Qed.

Lemma neuron_items_in h n xs :
  neuron_in h n → Forall (operand_in h) xs →
  Forall (item_in h) (zip (nn.w n) xs).
Proof.
  intros [Hw _] Hx. revert xs Hx. induction Hw as [|wi ws ? _ IH];
    intros xs Hx; [constructor|].
  destruct Hx as [|x xs ? Hx]; [constructor|]. simpl. constructor; [done|].
  by apply IH.
Qed.

Section NeuronForward.
Context `{PyRuntime}.
Hypothesis set_order_perm : ∀ l, set_order l ≡ₚ remove_dups l.

Lemma neuron_output_app h new n xs :
  neuron_in h n → neuron_output (h ++ new) n xs = neuron_output h n xs.
Proof.
  intros [Hw Hb]. unfold neuron_output. rewrite lookup_total_app_l by done.
  assert (Hws : (λ r, data ((h ++ new) !!! r)) <$> nn.w n
                = (λ r, data (h !!! r)) <$> nn.w n).
  { apply Forall_fmap_ext. eapply Forall_impl; [exact Hw|].
    intros r ?. simpl. by rewrite lookup_total_app_l. }
  by rewrite Hws.
Qed.

Lemma Neuron_call_returns (h : heap) (n : nn.Neuron) (xs : list operand) :
  heap_ok h → neuron_in h n → Forall (operand_in h) xs →
  ∃ out new,
    nn.Neuron_call n (nn.InList xs) h = nn.Return out (h ++ new)
    ∧ heap_ok (h ++ new) ∧ out < length (h ++ new)
    ∧ data ((h ++ new) !!! out) = neuron_output h n (operand_value h <$> xs)
    ∧ nn.Neuron_call n (nn.InList (take (length (nn.w n)) xs)) h
      = nn.Return out (h ++ new)
    ∧ nn.Neuron_call (nn.mkNeuron (take (length xs) (nn.w n)) (nn.b n))
        (nn.InList xs) h
      = nn.Return out (h ++ new).
Proof.
  intros Hok Hn Hx.
  destruct (sum_products_returns set_order_perm (zip (nn.w n) xs) h (nn.b n) Hok)
    as (act & n1 & E1 & Hok1 & Hact & D1); [apply Hn|by apply neuron_items_in|].
  pose proof (run_call_grows_ok set_order_perm _ (call_tanh act) Hok1 Hact) as G.
  cbn [run_call] in G. pose proof (tanh_eval act (h ++ n1)) as E2.
  rewrite E2 in G. destruct G as (Hok2 & _ & Hout).
  assert (E : nn.Neuron_call n (nn.InList xs) h
              = nn.Return (length (h ++ n1))
                  (h ++ n1 ++ [mkValue (tanh_value (data ((h ++ n1) !!! act))) 0
                                 (tanh_backward act (length (h ++ n1))
                                    (tanh_value (data ((h ++ n1) !!! act))))
                                 (set_order [act]) (Tag "tanh") ""])).
  { unfold nn.Neuron_call, nn.zip_inputs, mbind, nn.N_bind, nn.engine.
    rewrite E1, E2. by rewrite app_assoc. }
  do 2 eexists. split; [exact E|]. rewrite app_assoc. split_and!; try done.
  - rewrite lookup_total_new. simpl. fold (tanh_value (data ((h ++ n1) !!! act))).
    by rewrite D1, weighted_sum_dot.
  - rewrite <- app_assoc, <- E.
    unfold nn.Neuron_call, nn.zip_inputs, mbind, nn.N_bind.
    by rewrite zip_with_take_r.
  - rewrite <- app_assoc, <- E.
    unfold nn.Neuron_call, nn.zip_inputs, mbind, nn.N_bind.
    simpl. by rewrite zip_with_take_l.
Qed.

(** X20.  A neuron called with a list for which its [tanh] is in range
    returns [tanh] of the bias plus the products of the weights and the
    inputs that [zip] pairs, summed from the left: inputs beyond the last
    weight and weights beyond the last input are left out, without an
    error.  The nodes that existed are left as they were. *)
Theorem Neuron_call_value (h : heap) (n : nn.Neuron) (xs : list operand) :
  heap_ok h → neuron_in h n → Forall (operand_in h) xs →
  neuron_in_range h n (operand_value h <$> xs) →
  ∃ out new,
    nn.Neuron_call n (nn.InList xs) h = nn.Return out (h ++ new)
    ∧ heap_ok (h ++ new) ∧ out < length (h ++ new)
    ∧ data ((h ++ new) !!! out) = neuron_output h n (operand_value h <$> xs)
    ∧ nn.Neuron_call n (nn.InList (take (length (nn.w n)) xs)) h
      = nn.Return out (h ++ new)
    ∧ nn.Neuron_call (nn.mkNeuron (take (length xs) (nn.w n)) (nn.b n))
        (nn.InList xs) h
      = nn.Return out (h ++ new).
Proof. intros Hok Hn Hxs _. by apply Neuron_call_returns. Qed.

End NeuronForward.

Lemma layer_in_app h new l : layer_in h l → layer_in (h ++ new) l.
Proof.
  intros Hl. eapply Forall_impl; [exact Hl|]. intros n. apply neuron_in_app.
Qed.

Section LayerForward.
Context `{PyRuntime}.
Hypothesis set_order_perm : ∀ l, set_order l ≡ₚ remove_dups l.

Lemma layer_output_app h new l xs :
  layer_in h l → layer_output (h ++ new) l xs = layer_output h l xs.
Proof.
  intros Hl. unfold layer_output. apply Forall_fmap_ext.
  eapply Forall_impl; [exact Hl|]. intros n Hn. by apply neuron_output_app.
Qed.

Lemma mlp_output_app h new ls xs :
  Forall (layer_in h) ls → mlp_output (h ++ new) ls xs = mlp_output h ls xs.
Proof.
  intros Hls. revert xs. induction Hls as [|l ls Hl _ IH]; intros xs; [done|].
  unfold mlp_output in *. simpl. by rewrite IH, layer_output_app.
Qed.

(** [[n(x) for n in neurons]] on a list [xs]. *)
Lemma call_each_returns ns :
  ∀ h xs, heap_ok h → Forall (neuron_in h) ns → Forall (operand_in h) xs →
  ∃ outs new,
    nn.call_each ns (nn.InList xs) h = nn.Return outs (h ++ new)
    ∧ heap_ok (h ++ new)
    ∧ Forall (λ r, r < length (h ++ new)) outs
    ∧ (λ r, data ((h ++ new) !!! r)) <$> outs
      = (λ n, neuron_output h n (operand_value h <$> xs)) <$> ns.
Proof.
  induction ns as [|n ns IH]; intros h xs Hok Hns Hxs.
  - exists [], []. rewrite app_nil_r. by split_and!.
  - apply Forall_cons in Hns as [Hn Hns].
    destruct (Neuron_call_returns set_order_perm h n xs Hok Hn Hxs)
      as (out & n1 & E1 & Hok1 & Hout & D1 & _).
    destruct (IH (h ++ n1) xs Hok1) as (outs & n2 & E2 & Hok2 & Houts & D2).
    { eapply Forall_impl; [exact Hns|]. intros ?. apply neuron_in_app. }
    { eapply Forall_impl; [exact Hxs|]. intros ?. apply operand_in_app. }
    exists (out :: outs), (n1 ++ n2). rewrite app_assoc.
    cbn [nn.call_each]. unfold mbind, nn.N_bind. rewrite E1, E2.
    split_and!; try done.
    + constructor; [rewrite length_app; lia|done].
    + cbn [fmap list_fmap]. f_equal.
      * by rewrite lookup_total_app_l.
      * fold (fmap (λ r, data (((h ++ n1) ++ n2) !!! r)) outs).
        rewrite D2. apply Forall_fmap_ext.
        eapply Forall_impl; [exact Hns|]. intros n' Hn'. simpl.
        rewrite neuron_output_app by done. f_equal.
        apply Forall_fmap_ext. eapply Forall_impl; [exact Hxs|].
        intros x. apply operand_value_app.
Qed.

(** A layer called with a list. *)
Lemma Layer_call_list h l xs :
  heap_ok h → layer_in h l → Forall (operand_in h) xs →
  ∃ y new,
    nn.Layer_call l (nn.InList xs) h = nn.Return y (h ++ new)
    ∧ heap_ok (h ++ new) ∧ input_in (h ++ new) y
    ∧ input_values (h ++ new) y = layer_output h l (operand_value h <$> xs)
    ∧ is_value y = (length (nn.neurons l) =? 1).
Proof.
  intros Hok Hl Hxs.
  destruct (call_each_returns (nn.neurons l) h xs Hok Hl Hxs)
    as (outs & new & E & Hok1 & Houts & D).
  assert (Hlen : length outs = length (nn.neurons l)).
  { apply (f_equal length) in D. by rewrite !length_fmap in D. }
  unfold nn.Layer_call, mbind, nn.N_bind. rewrite E. unfold mret, nn.N_ret.
  do 2 eexists. split; [done|]. rewrite Hlen.
  destruct (decide (length (nn.neurons l) = 1)) as [H1|H1].
  - rewrite H1. destruct outs as [|out [|]]; simpl in Hlen; try lia.
    apply Forall_cons in Houts as [Hout _]. split_and!; try done.
  - split_and!; try done.
    + simpl. apply Forall_fmap. eapply Forall_impl; [exact Houts|]. done.
    + simpl. unfold layer_output. by rewrite <- D, <- list_fmap_compose.
    + simpl. symmetry. by apply Nat.eqb_neq.
Qed.

(** A layer called with a single [Value]: [zip] raises in the first neuron,
    before anything is allocated. *)
Lemma Layer_call_single h l r :
  nn.Layer_call l (nn.InValue r) h
  = if length (nn.neurons l) =? 0 then nn.Return (nn.InList []) h
    else nn.Fail nn.TypeError h.
Proof.
  unfold nn.Layer_call. by destruct (nn.neurons l) as [|n ns].
Qed.

(** X21.  What a layer returns.  Called with a list for which the [tanh] of
    each of its neurons is in range, it returns the outputs of its neurons:
    the one [Value] itself when it has exactly one neuron, the list of them
    otherwise (the empty list when it has none).  Called with a single
    [Value], it raises [TypeError] before anything is allocated, unless it
    has no neurons. *)
Theorem Layer_call_shape (h : heap) (l : nn.Layer) (xs : list operand) (r : ref) :
  heap_ok h → layer_in h l → Forall (operand_in h) xs →
  (layer_in_range h l (operand_value h <$> xs) →
   ∃ y new,
     nn.Layer_call l (nn.InList xs) h = nn.Return y (h ++ new)
     ∧ input_values (h ++ new) y = layer_output h l (operand_value h <$> xs)
     ∧ (length (nn.neurons l) = 1 → ∃ out, y = nn.InValue out)
     ∧ (length (nn.neurons l) ≠ 1 →
        ∃ outs, y = nn.InList (OValue <$> outs)
                ∧ length outs = length (nn.neurons l)))
  ∧ nn.Layer_call l (nn.InValue r) h
    = (if length (nn.neurons l) =? 0 then nn.Return (nn.InList []) h
       else nn.Fail nn.TypeError h).
Proof.
  intros Hok Hl Hxs. split; [intros _|apply Layer_call_single].
  destruct (Layer_call_list h l xs Hok Hl Hxs) as (y & new & E & _ & _ & V & K).
  exists y, new. split_and!; try done.
  - intros H1. rewrite H1 in K. destruct y as [|out]; [done|by exists out].
  - intros H1. apply Nat.eqb_neq in H1. rewrite H1 in K.
    destruct y as [ys|]; [|done]. simpl in V.
    apply (f_equal length) in V. unfold layer_output in V.
    rewrite !length_fmap in V.
    unfold nn.Layer_call, mbind, nn.N_bind in E.
    destruct (nn.call_each (nn.neurons l) (nn.InList xs) h) as [outs h'|];
      [|done].
    unfold mret, nn.N_ret in E. case_decide; [done|].
    injection E as <- _. exists outs. split; [done|].
    by rewrite length_fmap in V.
Qed.

End LayerForward.

Section MLPForward.
Context `{PyRuntime}.
Hypothesis set_order_perm : ∀ l, set_order l ≡ₚ remove_dups l.

(** One layer, on either kind of argument. *)
Lemma Layer_call_spec h l x :
  heap_ok h → layer_in h l → input_in h x →
  match nn.Layer_call l x h with
  | nn.Return y h' =>
      (negb (is_value x) || (length (nn.neurons l) =? 0)) = true
      ∧ (∃ new, h' = h ++ new) ∧ heap_ok h' ∧ input_in h' y
      ∧ input_values h' y = layer_output h l (input_values h x)
      ∧ is_value y = (length (nn.neurons l) =? 1)
  | nn.Fail e h' =>
      (negb (is_value x) || (length (nn.neurons l) =? 0)) = false
      ∧ e = nn.TypeError ∧ h' = h
  end.
Proof.
  intros Hok Hl Hx. destruct x as [xs|r].
  - destruct (Layer_call_list set_order_perm h l xs Hok Hl Hx)
      as (y & new & -> & ? & ? & ? & ?).
    split_and!; try done. by exists new.
  - rewrite Layer_call_single. simpl.
    destruct (nn.neurons l) as [|n ns] eqn:E; simpl; [|done].
    split_and!; try done.
    + exists []. by rewrite app_nil_r.
    + unfold layer_output. by rewrite E.
Qed.

(** The loop over the layers. *)
Lemma call_layers_spec ls :
  ∀ h x, heap_ok h → Forall (layer_in h) ls → input_in h x →
  match nn.call_layers ls x h with
  | nn.Return y h' =>
      passes (is_value x) ls = true
      ∧ (∃ new, h' = h ++ new) ∧ heap_ok h' ∧ input_in h' y
      ∧ input_values h' y = mlp_output h ls (input_values h x)
      ∧ is_value y
        = match last ls with
          | Some l => length (nn.neurons l) =? 1
          | None => is_value x
          end
  | nn.Fail e h' =>
      passes (is_value x) ls = false
      ∧ e = nn.TypeError ∧ (∃ new, h' = h ++ new) ∧ heap_ok h'
  end.
Proof.
  induction ls as [|l ls IH]; intros h x Hok Hls Hx.
  - simpl. split_and!; try done. exists []. by rewrite app_nil_r.
  - apply Forall_cons in Hls as [Hl Hls].
    pose proof (Layer_call_spec h l x Hok Hl Hx) as S1.
    cbn [nn.call_layers passes]. unfold mbind, nn.N_bind.
    destruct (nn.Layer_call l x h) as [y h1|e h1].
    + destruct S1 as (P1 & (n1 & ->) & Hok1 & Hy & V1 & K1).
      specialize (IH (h ++ n1) y Hok1).
      destruct (nn.call_layers ls y (h ++ n1)) as [z h2|e h2].
      * destruct IH as (P2 & (n2 & ->) & Hok2 & Hz & V2 & K2); try done.
        { eapply Forall_impl; [exact Hls|]. intros ?. apply layer_in_app. }
        rewrite P1, <- K1, P2. split_and!; try done.
        -- exists (n1 ++ n2). by rewrite app_assoc.
        -- rewrite V2, V1, mlp_output_app by done. done.
        -- rewrite K2. destruct ls as [|l' ls]; simpl; [exact K1|].
           destruct (last (l' :: ls)) eqn:EL; [done|].
           by apply last_None in EL.
      * destruct IH as (P2 & -> & (n2 & ->) & Hok2); try done.
        { eapply Forall_impl; [exact Hls|]. intros ?. apply layer_in_app. }
        rewrite P1, <- K1, P2. split_and!; try done.
        exists (n1 ++ n2). by rewrite app_assoc.
    + destruct S1 as (P1 & -> & ->). rewrite P1. split_and!; try done.
      exists []. by rewrite app_nil_r.
Qed.

(** X22.  [MLP.__call__] on a list, when every [tanh] the pass reaches is
    in range, raises [TypeError] exactly when a layer of one neuron is
    followed by a layer that has neurons: the first returns a bare [Value],
    over which [zip] cannot iterate.  The nodes allocated before that stay
    on the heap. *)
Theorem MLP_call_raises (h : heap) (m : nn.MLP) (xs : list operand) :
  heap_ok h → Forall (layer_in h) (nn.layers m) → Forall (operand_in h) xs →
  mlp_in_range h false (nn.layers m) (operand_value h <$> xs) →
  (passes false (nn.layers m) = false ↔
   ∃ new, nn.MLP_call m (nn.InList xs) h = nn.Fail nn.TypeError (h ++ new))
  ∧ (passes false (nn.layers m) = true ↔
     ∃ y new, nn.MLP_call m (nn.InList xs) h = nn.Return y (h ++ new)).
Proof.
  intros Hok Hls Hxs _. unfold nn.MLP_call.
  pose proof (call_layers_spec (nn.layers m) h (nn.InList xs) Hok Hls Hxs) as S.
  destruct (nn.call_layers (nn.layers m) (nn.InList xs) h) as [y h'|e h'].
  - destruct S as (P & (new & ->) & _). simpl in P. rewrite P. split; split.
    + done.
    + by intros (? & ?).
    + intros _. by exists y, new.
    + done.
  - destruct S as (P & -> & (new & ->) & _). simpl in P. rewrite P. split; split.
    + intros _. by exists new.
    + done.
    + done.
    + by intros (? & ? & ?).
Qed.

(** X23.  The forward pass of an [MLP] whose layers follow each other, on a
    list for which every [tanh] is in range: it returns the numbers that
    the layers compute one from the other, in a single [Value] when the last
    layer has exactly one neuron and in a list otherwise; the heap it leaves
    extends the one it was given and is well formed. *)
Theorem MLP_call_value (h : heap) (m : nn.MLP) (xs : list operand) :
  heap_ok h → Forall (layer_in h) (nn.layers m) → Forall (operand_in h) xs →
  mlp_in_range h false (nn.layers m) (operand_value h <$> xs) →
  passes false (nn.layers m) = true →
  ∃ y new,
    nn.MLP_call m (nn.InList xs) h = nn.Return y (h ++ new)
    ∧ heap_ok (h ++ new) ∧ input_in (h ++ new) y
    ∧ input_values (h ++ new) y
      = mlp_output h (nn.layers m) (operand_value h <$> xs)
    ∧ is_value y
      = match last (nn.layers m) with
        | Some l => length (nn.neurons l) =? 1
        | None => false
        end.
Proof.
  intros Hok Hls Hxs _ Hp. unfold nn.MLP_call.
  pose proof (call_layers_spec (nn.layers m) h (nn.InList xs) Hok Hls Hxs) as S.
  destruct (nn.call_layers (nn.layers m) (nn.InList xs) h) as [y h'|e h'].
  - destruct S as (_ & (new & ->) & ? & ? & ? & ?). by exists y, new.
  - destruct S as (P & _). simpl in P. congruence.
Qed.

End MLPForward.

(* ===================================================================== *)
(** ** nn.py: the graph of a neuron and its gradients *)
(* ===================================================================== *)

Section Nodes.
Context `{PyRuntime}.

Lemma length_sum_nodes wd L start s items :
  length (sum_nodes wd L start s items) = 3 * length items.
Proof.
  revert L start s. induction items as [|[wi c] items IH]; intros L start s;
    [done|].
  cbn [sum_nodes]. rewrite length_app, IH. simpl. lia.
Qed.

Lemma sum_products_nodes wd items :
  ∀ h start,
  Forall (λ item, item.1 < length h ∧ data (h !!! item.1) = wd item.1) items →
  start < length h →
  nn.sum_products (numeric items) start h
  = Ok (acc_at (length h) start (length items))
      (h ++ sum_nodes wd (length h) start (data (h !!! start)) items).
Proof.
  induction items as [|[wi c] items IH]; intros h start Hi Hs.
  - simpl. by rewrite app_nil_r.
  - apply Forall_cons in Hi as [[Hw Hd] Hi]. simpl in Hw, Hd.
    cbn [numeric fmap list_fmap nn.sum_products fst snd].
    unfold mbind, M_bind.
    rewrite mul_num_eval by done. rewrite add_eval.
    rewrite length_app. cbn [length]. rewrite Nat.add_comm. cbn [Nat.add].
    rewrite lookup_total_app_l by done. rewrite lookup_total_app_1.
    cbn [data]. rewrite Hd.
    set (C := mkValue c _ _ _ _ _).
    set (P := mkValue _ _ (mul_backward _ _ _) _ _ _).
    set (A := mkValue _ _ (add_backward _ _ _) _ _ _).
    fold (numeric items). rewrite <- app_assoc. cbn [app].
    rewrite (IH (h ++ [C; P; A]) (S (S (length h)))).
    + rewrite length_app. cbn [length]. rewrite lookup_total_app_2.
      replace (length h + 3) with (3 + length h) by lia.
      cbn [sum_nodes]. f_equal.
      * destruct items; simpl; lia.
      * by rewrite <- app_assoc.
    + eapply Forall_impl; [exact Hi|]. intros item [? ?].
      rewrite length_app, lookup_total_app_l by done. split; [lia|done].
    + rewrite length_app. simpl. lia.
Qed.

End Nodes.

Lemma acc_at_shift L start i :
  acc_at (3 + L) (S (S L)) i = acc_at L start (S i).
Proof. destruct i; simpl; lia. Qed.

Section Nodes.
Context `{PyRuntime}.
Hypothesis set_order_perm : ∀ l, set_order l ≡ₚ remove_dups l.

(** The three nodes allocated for the [i]-th pair. *)
Lemma sum_nodes_at wd items :
  ∀ L start s i wi c, items !! i = Some (wi, c) →
  ∃ d1 d2,
    sum_nodes wd L start s items !! (3 * i)
    = Some (mkValue c 0 lambda_None (set_order []) (Tag "") "")
    ∧ sum_nodes wd L start s items !! (3 * i + 1)
      = Some (mkValue d1 0 (mul_backward wi (L + 3 * i) (L + 3 * i + 1))
                (set_order [wi; L + 3 * i]) (Tag "*") "")
    ∧ sum_nodes wd L start s items !! (3 * i + 2)
      = Some (mkValue d2 0
                (add_backward (acc_at L start i) (L + 3 * i + 1) (L + 3 * i + 2))
                (set_order [acc_at L start i; L + 3 * i + 1]) (Tag "+") "").
Proof.
  induction items as [|[w0 c0] items IH]; intros L start s i wi c Hi; [done|].
  destruct i as [|i].
  - injection Hi as -> ->. cbn [sum_nodes]. do 2 eexists.
    replace (L + 3 * 0) with L by lia. replace (L + 1) with (S L) by lia.
    replace (L + 2) with (S (S L)) by lia. by split_and!.
  - simpl in Hi. cbn [sum_nodes].
    destruct (IH (3 + L) (S (S L)) (s + wd w0 * c0)%float i wi c Hi)
      as (d1 & d2 & E0 & E1 & E2).
    exists d1, d2.
    replace (3 * S i) with (3 + 3 * i) by lia.
    rewrite (acc_at_shift L start) in E2.
    replace (3 + L + 3 * i) with (L + (3 + 3 * i)) in * by lia.
    split_and!; [exact E0|exact E1|exact E2].
Qed.

(** Every operand of a node of the sum: the [i]-th product is over the
    weight and the wrapped number, the [i]-th running sum over the previous
    one and the product. *)
Lemma sum_nodes_operands wd items :
  ∀ L start s j N x, sum_nodes wd L start s items !! j = Some N → x ∈ _prev N →
  ∃ i wi c, items !! i = Some (wi, c)
    ∧ ((j = 3 * i + 1 ∧ (x = wi ∨ x = L + 3 * i))
       ∨ (j = 3 * i + 2 ∧ (x = acc_at L start i ∨ x = L + 3 * i + 1))).
Proof.
  induction items as [|[w0 c0] items IH]; intros L start s j N x Hj Hx; [done|].
  cbn [sum_nodes] in Hj.
  destruct j as [|[|[|j]]]; simpl in Hj.
  - injection Hj as <-. simpl in Hx. by apply (no_operands set_order_perm) in Hx.
  - injection Hj as <-. simpl in Hx.
    apply (binary_operands set_order_perm) in Hx.
    exists 0, w0, c0. split; [done|]. left. split; [done|].
    destruct Hx; [by left|right; lia].
  - injection Hj as <-. simpl in Hx.
    apply (binary_operands set_order_perm) in Hx.
    exists 0, w0, c0. split; [done|]. right. split; [done|].
    destruct Hx; [by left|right; lia].
  - destruct (IH _ _ _ _ _ _ Hj Hx) as (i & wi & c & Hi & Hc).
    exists (S i), wi, c. split; [done|]. rewrite (acc_at_shift L start) in Hc.
    destruct Hc as [[-> Hc]|[-> Hc]]; [left|right]; (split; [lia|]);
      destruct Hc; [by left|right; lia|by left|right; lia].
Qed.

End Nodes.

Section NeuronGraph.
Context `{PyRuntime}.
Hypothesis set_order_perm : ∀ l, set_order l ≡ₚ remove_dups l.
Variables (h : heap) (n : nn.Neuron) (cs : list float).
Hypothesis Hok : heap_ok h.
Hypothesis Hn : neuron_in h n.

Lemma zip_numeric (ws : list ref) (xs : list float) :
  zip ws (ONum <$> xs) = numeric (zip ws xs).
Proof.
  unfold numeric. revert xs. induction ws as [|wi ws IH]; intros [|x xs];
    simpl; try done. by rewrite IH.
Qed.

Lemma neuron_items_lt :
  Forall (λ item : ref * float,
            item.1 < length h ∧ data (h !!! item.1) = data (h !!! item.1))
    (zip (nn.w n) cs).
Proof.
  destruct Hn as [Hw _]. revert cs. induction Hw as [|wi ws ? _ IH];
    intros [|c cs']; simpl; constructor; try done.
Qed.

Lemma length_neuron_sum :
  length (neuron_sum h n cs) = 3 * length (zip (nn.w n) cs).
Proof. apply length_sum_nodes. Qed.

Lemma Neuron_call_nodes :
  nn.Neuron_call n (nn.InList (ONum <$> cs)) h
  = nn.Return (neuron_out h n cs) (neuron_heap h n cs).
Proof.
  unfold nn.Neuron_call, nn.zip_inputs, mbind, nn.N_bind, nn.engine.
  rewrite zip_numeric.
  rewrite (sum_products_nodes (λ r, data (h !!! r)));
    [|apply neuron_items_lt|apply Hn].
  rewrite tanh_eval. fold (neuron_sum h n cs). fold (neuron_act h n cs).
  unfold neuron_heap, neuron_tanh, neuron_out, tanh_value.
  rewrite length_app, length_neuron_sum. by rewrite app_assoc.
Qed.

Lemma neuron_heap_ok : heap_ok (neuron_heap h n cs).
Proof.
  destruct (Neuron_call_returns set_order_perm h n (ONum <$> cs) Hok Hn)
    as (out & new & E & Hok1 & _).
  { apply Forall_fmap, Forall_true. done. }
  rewrite Neuron_call_nodes in E. injection E as _ E. by rewrite E.
Qed.

Lemma length_neuron_heap :
  length (neuron_heap h n cs) = S (neuron_out h n cs).
Proof.
  unfold neuron_heap, neuron_out. rewrite !length_app, length_neuron_sum.
  simpl. lia.
Qed.

Lemma lookup_neuron_tanh :
  (neuron_sum h n cs ++ [neuron_tanh h n cs]) !! (3 * length (zip (nn.w n) cs))
  = Some (neuron_tanh h n cs).
Proof.
  rewrite lookup_app_r by (rewrite length_neuron_sum; lia).
  by rewrite length_neuron_sum, Nat.sub_diag.
Qed.

(** The operands of the nodes of the graph. *)
Lemma neuron_operands j N x :
  (neuron_sum h n cs ++ [neuron_tanh h n cs]) !! j = Some N → x ∈ _prev N →
  (∃ i wi c, zip (nn.w n) cs !! i = Some (wi, c)
     ∧ ((j = 3 * i + 1 ∧ (x = wi ∨ x = length h + 3 * i))
        ∨ (j = 3 * i + 2
           ∧ (x = acc_at (length h) (nn.b n) i ∨ x = length h + 3 * i + 1))))
  ∨ (j = 3 * length (zip (nn.w n) cs) ∧ x = neuron_act h n cs).
Proof.
  intros Hj Hx. apply lookup_app_Some in Hj as [Hj|[Hl Hj]].
  - left. by eapply sum_nodes_operands.
  - right. rewrite length_neuron_sum in *.
    destruct (j - 3 * length (zip (nn.w n) cs)) as [|k] eqn:Ek; [|done].
    injection Hj as <-. simpl in Hx.
    apply (unary_operand set_order_perm) in Hx. split; [lia|done].
Qed.

End NeuronGraph.

Section NeuronGradients.
Context `{PyRuntime}.
Hypothesis set_order_perm : ∀ l, set_order l ≡ₚ remove_dups l.
Variables (h : heap) (n : nn.Neuron) (cs : list float).
Hypothesis Hok : heap_ok h.
Hypothesis Hn : neuron_in h n.
Hypothesis Hnd : NoDup (nn.Neuron_parameters n).
Hypothesis Hleaf : ∀ p, p ∈ nn.Neuron_parameters n → _prev (h !!! p) = [].

Local Abbreviation items := (zip (nn.w n) cs).
Local Abbreviation m := (length (zip (nn.w n) cs)).
Local Abbreviation L := (length h).
Local Abbreviation new := (neuron_sum h n cs ++ [neuron_tanh h n cs]).
Local Abbreviation H1 := (neuron_heap h n cs).
Local Abbreviation root := (neuron_out h n cs).

Lemma item_weight i wi c : items !! i = Some (wi, c) → nn.w n !! i = Some wi.
Proof.
  intros Hi. apply lookup_zip_with_Some in Hi as (x & y & [= -> ->] & ? & ?).
  done.
Qed.

Lemma item_lt i wi c : items !! i = Some (wi, c) → i < m.
Proof. intros Hi. by eapply lookup_lt_Some. Qed.

Lemma weight_param wi i : nn.w n !! i = Some wi → wi ∈ nn.Neuron_parameters n.
Proof.
  intros Hi. apply elem_of_app. left. by eapply list_elem_of_lookup_2.
Qed.

Lemma bias_param : nn.b n ∈ nn.Neuron_parameters n.
Proof. apply elem_of_app. right. by left. Qed.

Lemma param_lt p : p ∈ nn.Neuron_parameters n → p < L.
Proof.
  destruct Hn as [Hw Hb]. intros [Hp| ->%list_elem_of_singleton]%elem_of_app;
    [|done]. by rewrite Forall_forall in Hw; apply Hw.
Qed.

Lemma weight_not_bias wi i : nn.w n !! i = Some wi → wi ≠ nn.b n.
Proof.
  intros Hi ->. unfold nn.Neuron_parameters in Hnd.
  apply NoDup_app in Hnd as (_ & Hd & _).
  apply (Hd (nn.b n)); [by eapply list_elem_of_lookup_2|by left].
Qed.

Lemma weight_inj i j wi :
  nn.w n !! i = Some wi → nn.w n !! j = Some wi → i = j.
Proof.
  intros Hi Hj. unfold nn.Neuron_parameters in Hnd.
  apply NoDup_app in Hnd as (Hd & _). by eapply NoDup_lookup.
Qed.

(** A node of [h] among the operands of the new nodes is a parameter. *)
Lemma old_operand_param j N c :
  new !! j = Some N → c ∈ _prev N → c < L → c ∈ nn.Neuron_parameters n.
Proof.
  intros Hj Hc Hcl.
  destruct (neuron_operands set_order_perm h n cs j N c Hj Hc)
    as [(i & wi & c0 & Hi & [[_ [->|?]]|[_ [Hx|?]]])|[_ Hx]]; try lia.
  - eapply weight_param, item_weight, Hi.
  - destruct i; simpl in Hx; [subst; apply bias_param|lia].
  - unfold neuron_act in Hx. destruct m; simpl in Hx; [subst; apply bias_param|lia].
Qed.

Lemma old_operands_apart x j N c :
  new !! j = Some N → c ∈ _prev N → c < L → c ≠ x → ¬ reach h c x.
Proof.
  intros Hj Hc Hcl Hcx Hr.
  apply (reach_leaf h c x) in Hr; [done|].
  by eapply Hleaf, old_operand_param.
Qed.

Lemma lookup_H1 j N : new !! j = Some N → H1 !!! (L + j) = N.
Proof.
  intros Hj. unfold neuron_heap. rewrite lookup_total_app_r by lia.
  replace (L + j - L) with j by lia. by apply list_lookup_total_correct.
Qed.

Lemma lookup_H1_old x : x < L → H1 !!! x = h !!! x.
Proof. intros Hx. unfold neuron_heap. by rewrite lookup_total_app_l. Qed.

Lemma lookup_new_sum j N : neuron_sum h n cs !! j = Some N → new !! j = Some N.
Proof. intros Hj. by apply lookup_app_l_Some. Qed.

Lemma root_lt : root < length H1.
Proof. rewrite length_neuron_heap. lia. Qed.

Lemma H1_root : H1 !!! root = neuron_tanh h n cs.
Proof. apply lookup_H1, lookup_neuron_tanh. Qed.

(** The running sums are reached from the result. *)
Lemma reach_acc k : 1 ≤ k → k ≤ m → reach H1 root (acc_at L (nn.b n) k).
Proof.
  intros Hk Hkm. remember (m - k) as d eqn:Ed. revert k Hk Hkm Ed.
  induction d as [|d IH]; intros k Hk Hkm Ed.
  - assert (k = m) as -> by lia. apply rtc_once. unfold consumes.
    rewrite H1_root. simpl.
    apply (elem_of_set_order set_order_perm). by left.
  - eapply rtc_r; [apply (IH (S k)); lia|].
    destruct (lookup_lt_is_Some_2 items k) as [[wi c] Hi]; [lia|].
    destruct (sum_nodes_at (λ r, data (h !!! r)) items L (nn.b n)
                (data (h !!! nn.b n)) k wi c Hi) as (d1 & d2 & _ & _ & E2).
    unfold consumes. cbn [acc_at].
    replace (L + 3 * k + 2) with (L + (3 * k + 2)) by lia.
    rewrite (lookup_H1 (3 * k + 2) _ (lookup_new_sum _ _ E2)).
    simpl. apply (elem_of_set_order set_order_perm). by left.
Qed.

Variables (fuel : nat) (h2 : heap).
Hypothesis Hf : root < fuel.
Hypothesis B : backward fuel root H1 = Some h2.

Local Abbreviation y := (1 - float_pow (data (H1 !!! root)) 2)%float.

Lemma grad_root : grad (h2 !!! root) = 1%float.
Proof.
  destruct (backward_root_grad H1 root fuel (neuron_heap_ok set_order_perm h n cs Hok Hn)
              root_lt Hf) as (h2' & B' & E).
  congruence.
Qed.

(** The chain rule along one edge of the graph of the neuron. *)
Lemma through u x :
  reach H1 root u → x ≠ root →
  (∀ j N, new !! j = Some N → x ∈ _prev N → L + j = u) →
  grad (h2 !!! x)
  = grad (call_backward (alter (with_grad (grad (h2 !!! u))) u H1) u !!! x).
Proof.
  intros Hu Hx Hnew.
  apply (grad_through h new root fuel); try done.
  - apply (neuron_heap_ok set_order_perm h n cs Hok Hn).
  - unfold neuron_out. lia.
  - apply root_lt.
  - intros j N c. apply old_operands_apart.
Qed.

Lemma grad_acc k :
  1 ≤ k → k ≤ m → grad (h2 !!! acc_at L (nn.b n) k) = (0 + y)%float.
Proof.
  intros Hk Hkm. remember (m - k) as d eqn:Ed. revert k Hk Hkm Ed.
  induction d as [|d IH]; intros k Hk Hkm Ed.
  - assert (k = m) as -> by lia.
    destruct (lookup_lt_is_Some_2 items (m - 1)) as [[wi c] Hi]; [lia|].
    destruct (sum_nodes_at (λ r, data (h !!! r)) items L (nn.b n)
                (data (h !!! nn.b n)) (m - 1) wi c Hi) as (d1 & d2 & _ & _ & E2).
    assert (Ex : acc_at L (nn.b n) m = L + (3 * (m - 1) + 2)).
    { destruct m eqn:Em; simpl; lia. }
    rewrite (through root); [|done|rewrite Ex; unfold neuron_out; lia|].
    + rewrite grad_root.
      rewrite (closure_tanh H1 root _ (data (H1 !!! root)));
        [|apply root_lt|rewrite Ex, length_neuron_heap; unfold neuron_out; lia
         |rewrite Ex; unfold neuron_out; lia|by rewrite H1_root].
      rewrite Ex, (lookup_H1 _ _ (lookup_new_sum _ _ E2)). simpl.
      by rewrite float_mul_1_r.
    + intros j N Hj Hx.
      destruct (neuron_operands set_order_perm h n cs j N _ Hj Hx)
        as [(i & wi' & c' & Hi' & [[_ [Hw|?]]|[-> [Ha|?]]])|[-> _]];
        unfold neuron_out; try lia.
      * apply item_weight, weight_param, param_lt in Hi'. lia.
      * apply item_lt in Hi'. destruct i; simpl in Ha.
        -- pose proof (param_lt _ bias_param). lia.
        -- lia.
  - destruct (lookup_lt_is_Some_2 items k) as [[wi c] Hi]; [lia|].
    destruct (sum_nodes_at (λ r, data (h !!! r)) items L (nn.b n)
                (data (h !!! nn.b n)) k wi c Hi) as (d1 & d2 & _ & _ & E2).
    destruct (lookup_lt_is_Some_2 items (k - 1)) as [[wi0 c0] Hi0]; [lia|].
    destruct (sum_nodes_at (λ r, data (h !!! r)) items L (nn.b n)
                (data (h !!! nn.b n)) (k - 1) wi0 c0 Hi0)
      as (d3 & d4 & _ & _ & E0).
    assert (Ex : acc_at L (nn.b n) k = L + (3 * (k - 1) + 2)).
    { destruct k; simpl; lia. }
    assert (Eu : acc_at L (nn.b n) (S k) = L + (3 * k + 2)) by (simpl; lia).
    rewrite (through (acc_at L (nn.b n) (S k)));
      [|apply reach_acc; lia|rewrite Ex; unfold neuron_out; lia|].
    + rewrite (IH (S k)) by lia.
      rewrite (closure_add_self H1 _ _ (L + 3 * k + 1)).
      * rewrite Ex, (lookup_H1 _ _ (lookup_new_sum _ _ E0)). simpl.
        by rewrite float_mul_1_l, float_add_0_l_idemp.
      * rewrite Eu, length_neuron_heap. unfold neuron_out. lia.
      * rewrite Ex, length_neuron_heap. unfold neuron_out. lia.
      * rewrite Ex, Eu. lia.
      * rewrite Ex. lia.
      * rewrite Eu, (lookup_H1 _ _ (lookup_new_sum _ _ E2)). simpl.
        f_equal; lia.
    + intros j N Hj Hx.
      destruct (neuron_operands set_order_perm h n cs j N _ Hj Hx)
        as [(i & wi' & c' & Hi' & [[_ [Hw|?]]|[-> [Ha|?]]])|[-> Ha]];
        rewrite ?Eu; try lia.
      * apply item_weight, weight_param, param_lt in Hi'. lia.
      * destruct i; simpl in Ha.
        -- pose proof (param_lt _ bias_param). lia.
        -- lia.
      * unfold neuron_act in Ha. destruct m; simpl in Ha; lia.
Qed.

Lemma grad_product i :
  i < m → grad (h2 !!! (L + (3 * i + 1))) = (0 + y)%float.
Proof.
  intros Him.
  destruct (lookup_lt_is_Some_2 items i) as [[wi c] Hi]; [lia|].
  destruct (sum_nodes_at (λ r, data (h !!! r)) items L (nn.b n)
              (data (h !!! nn.b n)) i wi c Hi) as (d1 & d2 & _ & E1 & E2).
  assert (Eu : acc_at L (nn.b n) (S i) = L + (3 * i + 2)) by (simpl; lia).
  assert (Ha : acc_at L (nn.b n) i < L + 3 * i).
  { destruct i; simpl; [|lia]. pose proof (param_lt _ bias_param). lia. }
  rewrite (through (acc_at L (nn.b n) (S i)));
    [|apply reach_acc; lia|unfold neuron_out; lia|].
  - rewrite (grad_acc (S i)) by lia.
    rewrite (closure_add_other H1 _ (acc_at L (nn.b n) i)).
    + rewrite (lookup_H1 _ _ (lookup_new_sum _ _ E1)). simpl.
      by rewrite float_mul_1_l, float_add_0_l_idemp.
    + rewrite Eu, length_neuron_heap. unfold neuron_out. lia.
    + rewrite length_neuron_heap. unfold neuron_out. lia.
    + rewrite Eu. lia.
    + lia.
    + rewrite Eu. lia.
    + rewrite Eu, (lookup_H1 _ _ (lookup_new_sum _ _ E2)). simpl.
      f_equal; lia.
  - intros j N Hj Hx.
    destruct (neuron_operands set_order_perm h n cs j N _ Hj Hx)
      as [(i' & wi' & c' & Hi' & [[_ [Hw|?]]|[-> [Ha'|?]]])|[-> Ha']];
      rewrite ?Eu; try lia.
    + apply item_weight, weight_param, param_lt in Hi'. lia.
    + destruct i'; simpl in Ha'.
      * pose proof (param_lt _ bias_param). lia.
      * lia.
    + unfold neuron_act in Ha'. destruct m eqn:Em; simpl in Ha'; lia.
Qed.

Lemma grad_weight i wi c :
  items !! i = Some (wi, c) →
  grad (h2 !!! wi) = (grad (h !!! wi) + c * (0 + y))%float.
Proof.
  intros Hi. pose proof (item_lt _ _ _ Hi) as Him.
  pose proof (param_lt _ (weight_param _ _ (item_weight _ _ _ Hi))) as Hwl.
  destruct (sum_nodes_at (λ r, data (h !!! r)) items L (nn.b n)
              (data (h !!! nn.b n)) i wi c Hi) as (d1 & d2 & E0 & E1 & E2).
  rewrite (through (L + (3 * i + 1))); [| |unfold neuron_out; lia|].
  - rewrite grad_product by done.
    rewrite (closure_mul_self H1 _ _ (L + 3 * i)).
    + rewrite (lookup_H1 _ _ (lookup_new_sum _ _ E0)). simpl.
      by rewrite lookup_H1_old.
    + rewrite length_neuron_heap. unfold neuron_out. lia.
    + rewrite length_neuron_heap. unfold neuron_out. lia.
    + lia.
    + lia.
    + rewrite (lookup_H1 _ _ (lookup_new_sum _ _ E1)). simpl. f_equal; lia.
  - eapply rtc_r; [apply (reach_acc (S i)); lia|].
    unfold consumes. cbn [acc_at].
    replace (L + 3 * i + 2) with (L + (3 * i + 2)) by lia.
    rewrite (lookup_H1 _ _ (lookup_new_sum _ _ E2)). simpl.
    apply (elem_of_set_order set_order_perm). rewrite !elem_of_cons.
    right. left. lia.
  - intros j N Hj Hx.
    destruct (neuron_operands set_order_perm h n cs j N _ Hj Hx)
      as [(i' & wi' & c' & Hi' & [[-> [Hw|?]]|[-> [Ha'|?]]])|[-> Ha']];
      try lia.
    + subst wi'. apply item_weight in Hi, Hi'.
      rewrite (weight_inj _ _ _ Hi Hi'). lia.
    + destruct i'; simpl in Ha'; [|lia].
      by apply item_weight, weight_not_bias in Hi.
    + unfold neuron_act in Ha'. destruct m eqn:Em; simpl in Ha'; [|lia].
      by apply item_weight, weight_not_bias in Hi.
Qed.

Lemma grad_bias :
  grad (h2 !!! nn.b n)
  = (grad (h !!! nn.b n) + match items with [] => y | _ => 0 + y end)%float.
Proof.
  pose proof (param_lt _ bias_param) as Hbl.
  destruct items as [|[w0 c0] rest] eqn:Ei.
  - assert (Em : m = 0) by (by rewrite Ei).
    assert (Ea : neuron_act h n cs = nn.b n) by (unfold neuron_act; by rewrite Em).
    rewrite (through root); [|done|unfold neuron_out; lia|].
    + rewrite grad_root.
      rewrite (closure_tanh H1 root _ (data (H1 !!! root)));
        [|apply root_lt|rewrite length_neuron_heap; unfold neuron_out; lia
         |unfold neuron_out; lia|by rewrite H1_root, <- Ea].
      by rewrite float_mul_1_r, lookup_H1_old.
    + intros j N Hj Hx.
      destruct (neuron_operands set_order_perm h n cs j N _ Hj Hx)
        as [(i' & wi' & c' & Hi' & _)|[-> _]].
      * apply item_lt in Hi'. lia.
      * unfold neuron_out. lia.
  - assert (Hi : items !! 0 = Some (w0, c0)) by (by rewrite Ei).
    destruct (sum_nodes_at (λ r, data (h !!! r)) items L (nn.b n)
                (data (h !!! nn.b n)) 0 w0 c0 Hi) as (d1 & d2 & _ & _ & E2).
    pose proof (item_lt _ _ _ Hi) as Hm.
    assert (Eu : acc_at L (nn.b n) 1 = L + (3 * 0 + 2)) by (simpl; lia).
    rewrite (through (acc_at L (nn.b n) 1));
      [|apply reach_acc; lia|unfold neuron_out; lia|].
    + rewrite (grad_acc 1) by lia.
      rewrite (closure_add_self H1 _ _ (L + 1)).
      * by rewrite lookup_H1_old, float_mul_1_l.
      * rewrite Eu, length_neuron_heap. unfold neuron_out. lia.
      * rewrite length_neuron_heap. unfold neuron_out. lia.
      * rewrite Eu. lia.
      * lia.
      * rewrite Eu, (lookup_H1 _ _ (lookup_new_sum _ _ E2)).
        cbn [_backward acc_at]. f_equal; lia.
    + intros j N Hj Hx.
      destruct (neuron_operands set_order_perm h n cs j N _ Hj Hx)
        as [(i' & wi' & c' & Hi' & [[-> [Hw|?]]|[-> [Ha'|?]]])|[-> Ha']];
        rewrite ?Eu; try lia.
      * subst wi'. by apply item_weight, weight_not_bias in Hi'.
      * destruct i'; simpl in Ha'; lia.
      * unfold neuron_act in Ha'. destruct m eqn:Em; simpl in Ha'; lia.
Qed.

(** A weight beyond the last input is not part of the graph. *)
Lemma grad_unused i wi :
  nn.w n !! i = Some wi → m ≤ i → grad (h2 !!! wi) = grad (h !!! wi).
Proof.
  intros Hi Him.
  pose proof (param_lt _ (weight_param _ _ Hi)) as Hwl.
  rewrite <- (lookup_H1_old wi) by done.
  apply (backward_unreachable H1 root fuel); try done.
  { apply (neuron_heap_ok set_order_perm h n cs Hok Hn). }
  intros Hr.
  destruct (reach_crossing h new root wi
              (neuron_heap_ok set_order_perm h n cs Hok Hn) Hr)
    as (j & N & c & Hj & Hc & Hcl & Hcw); [unfold neuron_out; lia|done|].
  apply (reach_leaf h c wi) in Hcw; [|by eapply Hleaf, old_operand_param].
  subst c.
  destruct (neuron_operands set_order_perm h n cs j N _ Hj Hc)
    as [(i' & wi' & c' & Hi' & [[-> [Hw|?]]|[-> [Ha'|?]]])|[-> Ha']]; try lia.
  - subst wi'. pose proof (item_lt _ _ _ Hi'). apply item_weight in Hi'.
    rewrite (weight_inj _ _ _ Hi Hi') in *. lia.
  - destruct i'; simpl in Ha'; [|lia]. by apply weight_not_bias in Hi.
  - unfold neuron_act in Ha'. destruct m eqn:Em; simpl in Ha'; [|lia].
    by apply weight_not_bias in Hi.
Qed.

End NeuronGradients.

Section NeuronBackward.
Context `{PyRuntime}.
Hypothesis set_order_perm : ∀ l, set_order l ≡ₚ remove_dups l.

(** X24.  The gradients of a neuron.  For a neuron whose parameters are
    distinct leaves, called on a list of numbers for which its [tanh] is in
    range, [backward()] from the output [t] adds [c * g] to the gradient of
    the weight paired with the input [c], where [g = 0.0 + (1 - t**2)] is
    the gradient that reaches the sum, and adds [g] to the gradient of the
    bias ([1 - t**2] when there is no product, the bias being the operand of
    [tanh] itself); a weight beyond the last input keeps its gradient. *)
Theorem Neuron_gradients (h : heap) (n : nn.Neuron) (cs : list float)
    (fuel : nat) :
  heap_ok h → neuron_in h n → NoDup (nn.Neuron_parameters n) →
  (∀ p, p ∈ nn.Neuron_parameters n → _prev (h !!! p) = []) →
  neuron_in_range h n cs →
  length h + 3 * length cs < fuel →
  ∃ out h1 h2,
    nn.Neuron_call n (nn.InList (ONum <$> cs)) h = nn.Return out h1
    ∧ backward fuel out h1 = Some h2
    ∧ (∀ i wi c, nn.w n !! i = Some wi → cs !! i = Some c →
         grad (h2 !!! wi)
         = (grad (h !!! wi)
            + c * (0 + (1 - float_pow (data (h1 !!! out)) 2)))%float)
    ∧ (∀ i wi, nn.w n !! i = Some wi → length cs ≤ i →
         grad (h2 !!! wi) = grad (h !!! wi))
    ∧ grad (h2 !!! nn.b n)
      = (grad (h !!! nn.b n)
         + match zip (nn.w n) cs with
           | [] => 1 - float_pow (data (h1 !!! out)) 2
           | _ => 0 + (1 - float_pow (data (h1 !!! out)) 2)
           end)%float.
Proof.
  intros Hok Hn Hnd Hleaf _ Hf.
  assert (Hm : length (zip (nn.w n) cs) ≤ length cs).
  { rewrite length_zip_with. lia. }
  assert (Hf' : neuron_out h n cs < fuel) by (unfold neuron_out; lia).
  destruct (backward_root_grad (neuron_heap h n cs) (neuron_out h n cs) fuel
              (neuron_heap_ok set_order_perm h n cs Hok Hn)
              (root_lt h n cs) Hf') as (h2 & B & _).
  exists (neuron_out h n cs), (neuron_heap h n cs), h2. split_and!.
  - by apply Neuron_call_nodes.
  - done.
  - intros i wi c Hi Hc.
    apply (grad_weight set_order_perm h n cs Hok Hn Hnd Hleaf fuel h2 Hf' B i).
    apply lookup_zip_with_Some. by exists wi, c.
  - intros i wi Hi Hc.
    apply (grad_unused set_order_perm h n cs Hok Hn Hnd Hleaf fuel h2 Hf' B i);
      [done|lia].
  - apply (grad_bias set_order_perm h n cs Hok Hn Hnd Hleaf fuel h2 Hf' B).
Qed.

End NeuronBackward.

Lemma length_sums_down L start k : length (sums_down L start k) = S k.
Proof. induction k as [|k IH]; simpl; [done|]. by rewrite IH. Qed.

Lemma elem_of_sums_down L start k x :
  x ∈ sums_down L start k → ∃ j, j ≤ k ∧ x = acc_at L start j.
Proof.
  induction k as [|k IH]; simpl.
  - intros ->%list_elem_of_singleton. by exists 0.
  - intros [->|Hx]%elem_of_cons; [by exists (S k)|].
    destruct (IH Hx) as (j & ? & ->). exists j. split; [lia|done].
Qed.

Lemma spine_cons h v c rest :
  c ∈ _prev (h !!! v) →
  (∀ c', c' ∈ _prev (h !!! v) → c' ≠ c → ∀ x, x ∈ c :: rest → ¬ reach h c' x) →
  spine h (c :: rest) → spine h (v :: c :: rest).
Proof. intros Hc Hs Hr. simpl. auto. Qed.

Section NeuronDepth.
Context `{PyRuntime}.
Hypothesis set_order_perm : ∀ l, set_order l ≡ₚ remove_dups l.
Variables (h : heap) (n : nn.Neuron) (cs : list float).
Hypothesis Hok : heap_ok h.
Hypothesis Hn : neuron_in h n.
Hypothesis Hnd : NoDup (nn.Neuron_parameters n).
Hypothesis Hleaf : ∀ p, p ∈ nn.Neuron_parameters n → _prev (h !!! p) = [].

Local Abbreviation items := (zip (nn.w n) cs).
Local Abbreviation m := (length (zip (nn.w n) cs)).
Local Abbreviation L := (length h).
Local Abbreviation new := (neuron_sum h n cs ++ [neuron_tanh h n cs]).
Local Abbreviation H1 := (neuron_heap h n cs).
Local Abbreviation root := (neuron_out h n cs).

Lemma acc_at_lt j : j ≤ m → acc_at L (nn.b n) j < root.
Proof.
  intros Hj. unfold neuron_out. destruct j; simpl; [|lia].
  pose proof (param_lt h n Hn _ (bias_param n)). lia.
Qed.

Lemma NoDup_sums_down k : NoDup (sums_down L (nn.b n) k).
Proof.
  induction k as [|k IH]; simpl; [apply NoDup_singleton|].
  apply NoDup_cons. split; [|done].
  intros (j & Hj & Ej)%elem_of_sums_down.
  destruct j; simpl in Ej; [|lia].
  pose proof (param_lt h n Hn _ (bias_param n)). lia.
Qed.

(** A product reaches itself, its weight and the wrapped number. *)
Lemma reach_product_cases i wi c x :
  items !! i = Some (wi, c) → reach H1 (L + (3 * i + 1)) x →
  x = L + (3 * i + 1) ∨ x = wi ∨ x = L + 3 * i.
Proof.
  intros Hi Hr.
  destruct (sum_nodes_at (λ r, data (h !!! r)) items L (nn.b n)
              (data (h !!! nn.b n)) i wi c Hi) as (d1 & d2 & E0 & E1 & _).
  apply reach_inv in Hr as [->|(c' & Hc & Hr)]; [by left|]. right.
  unfold consumes in Hc.
  rewrite (lookup_H1 h n cs _ _ (lookup_new_sum h n cs _ _ E1)) in Hc.
  simpl in Hc. apply (binary_operands set_order_perm) in Hc as [-> | ->].
  - left. apply (reach_leaf H1 wi x); [|done].
    pose proof (weight_param n _ _ (item_weight n cs _ _ _ Hi)) as Hp.
    rewrite (lookup_H1_old h n cs) by (by apply (param_lt h n Hn)).
    by apply Hleaf.
  - right. apply (reach_leaf H1 _ x); [|done].
    replace (L + 3 * i) with (L + (3 * i)) by lia.
    rewrite (lookup_H1 h n cs _ _ (lookup_new_sum h n cs _ _ E0)). simpl.
    apply (set_order_nil set_order_perm).
Qed.

Lemma spine_sums k : k ≤ m → spine H1 (sums_down L (nn.b n) k).
Proof.
  induction k as [|k IH]; intros Hk; [done|].
  cbn [sums_down]. 
  destruct (lookup_lt_is_Some_2 items k) as [[wi c] Hi]; [lia|].
  destruct (sum_nodes_at (λ r, data (h !!! r)) items L (nn.b n)
              (data (h !!! nn.b n)) k wi c Hi) as (d1 & d2 & _ & _ & E2).
  assert (Eh : H1 !!! acc_at L (nn.b n) (S k)
               = mkValue d2 0
                   (add_backward (acc_at L (nn.b n) k) (L + 3 * k + 1) (L + 3 * k + 2))
                   (set_order [acc_at L (nn.b n) k; L + 3 * k + 1]) (Tag "+") "").
  { cbn [acc_at]. replace (L + 3 * k + 2) with (L + (3 * k + 2)) at 1 by lia.
    apply (lookup_H1 h n cs), (lookup_new_sum h n cs), E2. }
  assert (Hs : sums_down L (nn.b n) k
               = acc_at L (nn.b n) k :: tail (sums_down L (nn.b n) k))
    by (by destruct k).
  rewrite Hs. apply spine_cons.
  - rewrite Eh. simpl. apply (elem_of_set_order set_order_perm). by left.
  - intros c' Hc' Hne x Hx Hr. rewrite <- Hs in Hx. rewrite Eh in Hc'.
    cbn [_prev] in Hc'.
    apply (binary_operands set_order_perm) in Hc' as [->| ->]; [done|].
    replace (L + 3 * k + 1) with (L + (3 * k + 1)) in Hr by lia.
    apply elem_of_sums_down in Hx as (j & Hj & ->).
    apply (reach_product_cases _ _ _ _ Hi) in Hr as [Hr|[Hr|Hr]].
    + destruct j; simpl in Hr; [|lia].
      pose proof (param_lt h n Hn _ (bias_param n)). lia.
    + destruct j; simpl in Hr.
      * by apply item_weight, (weight_not_bias n Hnd) in Hi.
      * apply item_weight, weight_param, (param_lt h n Hn) in Hi. lia.
    + destruct j; simpl in Hr; [|lia].
      pose proof (param_lt h n Hn _ (bias_param n)). lia.
  - rewrite <- Hs. apply IH. lia.
Qed.

Lemma spine_neuron : spine H1 (root :: sums_down L (nn.b n) m).
Proof.
  assert (Hs : sums_down L (nn.b n) m
               = acc_at L (nn.b n) m :: tail (sums_down L (nn.b n) m))
    by (by destruct m).
  rewrite Hs. apply spine_cons.
  - rewrite (H1_root h n cs). simpl.
    apply (elem_of_set_order set_order_perm). by left.
  - intros c' Hc' Hne. rewrite (H1_root h n cs) in Hc'. simpl in Hc'.
    by apply (unary_operand set_order_perm) in Hc'.
  - rewrite <- Hs. by apply spine_sums.
Qed.

Lemma NoDup_neuron_spine : NoDup (root :: sums_down L (nn.b n) m).
Proof.
  apply NoDup_cons. split; [|apply NoDup_sums_down].
  intros (j & Hj & Ej)%elem_of_sums_down.
  pose proof (acc_at_lt j Hj). lia.
Qed.

End NeuronDepth.

Section NeuronRecursion.
Context `{PyRuntime}.
Hypothesis set_order_perm : ∀ l, set_order l ≡ₚ remove_dups l.

(** X25.  The traversal of [backward] goes down the chain of running sums
    of a neuron.  When the call of the neuron returns (its [tanh] is in
    range), with [k] products in the sum, a depth of recursion below
    [k + 2] is not enough for [backward()] from the output to complete. *)
Theorem Neuron_backward_depth (h : heap) (n : nn.Neuron) (cs : list float)
    (fuel : nat) :
  heap_ok h → neuron_in h n → NoDup (nn.Neuron_parameters n) →
  (∀ p, p ∈ nn.Neuron_parameters n → _prev (h !!! p) = []) →
  neuron_in_range h n cs →
  fuel < length (nn.w n) `min` length cs + 2 →
  ∃ out h1,
    nn.Neuron_call n (nn.InList (ONum <$> cs)) h = nn.Return out h1
    ∧ backward fuel out h1 = None.
Proof.
  intros Hok Hn Hnd Hleaf _ Hf.
  exists (neuron_out h n cs), (neuron_heap h n cs).
  split; [by apply Neuron_call_nodes|].
  apply (backward_spine _ _ _ (sums_down (length h) (nn.b n)
                                      (length (zip (nn.w n) cs)))).
  - by apply spine_neuron.
  - by apply NoDup_neuron_spine.
  - cbn [length]. rewrite length_sums_down, length_zip_with. lia.
Qed.

End NeuronRecursion.

(* ===================================================================== *)
(** ** The theorems at concrete inputs *)
(* ===================================================================== *)

Lemma sample_order_perm :
  ∀ l, @set_order sample_runtime l ≡ₚ remove_dups l.
Proof. done. Qed.

Lemma single_node_ok d : heap_ok (single_node d).
Proof. by apply heap_okb_spec. Qed.

Example run_x_squared_plus_x :
  @x_squared_plus_x sample_runtime [] = Ok (0, 2) shared_operand_heap.
Proof. reflexivity. Qed.

Example run_backward_order :
  backward_order 3 shared_operand_heap 2 = Some [2; 1; 0].
Proof. vm_compute. reflexivity. Qed.

Example run_backward :
  map grad <$> @backward sample_runtime 3 2 shared_operand_heap
  = Some [7%float; 1%float; 1%float].
Proof. vm_compute. reflexivity. Qed.

Example run_buildTopo_calls :
  buildTopo_calls 3 shared_operand_heap 2 (∅, []) = 4.
Proof. vm_compute. reflexivity. Qed.

Example run_backward_short_of_fuel :
  @backward sample_runtime 2 2 shared_operand_heap = None.
Proof. vm_compute. reflexivity. Qed.

Example run_five_minus_x :
  (λ res, match res with Ok d _ => Some d | Raise _ _ => None end)
    (@five_minus_x sample_runtime []) = Some (-2)%float.
Proof. reflexivity. Qed.

Lemma accumulation_over_shared_operand_witness :
  ∃ x y h1 h2,
    @x_squared_plus_x sample_runtime [] = Ok (x, y) h1
    ∧ data (h1 !!! x) = 3%float ∧ grad (h1 !!! x) = 0%float
    ∧ data (h1 !!! y) = 12%float
    ∧ @backward sample_runtime 3 y h1 = Some h2
    ∧ grad (h2 !!! x) = 7%float.
Proof.
  apply (@accumulation_over_shared_operand sample_runtime sample_order_perm
           [] 3); [apply heap_ok_nil|simpl; lia].
Defined.


Lemma pow_rejects_non_number_witness :
  @__pow__ sample_runtime 0 (PyValue 0) (single_node 2)
  = Raise (AssertionError "only supporting int/float powers for now")
      (single_node 2).
Proof.
  apply (@pow_rejects_non_number sample_runtime 0 (PyValue 0) (single_node 2)).
  intros n. discriminate.
Defined.

(** C5, as stated, fails in three places.  [relu] of a node holding NaN
    holds NaN, where [x if x > 0 else 0] is [0].  After
    [x = Value(0.0); y = x * 5.0; y.backward()] the gradient of [x] is
    [5.0], and [x.relu().backward()] leaves it at [5.0], not at [0].  And
    in [x = Value(0.0); r = x.relu(); y = r * inf; y.backward()] the output
    of [relu] is not positive and its gradient is infinite: [x] receives
    [0.0 * inf], so its gradient is NaN, not [0]. *)
Lemma relu_claim_counterexample :
  (∃ out h1,
     @relu sample_runtime 0 (single_node nan) = Ok out h1
     ∧ is_nan (data (h1 !!! out)) = true
     ∧ (if (0 <? nan)%float then nan else 0%float) = 0%float
     ∧ ¬ same_number (data (h1 !!! out))
           (if (0 <? nan)%float then nan else 0%float))
  ∧ (∃ x h0 y h1 h2 r h3 h4,
       @new_Value sample_runtime 0 [] = Ok x h0
       ∧ @__mul__ sample_runtime x (ONum 5) h0 = Ok y h1
       ∧ @backward sample_runtime 3 y h1 = Some h2
       ∧ @relu sample_runtime x h2 = Ok r h3
       ∧ py_eq (data (h3 !!! x)) 0 ∧ py_eq (data (h3 !!! r)) 0
       ∧ @backward sample_runtime 4 r h3 = Some h4
       ∧ grad (h4 !!! x) = 5%float ∧ ¬ py_eq (grad (h4 !!! x)) 0)
  ∧ (∃ x h0 r h1 y h2 h3,
       @new_Value sample_runtime 0 [] = Ok x h0
       ∧ @relu sample_runtime x h0 = Ok r h1
       ∧ @__mul__ sample_runtime r (ONum infinity) h1 = Ok y h2
       ∧ @backward sample_runtime 4 y h2 = Some h3
       ∧ (0 <? data (h3 !!! r))%float = false
       ∧ grad (h3 !!! r) = infinity
       ∧ is_nan (grad (h3 !!! x)) = true
       ∧ ¬ same_number (grad (h3 !!! x)) 0).
Proof.
  split_and!.
  - do 2 eexists. split_and!; [reflexivity..|]. by intros [?|[_ ?]].
  - do 8 eexists. split_and!; [reflexivity..|vm_compute; reflexivity|].
    vm_compute. discriminate.
  - do 7 eexists. split_and!; [reflexivity..|vm_compute; reflexivity| |].
    + vm_compute. reflexivity.
    + vm_compute. by intros [?|[_ ?]].
Qed.

Lemma relu_forward_backward_witness :
  ∃ out h1 h2,
    @relu sample_runtime 0 (single_node 0) = Ok out h1
    ∧ (is_nan (data (single_node 0 !!! 0%nat)) = false →
       py_eq (data (h1 !!! out))
         (if (0 <? data (single_node 0 !!! 0%nat))%float
          then data (single_node 0 !!! 0%nat) else 0%float))
    ∧ (is_nan (data (single_node 0 !!! 0%nat)) = true →
       is_nan (data (h1 !!! out)) = true)
    ∧ (∀ g, ∃ received,
         grad (@call_backward sample_runtime (alter (with_grad g) out h1) out
               !!! 0%nat)
         = (grad (single_node 0 !!! 0%nat) + received)%float
         ∧ ((0 <? data (h1 !!! out))%float = true → received = g)
         ∧ ((0 <? data (h1 !!! out))%float = false → is_finite g = true →
            py_eq received 0)
         ∧ ((0 <? data (h1 !!! out))%float = false → is_finite g = false →
            is_nan received = true))
    ∧ @backward sample_runtime 2 out h1 = Some h2
    ∧ grad (h2 !!! 0%nat)
      = (grad (single_node 0 !!! 0%nat)
         + (if (0 <? data (h1 !!! out))%float then 1 else 0))%float
    ∧ (py_eq (data (single_node 0 !!! 0%nat)) 0 →
       py_eq (data (h1 !!! out)) 0
       ∧ same_number (grad (h2 !!! 0%nat)) (grad (single_node 0 !!! 0%nat))
       ∧ (py_eq (grad (single_node 0 !!! 0%nat)) 0 →
          py_eq (grad (h2 !!! 0%nat)) 0)).
Proof.
  apply (@relu_forward_backward sample_runtime sample_order_perm
           (single_node 0) 0 2); [apply single_node_ok|simpl; lia..].
Defined.

Lemma sub_is_add_of_negate_witness :
  ∃ r h1 h2 r' h1' h2',
    @__sub__ sample_runtime 0 (OValue 1) two_leaves = Ok r h1
    ∧ @backward sample_runtime 5 r h1 = Some h2
    ∧ @add_of_negate sample_runtime 0 1 two_leaves = Ok r' h1'
    ∧ @backward sample_runtime 5 r' h1' = Some h2'
    ∧ data (h1 !!! r) = data (h1' !!! r')
    ∧ grad (h2 !!! 0%nat) = grad (h2' !!! 0%nat)
    ∧ grad (h2 !!! 1%nat) = grad (h2' !!! 1%nat)
    ∧ data (h1 !!! r)
      = (data (two_leaves !!! 0%nat) - data (two_leaves !!! 1%nat))%float.
Proof.
  apply (@sub_is_add_of_negate sample_runtime sample_order_perm two_leaves
           0 1 5); [by apply heap_okb_spec|simpl; lia..].
Defined.

Lemma add_zero_mul_one_identity_witness :
  (∃ out h1 h2,
     @__add__ sample_runtime 0 (ONum 0) (single_node 2.5) = Ok out h1
     ∧ same_number (data (h1 !!! out)) (data (single_node 2.5 !!! 0%nat))
     ∧ (data (single_node 2.5 !!! 0%nat) ≠ (-0)%float →
        data (h1 !!! out) = data (single_node 2.5 !!! 0%nat))
     ∧ (∀ g, grad (@call_backward sample_runtime
                     (alter (with_grad g) out h1) out !!! 0%nat)
             = (grad (single_node 2.5 !!! 0%nat) + g)%float)
     ∧ @backward sample_runtime 3 out h1 = Some h2
     ∧ grad (h2 !!! 0%nat) = (grad (single_node 2.5 !!! 0%nat) + 1)%float)
  ∧ (∃ out h1 h2,
       @__mul__ sample_runtime 0 (ONum 1) (single_node 2.5) = Ok out h1
       ∧ data (h1 !!! out) = data (single_node 2.5 !!! 0%nat)
       ∧ (∀ g, grad (@call_backward sample_runtime
                       (alter (with_grad g) out h1) out !!! 0%nat)
               = (grad (single_node 2.5 !!! 0%nat) + g)%float)
       ∧ @backward sample_runtime 3 out h1 = Some h2
       ∧ grad (h2 !!! 0%nat) = (grad (single_node 2.5 !!! 0%nat) + 1)%float).
Proof.
  apply (@add_zero_mul_one_identity sample_runtime sample_order_perm
           (single_node 2.5) 0 3); [apply single_node_ok|simpl; lia..].
Defined.

Lemma sigmoid_tanh_at_zero_witness :
  (∃ out h', @sigmoid sample_runtime 0 (single_node 0) = Ok out h'
             ∧ data (h' !!! out) = 0.5%float)
  ∧ (∃ out h', @tanh sample_runtime 0 (single_node 0) = Ok out h'
               ∧ data (h' !!! out) = 0%float).
Proof.
  apply (@sigmoid_tanh_at_zero sample_runtime (single_node 0) 0);
    reflexivity.
Defined.

Lemma shared_operand_heap_built : @built sample_runtime shared_operand_heap.
Proof.
  apply (built_call (take 2 shared_operand_heap) (call_add 1 (OValue 0)) 2);
    [|simpl; lia|reflexivity].
  apply (built_call (take 1 shared_operand_heap) (call_mul 0 (OValue 0)) 1);
    [|simpl; lia|reflexivity].
  by apply (built_call [] (call_Value 3) 0); [apply built_empty|..].
Qed.

Lemma backward_terminates_witness :
  ∃ h' order,
    (∀ fuel, 2 < fuel →
       backward_order fuel (alter (with_grad 1) 2 shared_operand_heap) 2
       = Some order
       ∧ @backward sample_runtime fuel 2 shared_operand_heap = Some h'
       ∧ buildTopo_calls fuel (alter (with_grad 1) 2 shared_operand_heap) 2
           (∅, [])
         ≤ 1 + 2 * length order)
    ∧ h' = foldl (@call_backward sample_runtime)
             (alter (with_grad 1) 2 shared_operand_heap) order
    ∧ NoDup order
    ∧ (∀ v, v ∈ order → reach shared_operand_heap 2 v)
    ∧ (∀ R : list ref, (∀ v, reach shared_operand_heap 2 v → v ∈ R) →
         length order ≤ length R)
    ∧ length order ≤ length shared_operand_heap.
Proof.
  apply (@backward_terminates sample_runtime sample_order_perm
           shared_operand_heap 2); [apply shared_operand_heap_built|simpl; lia].
Defined.

Lemma backward_accumulates_witness :
  (∃ incs, @backward sample_runtime 4 0 (single_node 4)
           = Some (apply_increments incs
                     (alter (with_grad 1) 0 (single_node 4))))
  ∧ (∀ h' v, @backward sample_runtime 4 0 (single_node 4) = Some h' →
             ¬ reach (single_node 4) 0 v →
             grad (h' !!! v) = grad (single_node 4 !!! v))
  ∧ (∃ x y h1 h2 h3,
       @x_plus_one sample_runtime 5 (single_node 4) = Ok (x, y) h1
       ∧ grad (h1 !!! x) = 0%float
       ∧ @backward sample_runtime 4 y h1 = Some h2
       ∧ grad (h2 !!! x) = 1%float
       ∧ @backward sample_runtime 4 y h2 = Some h3
       ∧ grad (h3 !!! x) = 2%float
       ∧ grad (h3 !!! y) = 1%float).
Proof.
  apply (@backward_accumulates sample_runtime sample_order_perm
           (single_node 4) 5 0 4); [apply single_node_ok|simpl; lia..].
Defined.

(* ===================================================================== *)
(** ** The further properties at concrete inputs *)
(* ===================================================================== *)

Section Samples.
#[local] Existing Instance sample_runtime.
#[local] Existing Instance sample_random.

Lemma two_leaves_apart (a b : ref) : a ≠ b → ¬ reach two_leaves a b.
Proof.
  intros Hne Hr. apply reach_leaf in Hr; [done|]. by destruct a as [|[|a]].
Qed.

Lemma relu_chain_spine : spine relu_chain [2; 1; 0].
Proof.
  simpl. split_and!; try done; try (by left);
    by intros c' ->%list_elem_of_singleton.
Qed.

Lemma relu_chain_NoDup : NoDup [2; 1; 0].
Proof. apply (bool_decide_unpack _). reflexivity. Qed.

Lemma sample_neuron_in : neuron_in neuron_leaves sample_neuron.
Proof. split; [|simpl; lia]. repeat constructor; simpl; lia. Qed.

Lemma sample_neuron_NoDup : NoDup (nn.Neuron_parameters sample_neuron).
Proof. apply (bool_decide_unpack _). reflexivity. Qed.

Lemma sample_neuron_leaves (p : ref) :
  p ∈ nn.Neuron_parameters sample_neuron → _prev (neuron_leaves !!! p) = [].
Proof. intros _. by destruct p as [|[|[|p]]]. Qed.

Lemma sample_layer_in :
  layer_in neuron_leaves (nn.mkLayer [sample_neuron]).
Proof. repeat constructor; simpl; lia. Qed.

Lemma sample_layers_in (ls : list nn.Layer) :
  Forall (λ l, nn.neurons l = [sample_neuron]) ls →
  Forall (layer_in neuron_leaves) ls.
Proof.
  intros Hls. eapply Forall_impl; [exact Hls|].
  intros l Hl. unfold layer_in. rewrite Hl.
  repeat constructor; simpl; lia.
Qed.

Example run_Neuron_init :
  nn.Neuron_init 2 (0 : nn.rng) [] = Ok (sample_neuron, 3) neuron_leaves.
Proof. reflexivity. Qed.

Example run_MLP_init :
  nn.MLP_init 2 [1%Z] (0 : nn.rng) [] = Ok (sample_mlp, 3) neuron_leaves.
Proof. reflexivity. Qed.

Example run_MLP_parameters : nn.MLP_parameters sample_mlp = [0; 1; 2].
Proof. reflexivity. Qed.

Example run_count_parameters : count_parameters 3 [4; 4; 1]%Z = 41.
Proof. reflexivity. Qed.

Example run_Neuron_call :
  (λ res, match res with
          | nn.Return out h => Some (out, data (h !!! out))
          | nn.Fail _ _ => None
          end)
    (nn.Neuron_call sample_neuron (nn.InList [ONum 2; ONum 0]) neuron_leaves)
  = Some (9, (7.5 / 9.5)%float).
Proof. vm_compute. reflexivity. Qed.

Example run_narrow_mlp :
  (λ res, match res with
          | nn.Return _ _ => None
          | nn.Fail e h => Some (e, length h)
          end)
    (nn.MLP_call narrow_mlp (nn.InList [ONum 2; ONum 3]) neuron_leaves)
  = Some (nn.TypeError, 10).
Proof. vm_compute. reflexivity. Qed.

Example run_Neuron_backward_depth :
  (λ res, match res with
          | nn.Return out h =>
              Some (backward 4 out h,
                    from_option (λ _, true) false (backward 5 out h))
          | nn.Fail _ _ => None
          end)
    (nn.Neuron_call sample_neuron (nn.InList [ONum 2; ONum 3]) neuron_leaves)
  = Some (None, true).
Proof. vm_compute. reflexivity. Qed.


Lemma backward_on_leaf_witness :
  backward 1 0 (single_node 2.5) =
  Some (alter (with_grad 1) 0 (single_node 2.5)).
Proof.
  apply (backward_on_leaf (single_node 2.5) 0 1);
    [apply single_node_ok|reflexivity|lia].
Defined.

Lemma backward_needs_depth_witness :
  backward 2 2 relu_chain = None.
Proof.
  apply (backward_needs_depth relu_chain 2 2 [1; 0]);
    [apply relu_chain_spine|apply relu_chain_NoDup|simpl; lia].
Defined.

Lemma mul_product_rule_witness :
  ∃ (out : ref) (h1 h2 : heap),
    __mul__ 0 (OValue 1) two_leaves = Ok out h1
    ∧ data (h1 !!! out) =
      (data (two_leaves !!! 0%nat) * data (two_leaves !!! 1%nat))%float
      ∧ backward 3 out h1 = Some h2
        ∧ grad (h2 !!! 0) =
          (grad (two_leaves !!! 0%nat) + data (two_leaves !!! 1%nat))%float
          ∧ grad (h2 !!! 1) =
            (grad (two_leaves !!! 1%nat) + data (two_leaves !!! 0%nat))%float
            ∧ grad (h2 !!! out) = 1%float.
Proof.
  apply (mul_product_rule sample_order_perm two_leaves 0 1 3);
    first [by apply heap_okb_spec|by apply two_leaves_apart|simpl; lia].
Defined.

Lemma add_sum_rule_witness :
  ∃ (out : ref) (h1 h2 : heap),
    __add__ 0 (OValue 1) two_leaves = Ok out h1
    ∧ data (h1 !!! out) =
      (data (two_leaves !!! 0%nat) + data (two_leaves !!! 1%nat))%float
      ∧ backward 3 out h1 = Some h2
        ∧ grad (h2 !!! 0) = (grad (two_leaves !!! 0%nat) + 1)%float
          ∧ grad (h2 !!! 1) = (grad (two_leaves !!! 1%nat) + 1)%float
            ∧ grad (h2 !!! out) = 1%float.
Proof.
  apply (add_sum_rule sample_order_perm two_leaves 0 1 3);
    first [by apply heap_okb_spec|by apply two_leaves_apart|simpl; lia].
Defined.

Lemma same_operand_twice_witness :
  (∃ (out : ref) (h1 h2 : heap),
     __mul__ 0 (OValue 0) (single_node 3) = Ok out h1
     ∧ _prev (h1 !!! out) = [0]
       ∧ backward 2 out h1 = Some h2
         ∧ grad (h2 !!! 0) =
           (grad (single_node 3 !!! 0%nat) + data (single_node 3 !!! 0%nat) +
            data (single_node 3 !!! 0%nat))%float)
  ∧ ∃ (out : ref) (h1 h2 : heap),
      __add__ 0 (OValue 0) (single_node 3) = Ok out h1
      ∧ _prev (h1 !!! out) = [0]
        ∧ backward 2 out h1 = Some h2
          ∧ grad (h2 !!! 0) = (grad (single_node 3 !!! 0%nat) + 1 + 1)%float.
Proof.
  apply (same_operand_twice sample_order_perm (single_node 3) 0 2);
    [apply single_node_ok|simpl; lia..].
Defined.

Lemma neg_value_and_gradient_witness :
  ∃ (out : ref) (h1 h2 : heap),
    __neg__ 0 (single_node 2) = Ok out h1
    ∧ data (h1 !!! out) = (- data (single_node 2 !!! 0%nat))%float
      ∧ backward 3 out h1 = Some h2
        ∧ grad (h2 !!! 0) = (grad (single_node 2 !!! 0%nat) + -1)%float.
Proof.
  apply (neg_value_and_gradient sample_order_perm (single_node 2) 0 3);
    [apply single_node_ok|simpl; lia..].
Defined.

Lemma number_on_the_left_witness :
  (∃ (out : ref) (h1 h2 : heap),
     __rmul__ 0 4 (single_node 2) = Ok out h1
     ∧ data (h1 !!! out) = (data (single_node 2 !!! 0%nat) * 4)%float
       ∧ data (h1 !!! length (single_node 2)) = 4%float
         ∧ backward 3 out h1 = Some h2
           ∧ grad (h2 !!! 0) = (grad (single_node 2 !!! 0%nat) + 4)%float
             ∧ grad (h2 !!! length (single_node 2)) =
               (0 + data (single_node 2 !!! 0%nat))%float)
  ∧ ∃ (out : ref) (h1 h2 : heap),
      __radd__ 0 4 (single_node 2) = Ok out h1
      ∧ data (h1 !!! out) = (data (single_node 2 !!! 0%nat) + 4)%float
        ∧ data (h1 !!! length (single_node 2)) = 4%float
          ∧ backward 3 out h1 = Some h2
            ∧ grad (h2 !!! 0) = (grad (single_node 2 !!! 0%nat) + 1)%float
              ∧ grad (h2 !!! length (single_node 2)) = 1%float.
Proof.
  apply (number_on_the_left sample_order_perm (single_node 2) 0 3 4%float);
    [apply single_node_ok|simpl; lia..].
Defined.

Lemma rsub_coincides_with_sub_witness :
  ∃ (out : ref) (h1 h2 : heap),
    __rsub__ 0 5 (single_node 3) = Ok out h1
    ∧ __sub__ 0 (ONum 5) (single_node 3) = Ok out h1
      ∧ data (h1 !!! out) = (data (single_node 3 !!! 0%nat) - 5)%float
        ∧ backward 3 out h1 = Some h2
          ∧ grad (h2 !!! 0) = (grad (single_node 3 !!! 0%nat) + 1)%float.
Proof.
  apply (rsub_coincides_with_sub sample_order_perm (single_node 3) 0 3 5%float);
    [apply single_node_ok|simpl; lia..].
Defined.

Lemma neg_neg_round_trip_witness :
  ∃ (n1 : ref) (h1 : heap) (n2 : ref) (h2 h3 : heap),
    __neg__ 0 (single_node 2) = Ok n1 h1
    ∧ __neg__ n1 h1 = Ok n2 h2
      ∧ data (h2 !!! n2) = data (single_node 2 !!! 0)
        ∧ backward 5 n2 h2 = Some h3
          ∧ grad (h3 !!! n1) = (-1)%float
            ∧ grad (h3 !!! 0) = (grad (single_node 2 !!! 0%nat) + 1)%float.
Proof.
  apply (neg_neg_round_trip sample_order_perm (single_node 2) 0 5);
    [apply single_node_ok|simpl; lia..].
Defined.



Lemma truediv_with_number_witness :
  (∃ (out : ref) (h1 h2 : heap),
     __truediv__ 0 (ONum 4) (single_node 2) = Ok out h1
     ∧ data (h1 !!! out) =
       (data (single_node 2 !!! 0%nat) * float_pow 4 (-1))%float
       ∧ backward 4 out h1 = Some h2
         ∧ grad (h2 !!! 0) =
           (grad (single_node 2 !!! 0%nat) + float_pow 4 (-1))%float)
  ∧ ∃ (out : ref) (h1 h2 : heap),
      __rtruediv__ 0 4 (single_node 2) = Ok out h1
      ∧ data (h1 !!! out) =
        (float_pow (data (single_node 2 !!! 0%nat)) (-1) * 4)%float
        ∧ backward 4 out h1 = Some h2
          ∧ grad (h2 !!! 0) =
            (grad (single_node 2 !!! 0%nat) +
             -1 * float_pow (data (single_node 2 !!! 0%nat)) (-2) * (0 + 4))%float.
Proof.
  destruct (truediv_with_number sample_order_perm (single_node 2) 0 4 4%float)
    as [A B]; [apply single_node_ok|simpl; lia..|].
  split; [apply A|apply B]; by split.
Defined.

Lemma pow_power_rule_witness :
  ∃ (out : ref) (h1 h2 : heap),
    __pow__ 0 (PyNum (NInt 2)) (single_node 3) = Ok out h1
    ∧ data (h1 !!! out) =
      float_pow (data (single_node 3 !!! 0)) (float_of_number (NInt 2))
      ∧ _op (h1 !!! out) = TagPow (NInt 2)
        ∧ backward 2 out h1 = Some h2
          ∧ grad (h2 !!! 0) =
            (grad (single_node 3 !!! 0%nat) +
             float_of_number (NInt 2) *
             float_pow (data (single_node 3 !!! 0%nat))
               (float_of_number (number_pred (NInt 2))))%float.
Proof.
  apply (pow_power_rule sample_order_perm (single_node 3) 0 2 (NInt 2));
    [apply single_node_ok|simpl; lia..|].
  unfold pow_in_range. split_and!; first [reflexivity|lia].
Defined.

Lemma activation_gradients_witness :
  (∃ (out : ref) (h1 h2 : heap),
     tanh 0 (single_node 0) = Ok out h1
     ∧ backward 2 out h1 = Some h2
       ∧ grad (h2 !!! 0) =
         (grad (single_node 0 !!! 0%nat) +
          (1 - float_pow (data (h1 !!! out)) 2))%float)
  ∧ (∃ (out : ref) (h1 h2 : heap),
       sigmoid 0 (single_node 0) = Ok out h1
       ∧ backward 2 out h1 = Some h2
         ∧ grad (h2 !!! 0) =
           (grad (single_node 0 !!! 0%nat) +
            data (h1 !!! out) * (1 - data (h1 !!! out)))%float)
    ∧ ∃ (out : ref) (h1 h2 : heap),
        exp 0 (single_node 0) = Ok out h1
        ∧ backward 2 out h1 = Some h2
          ∧ data (h1 !!! out) = math_exp (data (single_node 0 !!! 0))
            ∧ grad (h2 !!! 0) =
              (grad (single_node 0 !!! 0%nat) + data (h1 !!! out))%float.
Proof.
  destruct (activation_gradients sample_order_perm (single_node 0) 0 2)
    as (A & B & C); [apply single_node_ok|simpl; lia..|].
  split_and!; [apply A|apply B|apply C]; reflexivity.
Defined.

Lemma Neuron_call_value_witness :
  ∃ (out : ref) (new : heap),
    nn.Neuron_call sample_neuron (nn.InList [ONum 2; ONum 3]) neuron_leaves =
    nn.Return out (neuron_leaves ++ new)
    ∧ heap_ok (neuron_leaves ++ new)
      ∧ out < length (neuron_leaves ++ new)
        ∧ data ((neuron_leaves ++ new) !!! out) =
          neuron_output neuron_leaves sample_neuron
            (operand_value neuron_leaves <$> [ONum 2; ONum 3])
          ∧ nn.Neuron_call sample_neuron
              (nn.InList
                 (take (length (nn.w sample_neuron)) [ONum 2; ONum 3]))
              neuron_leaves =
            nn.Return out (neuron_leaves ++ new)
            ∧ nn.Neuron_call
                {|
                  nn.w :=
                    take (length [ONum 2; ONum 3]) (nn.w sample_neuron);
                  nn.b := nn.b sample_neuron
                |} (nn.InList [ONum 2; ONum 3]) neuron_leaves =
              nn.Return out (neuron_leaves ++ new).
Proof.
  apply (Neuron_call_value
           sample_order_perm neuron_leaves sample_neuron [ONum 2; ONum 3]);
    [by apply heap_okb_spec|apply sample_neuron_in|by repeat constructor
    |reflexivity].
Defined.

Lemma Layer_call_shape_witness :
  (∃ (y : nn.input) (new : heap),
     nn.Layer_call {| nn.neurons := [sample_neuron] |}
       (nn.InList [ONum 2; ONum 3]) neuron_leaves =
     nn.Return y (neuron_leaves ++ new)
     ∧ input_values (neuron_leaves ++ new) y =
       layer_output neuron_leaves {| nn.neurons := [sample_neuron] |}
         (operand_value neuron_leaves <$> [ONum 2; ONum 3])
       ∧ (length (nn.neurons {| nn.neurons := [sample_neuron] |}) = 1
          → ∃ out : ref, y = nn.InValue out)
         ∧ (length (nn.neurons {| nn.neurons := [sample_neuron] |}) ≠ 1
            → ∃ outs : list ref,
                y = nn.InList (OValue <$> outs)
                ∧ length outs =
                  length (nn.neurons {| nn.neurons := [sample_neuron] |})))
  ∧ nn.Layer_call {| nn.neurons := [sample_neuron] |} 
      (nn.InValue 0) neuron_leaves =
    (if length (nn.neurons {| nn.neurons := [sample_neuron] |}) =? 0
     then nn.Return (nn.InList []) neuron_leaves
     else nn.Fail nn.TypeError neuron_leaves).
Proof.
  destruct (Layer_call_shape
              sample_order_perm neuron_leaves (nn.mkLayer [sample_neuron])
              [ONum 2; ONum 3] 0) as [A B];
    [by apply heap_okb_spec|apply sample_layer_in|by repeat constructor|].
  split; [apply A; by repeat constructor|exact B].
Defined.

Lemma MLP_call_raises_witness :
  (passes false (nn.layers narrow_mlp) = false
   ↔ ∃ new : heap,
       nn.MLP_call narrow_mlp (nn.InList [ONum 2; ONum 3]) neuron_leaves =
       nn.Fail nn.TypeError (neuron_leaves ++ new))
  ∧ (passes false (nn.layers narrow_mlp) = true
     ↔ ∃ (y : nn.input) (new : heap),
         nn.MLP_call narrow_mlp (nn.InList [ONum 2; ONum 3]) neuron_leaves =
         nn.Return y (neuron_leaves ++ new)).
Proof.
  apply (MLP_call_raises
           sample_order_perm neuron_leaves narrow_mlp [ONum 2; ONum 3]);
    [by apply heap_okb_spec|by apply sample_layers_in; repeat constructor
    |by repeat constructor|].
  split; [by repeat constructor|done].
Defined.

Lemma MLP_call_value_witness :
  ∃ (y : nn.input) (new : heap),
    nn.MLP_call sample_mlp (nn.InList [ONum 2; ONum 3]) neuron_leaves =
    nn.Return y (neuron_leaves ++ new)
    ∧ heap_ok (neuron_leaves ++ new)
      ∧ input_in (neuron_leaves ++ new) y
        ∧ input_values (neuron_leaves ++ new) y =
          mlp_output neuron_leaves (nn.layers sample_mlp)
            (operand_value neuron_leaves <$> [ONum 2; ONum 3])
          ∧ is_value y =
            match last (nn.layers sample_mlp) with
            | Some l => length (nn.neurons l) =? 1
            | None => false
            end.
Proof.
  apply (MLP_call_value
           sample_order_perm neuron_leaves sample_mlp [ONum 2; ONum 3]);
    [by apply heap_okb_spec|by apply sample_layers_in; repeat constructor
    |by repeat constructor| |reflexivity].
  split; [by repeat constructor|done].
Defined.

Lemma Neuron_gradients_witness :
  ∃ (out : ref) (h1 h2 : heap),
    nn.Neuron_call sample_neuron (nn.InList (ONum <$> [2%float; 3%float]))
      neuron_leaves =
    nn.Return out h1
    ∧ backward 10 out h1 = Some h2
      ∧ (∀ (i wi : ref) (c : float),
           nn.w sample_neuron !! i = Some wi
           → [2%float; 3%float] !! i = Some c
             → grad (h2 !!! wi) =
               (grad (neuron_leaves !!! wi) +
                c * (0 + (1 - float_pow (data (h1 !!! out)) 2)))%float)
        ∧ (∀ i wi : ref,
             nn.w sample_neuron !! i = Some wi
             → length [2%float; 3%float] ≤ i
               → grad (h2 !!! wi) = grad (neuron_leaves !!! wi))
          ∧ grad (h2 !!! nn.b sample_neuron) =
            (grad (neuron_leaves !!! nn.b sample_neuron) +
             match zip (nn.w sample_neuron) [2; 3] with
             | [] => 1 - float_pow (data (h1 !!! out)) 2
             | _ :: _ => 0 + (1 - float_pow (data (h1 !!! out)) 2)
             end)%float.
Proof.
  apply (Neuron_gradients
           sample_order_perm neuron_leaves sample_neuron [2%float; 3%float]
           10);
    [by apply heap_okb_spec|apply sample_neuron_in|apply sample_neuron_NoDup
    |apply sample_neuron_leaves|reflexivity|simpl; lia].
Defined.

Lemma Neuron_backward_depth_witness :
  ∃ (out : ref) (h1 : heap),
    nn.Neuron_call sample_neuron (nn.InList (ONum <$> [2%float; 3%float]))
      neuron_leaves =
    nn.Return out h1 ∧ backward 3 out h1 = None.
Proof.
  apply (Neuron_backward_depth
           sample_order_perm neuron_leaves sample_neuron [2%float; 3%float] 3);
    [by apply heap_okb_spec|apply sample_neuron_in|apply sample_neuron_NoDup
    |apply sample_neuron_leaves|reflexivity|simpl; lia].
Defined.

End Samples.
